(** * Maze generation and tabular Q-learning: a shallow embedding

    The development follows two source files of the repository:
    the [MazeGenerator] class (randomised backtracker, wall-density
    relaxation, connectivity boost, breadth-first reachability check and the
    L-shaped repair path) and the [QLearningAgent] class of
    [client/src/lib/q-learning.ts]; and, of the training page
    [client/src/pages/maze-solver.tsx], the state updates that keep the
    statistics.

    Conventions of the embedding.
    - Integer-valued JavaScript numbers (coordinates, sizes, step counters,
      rewards, cell codes) are [Z].
    - Real-valued JavaScript numbers (rates, Q-values, random draws) are exact
      rationals, extended with the three special values of IEEE arithmetic
      ([num]); rounding is not modelled.
    - [Math.random] is a stream of rationals, threaded explicitly.
    - A JavaScript array is a list of optional elements, [None] standing for a
      hole, that is, a read that yields [undefined].
    - Exceptions and loops whose termination is not syntactic use [outcome]:
      a value, a thrown error, or an exhausted iteration budget. *)

From Stdlib Require Import ZArith QArith Qround List String Ascii Bool Lia Lqa.
From Stdlib Require Import DecimalString FinFun.
From Stdlib Require DecimalPos DecimalZ.
Import ListNotations.
Open Scope list_scope.
Open Scope Z_scope.

(* ================================================================== *)
(** * JavaScript prelude *)
(* ================================================================== *)

Module Js.

Inductive error : Type := TypeError | RangeError.

Inductive outcome (A : Type) : Type :=
| Ret (a : A)
| Exn (e : error)
| Timeout.

Arguments Ret {A} a.
Arguments Exn {A} e.
Arguments Timeout {A}.

Definition bind {A B} (m : outcome A) (k : A -> outcome B) : outcome B :=
  match m with
  | Ret a => k a
  | Exn e => Exn e
  | Timeout => Timeout
  end.

(** ** Arrays *)

Definition jsarray (A : Type) : Type := list (option A).

(** [a[i]]: [None] is [undefined] (hole, negative or too large an index). *)
Definition aget {A} (a : jsarray A) (i : Z) : option A :=
  if i <? 0 then None
  else match nth_error a (Z.to_nat i) with
       | Some c => c
       | None => None
       end.

Fixpoint list_update {A} (l : list A) (n : nat) (v : A) : list A :=
  match l, n with
  | [], _ => []
  | _ :: t, O => v :: t
  | h :: t, S n' => h :: list_update t n' v
  end.

(** [a[i] = v]: in range the element is replaced; past the end the array is
    extended, the gap being holes; a negative index sets a property that is
    not an element. *)
Definition aset {A} (a : jsarray A) (i : Z) (v : A) : jsarray A :=
  if i <? 0 then a
  else if i <? Z.of_nat (List.length a) then list_update a (Z.to_nat i) (Some v)
  else a ++ repeat None (Z.to_nat i - List.length a) ++ [Some v].

(** [m[y][x]]: reading a property of [undefined] throws. *)
Definition get2 {A} (m : jsarray (jsarray A)) (y x : Z) : outcome (option A) :=
  match aget m y with
  | None => Exn TypeError
  | Some row => Ret (aget row x)
  end.

(** [m[y][x] = v]: the row object is updated in place. *)
Definition set2 {A} (m : jsarray (jsarray A)) (y x : Z) (v : A)
  : outcome (jsarray (jsarray A)) :=
  match aget m y with
  | None => Exn TypeError
  | Some row => Ret (aset m y (aset row x v))
  end.

(** [Array(n).fill(null).map(() => Array(n).fill(v))]; [Array(n)] throws a
    RangeError on a negative length.  (The engine's upper limit on array
    lengths is a resource bound and is not modelled.) *)
Definition matrix {A} (n : Z) (v : A) : outcome (jsarray (jsarray A)) :=
  if n <? 0 then Exn RangeError
  else Ret (repeat (Some (repeat (Some v) (Z.to_nat n))) (Z.to_nat n)).

(** ** The random source *)

Definition rng : Type := nat -> Q.

(** One call of [Math.random()]. *)
Definition draw (r : rng) : Q * rng := (r O, fun n => r (S n)).

(** [a < b] on finite numbers *)
Definition Qltb (a b : Q) : bool :=
  match (a ?= b)%Q with Lt => true | _ => false end.

(** [Math.floor(r * n)] *)
Definition floor_mul (r : Q) (n : Z) : Z := Qfloor (r * inject_Z n).

(** ** Counting loops: [for (i = lo; i < hi; i++) body] *)

Fixpoint for_loop {S} (n : nat) (i : Z) (body : Z -> S -> outcome S) (s : S)
  : outcome S :=
  match n with
  | O => Ret s
  | Datatypes.S n' => bind (body i s) (for_loop n' (i + 1) body)
  end.

Definition for_range {S} (lo hi : Z) (body : Z -> S -> outcome S) (s : S)
  : outcome S :=
  for_loop (Z.to_nat (hi - lo)) lo body s.

(** ** Numbers with the IEEE special values (no rounding) *)

Inductive num : Type := Fin (q : Q) | PInf | NInf | NaN.

Definition of_Z (z : Z) : num := Fin (inject_Z z).

Definition nneg (a : num) : num :=
  match a with
  | Fin q => Fin (- q)
  | PInf => NInf
  | NInf => PInf
  | NaN => NaN
  end.

Definition nadd (a b : num) : num :=
  match a, b with
  | NaN, _ | _, NaN => NaN
  | Fin p, Fin q => Fin (p + q)
  | PInf, NInf | NInf, PInf => NaN
  | PInf, _ | _, PInf => PInf
  | NInf, _ | _, NInf => NInf
  end.

Definition nsub (a b : num) : num := nadd a (nneg b).

(** The sign of a number: [Some c] with [c] the comparison with zero. *)
Definition nsign (a : num) : option comparison :=
  match a with
  | Fin q => Some (q ?= 0)%Q
  | PInf => Some Gt
  | NInf => Some Lt
  | NaN => None
  end.

Definition nmul (a b : num) : num :=
  match a, b with
  | Fin p, Fin q => Fin (p * q)
  | _, _ =>
      match nsign a, nsign b with
      | Some Gt, Some Gt | Some Lt, Some Lt => PInf
      | Some Gt, Some Lt | Some Lt, Some Gt => NInf
      | _, _ => NaN
      end
  end.

(** [a > b] *)
Definition ngt (a b : num) : bool :=
  match a, b with
  | NaN, _ | _, NaN => false
  | Fin p, Fin q => Qltb q p
  | PInf, PInf => false
  | PInf, _ => true
  | _, PInf => false
  | NInf, _ => false
  | Fin _, NInf => true
  end.

(** [a < b] *)
Definition nlt (a b : num) : bool := ngt b a.

(** [Math.max(a, b)] *)
Definition nmax2 (a b : num) : num :=
  match a, b with
  | NaN, _ | _, NaN => NaN
  | _, _ => if ngt b a then b else a
  end.

(** [Math.max(...l)]; the maximum of no argument is [-Infinity]. *)
Definition Math_max (l : list num) : num := fold_left nmax2 l NInf.

(** ** Objects and Maps keyed by strings, in insertion order *)

Fixpoint map_get {V} (m : list (string * V)) (k : string) : option V :=
  match m with
  | [] => None
  | (k', v) :: t => if String.eqb k' k then Some v else map_get t k
  end.

Definition map_has {V} (m : list (string * V)) (k : string) : bool :=
  match map_get m k with Some _ => true | None => false end.

(** [m.set(k, v)] and [o[k] = v]: an existing key keeps its place. *)
Fixpoint map_set {V} (m : list (string * V)) (k : string) (v : V)
  : list (string * V) :=
  match m with
  | [] => [(k, v)]
  | (k', v') :: t =>
      if String.eqb k' k then (k', v) :: t else (k', v') :: map_set t k v
  end.

(** [{ x: number; y: number }] *)
Record Position : Type := mkPos { pos_x : Z; pos_y : Z }.

Definition Position_eq_dec (p q : Position) : {p = q} + {p <> q}.
Proof. decide equality; apply Z.eq_dec. Defined.

(** The decimal text of an integer, as a template literal prints it. *)
Definition string_of_Z (z : Z) : string := NilZero.string_of_int (Z.to_int z).

End Js.

Import Js.

Declare Scope js_scope.
Notation "x <- m ;; k" := (bind m (fun x => k))
  (at level 61, m at next level, right associativity) : js_scope.
Notation "' p <- m ;; k" := (bind m (fun x => match x with p => k end))
  (at level 61, p pattern, m at next level, right associativity) : js_scope.
Open Scope js_scope.

(* ================================================================== *)
(** * The maze generator *)
(* ================================================================== *)

Module MazeGenerator.

(** Cell codes: 0 is OPEN, 1 is WALL. *)
Definition grid : Type := jsarray (jsarray Z).

(** The fields the constructor sets before it calls [generateMaze]. *)
Record config : Type := mkConfig {
  size : Z;
  wallDensity : Q;
  startPosition : Position;
  goalPosition : Position
}.

Record MazeGenerator : Type := mkMaze {
  self : config;
  maze : grid
}.

Definition isValidPosition (this : config) (x y : Z) : bool :=
  (x >=? 0) && (x <? size this) && (y >=? 0) && (y <? size this).

(** [{dx, dy}] for up, right, down, left. *)
Definition directions : list (Z * Z) := [(0, -1); (1, 0); (0, 1); (-1, 0)].

(** [m[y][x] === c] *)
Definition cell_is (c : Z) (v : option Z) : bool :=
  match v with Some z => z =? c | None => false end.

(** [!visited[y][x]]: [undefined] is falsy. *)
Definition not_visited (v : option bool) : bool :=
  match v with Some b => negb b | None => true end.

Definition countAdjacentPaths (this : config) (m : grid) (x y : Z) : outcome Z :=
  fold_left
    (fun acc dir =>
       count <- acc ;;
       let newX := x + fst dir in
       let newY := y + snd dir in
       if isValidPosition this newX newY then
         c <- get2 m newY newX ;;
         Ret (if cell_is 0 c then count + 1 else count)
       else Ret count)
    directions (Ret 0).

(** ** The randomised backtracker *)

Record neighbor : Type := mkNeighbor { nb_x : Z; nb_y : Z; wallX : Z; wallY : Z }.

Record carve_state : Type := mkCarve {
  cs_maze : grid;
  cs_visited : jsarray (jsarray bool);
  cs_stack : list Position;        (* top of the stack first *)
  currentX : Z;
  currentY : Z;
  cs_rng : rng
}.

(** The inner [for (const dir of directions)] loop. *)
Definition find_neighbors (this : config) (visited : jsarray (jsarray bool))
    (cx cy : Z) : outcome (list neighbor) :=
  fold_left
    (fun acc dir =>
       neighbors <- acc ;;
       let neighborX := cx + fst dir * 2 in
       let neighborY := cy + snd dir * 2 in
       let wx := cx + fst dir in
       let wy := cy + snd dir in
       if isValidPosition this neighborX neighborY then
         v <- get2 visited neighborY neighborX ;;
         Ret (if not_visited v
              then neighbors ++ [mkNeighbor neighborX neighborY wx wy]
              else neighbors)
       else Ret neighbors)
    directions (Ret []).

(** One pass through the body of the [do ... while] loop. *)
Definition carve_body (this : config) (s : carve_state) : outcome carve_state :=
  neighbors <- find_neighbors this (cs_visited s) (currentX s) (currentY s) ;;
  if (0 <? Z.of_nat (List.length neighbors)) then
    let (r, rnd) := draw (cs_rng s) in
    let k := floor_mul r (Z.of_nat (List.length neighbors)) in
    match (if k <? 0 then None else nth_error neighbors (Z.to_nat k)) with
    | None => Exn TypeError
    | Some randomNeighbor =>
        let stack := mkPos (currentX s) (currentY s) :: cs_stack s in
        m1 <- set2 (cs_maze s) (wallY randomNeighbor) (wallX randomNeighbor) 0 ;;
        m2 <- set2 m1 (nb_y randomNeighbor) (nb_x randomNeighbor) 0 ;;
        v1 <- set2 (cs_visited s) (nb_y randomNeighbor) (nb_x randomNeighbor) true ;;
        Ret (mkCarve m2 v1 stack (nb_x randomNeighbor) (nb_y randomNeighbor) rnd)
    end
  else
    match cs_stack s with
    | backtrack :: rest =>
        Ret (mkCarve (cs_maze s) (cs_visited s) rest
                     (pos_x backtrack) (pos_y backtrack) (cs_rng s))
    | [] => Ret s
    end.

(** [do { body } while (stack.length > 0)] *)
Fixpoint carve_loop (fuel : nat) (this : config) (s : carve_state)
  : outcome carve_state :=
  match fuel with
  | O => Timeout
  | S fuel' =>
      s' <- carve_body this s ;;
      match cs_stack s' with
      | [] => Ret s'
      | _ :: _ => carve_loop fuel' this s'
      end
  end.

(** ** Wall-density relaxation *)

Definition removalProbability (this : config) : Q :=
  let p := ((1 - wallDensity this) * (3 # 10))%Q in
  if Qle_bool p (1 # 10) then (1 # 10)%Q else p.

Definition near (p : Position) (x y : Z) : bool :=
  (Z.abs (x - pos_x p) <=? 2) && (Z.abs (y - pos_y p) <=? 2).

Definition relax_cell (this : config) (y x : Z) (s : grid * rng)
  : outcome (grid * rng) :=
  let (m, rnd) := s in
  c <- get2 m y x ;;
  if cell_is 0 c then Ret s
  else if near (startPosition this) x y || near (goalPosition this) x y then Ret s
  else
    adjacentPaths <- countAdjacentPaths this m x y ;;
    let (r, rnd') := draw rnd in
    if Qltb r (removalProbability this) && (adjacentPaths <? 3) then
      m' <- set2 m y x 0 ;;
      Ret (m', rnd')
    else Ret (m, rnd').

Definition applyWallDensityModification (this : config) (s : grid * rng)
  : outcome (grid * rng) :=
  for_range 1 (size this - 1)
    (fun y => for_range 1 (size this - 1) (relax_cell this y)) s.

(** ** Connectivity boost *)

Definition connect_once (this : config) (i : Z) (s : grid * rng)
  : outcome (grid * rng) :=
  let (m, rnd) := s in
  let (r1, rnd1) := draw rnd in
  let x := floor_mul r1 (size this - 2) + 1 in
  let (r2, rnd2) := draw rnd1 in
  let y := floor_mul r2 (size this - 2) + 1 in
  c <- get2 m y x ;;
  if cell_is 1 c then
    adj <- countAdjacentPaths this m x y ;;
    if adj >=? 2 then
      m' <- set2 m y x 0 ;;
      Ret (m', rnd2)
    else Ret (m, rnd2)
  else Ret (m, rnd2).

Definition ensureConnectivity (this : config) (s : grid * rng)
  : outcome (grid * rng) :=
  let numConnections := Qfloor (inject_Z (size this) * (1 # 10)) in
  for_range 0 numConnections (connect_once this) s.

(** ** Breadth-first reachability *)

(** The [for (const dir of directions)] loop around one dequeued cell. *)
Definition expand (this : config) (m : grid) (current : Position)
    (s : jsarray (jsarray bool) * list Position)
  : outcome (jsarray (jsarray bool) * list Position) :=
  fold_left
    (fun acc dir =>
       '(visited, queue) <- acc ;;
       let newX := pos_x current + fst dir in
       let newY := pos_y current + snd dir in
       if isValidPosition this newX newY then
         v <- get2 visited newY newX ;;
         if not_visited v then
           c <- get2 m newY newX ;;
           if cell_is 0 c then
             visited' <- set2 visited newY newX true ;;
             Ret (visited', queue ++ [mkPos newX newY])
           else Ret (visited, queue)
         else Ret (visited, queue)
       else Ret (visited, queue))
    directions (Ret s).

(** [while (queue.length > 0)]; the head of the list is the front. *)
Fixpoint bfs (fuel : nat) (this : config) (m : grid)
    (visited : jsarray (jsarray bool)) (queue : list Position) : outcome bool :=
  match fuel with
  | O => Timeout
  | S fuel' =>
      match queue with
      | [] => Ret false
      | current :: rest =>
          if (pos_x current =? pos_x (goalPosition this))
             && (pos_y current =? pos_y (goalPosition this))
          then Ret true
          else
            '(visited', queue') <- expand this m current (visited, rest) ;;
            bfs fuel' this m visited' queue'
      end
  end.

Definition hasPath (fuel : nat) (this : config) (m : grid) : outcome bool :=
  visited <- matrix (size this) false ;;
  visited <- set2 visited (pos_y (startPosition this)) (pos_x (startPosition this)) true ;;
  bfs fuel this m visited [startPosition this].

(** ** The L-shaped repair path *)

Definition createPathToGoal (this : config) (m : grid) : outcome grid :=
  let x0 := pos_x (startPosition this) in
  let y0 := pos_y (startPosition this) in
  let gx := pos_x (goalPosition this) in
  let gy := pos_y (goalPosition this) in
  (* while (x < goal.x) { maze[y][x] = 0; x++ } *)
  m1 <- for_range x0 gx (fun x m => set2 m y0 x 0) m ;;
  let x1 := Z.max x0 gx in
  (* while (y < goal.y) { maze[y][x] = 0; y++ } *)
  m2 <- for_range y0 gy (fun y m => set2 m y x1 0) m1 ;;
  set2 m2 gy gx 0.

(** ** [generateMaze] and the constructor *)

Definition generateMaze (fuel : nat) (this : config) (rnd : rng)
  : outcome (grid * rng) :=
  m0 <- matrix (size this) 1 ;;
  visited <- matrix (size this) false ;;
  let cx := pos_x (startPosition this) in
  let cy := pos_y (startPosition this) in
  visited <- set2 visited cy cx true ;;
  m0 <- set2 m0 cy cx 0 ;;
  s <- carve_loop fuel this (mkCarve m0 visited [] cx cy rnd) ;;
  '(m1, rnd1) <- applyWallDensityModification this (cs_maze s, cs_rng s) ;;
  m2 <- set2 m1 (pos_y (startPosition this)) (pos_x (startPosition this)) 0 ;;
  m3 <- set2 m2 (pos_y (goalPosition this)) (pos_x (goalPosition this)) 0 ;;
  '(m4, rnd2) <- ensureConnectivity this (m3, rnd1) ;;
  ok <- hasPath fuel this m4 ;;
  if negb ok then
    m5 <- createPathToGoal this m4 ;;
    Ret (m5, rnd2)
  else Ret (m4, rnd2).

(** [new MazeGenerator(size, wallDensity)].  [fuel] bounds the iterations of
    the two [while] loops; [rnd] is the state of the random source. *)
Definition new (fuel : nat) (size : Z) (wallDensity : Q) (rnd : rng)
  : outcome (MazeGenerator * rng) :=
  let this := mkConfig size wallDensity (mkPos 0 0) (mkPos (size - 1) (size - 1)) in
  '(m, rnd') <- generateMaze fuel this rnd ;;
  Ret (mkMaze this m, rnd').

Definition getMaze (g : MazeGenerator) : grid := maze g.
Definition getSize (g : MazeGenerator) : Z := size (self g).
Definition getStartPosition (g : MazeGenerator) : Position := startPosition (self g).
Definition getGoalPosition (g : MazeGenerator) : Position := goalPosition (self g).

Definition isWall (g : MazeGenerator) (x y : Z) : outcome bool :=
  if negb (isValidPosition (self g) x y) then Ret true
  else c <- get2 (maze g) y x ;; Ret (cell_is 1 c).

Definition isGoal (g : MazeGenerator) (x y : Z) : bool :=
  (x =? pos_x (goalPosition (self g))) && (y =? pos_y (goalPosition (self g))).

End MazeGenerator.

(* ================================================================== *)
(** * The Q-learning agent *)
(* ================================================================== *)

Module QLearningAgent.

(** [interface QTableEntry { [action: string]: number }] *)
Definition QTableEntry : Type := list (string * num).

Record EpisodeResult : Type := mkResult {
  success : bool;
  steps : Z;
  totalReward : Z;
  finalPosition : Position;
  path : list Position
}.

Record agent : Type := mkAgent {
  qTable : list (string * QTableEntry);
  learningRate : num;
  discountFactor : num;
  explorationRate : num;
  mazeSize : Z;
  actions : list string
}.

Definition four_actions : list string :=
  ["up"%string; "right"%string; "down"%string; "left"%string].

(** The constructor: plain assignments, no check of any argument. *)
Definition new (mazeSize : Z) (learningRate discountFactor explorationRate : num)
  : outcome agent :=
  Ret (mkAgent [] learningRate discountFactor explorationRate mazeSize four_actions).

Definition with_table (a : agent) (t : list (string * QTableEntry)) : agent :=
  mkAgent t (learningRate a) (discountFactor a) (explorationRate a)
          (mazeSize a) (actions a).

Definition getStateKey (x y : Z) : string :=
  (string_of_Z x ++ "," ++ string_of_Z y)%string.

Definition zero_entry (acts : list string) : QTableEntry :=
  fold_left (fun qValues action => map_set qValues action (of_Z 0)) acts [].

Definition initializeQValues (a : agent) (stateKey : string) : agent :=
  if negb (map_has (qTable a) stateKey)
  then with_table a (map_set (qTable a) stateKey (zero_entry (actions a)))
  else a.

(** [qValues[action]] used as a number: a missing property is [undefined],
    which arithmetic and comparisons read as NaN. *)
Definition entry_get (qValues : QTableEntry) (action : string) : num :=
  match map_get qValues action with Some v => v | None => NaN end.

(** [this.actions[i]]; [undefined] acts as the string of that name wherever
    the agent uses an action (as a property key, and in the [switch]). *)
Definition action_at (acts : list string) (i : Z) : string :=
  if i <? 0 then "undefined"%string
  else nth (Z.to_nat i) acts "undefined"%string.

(** The exploitation loop of [chooseAction]. *)
Definition best_action (acts : list string) (qValues : QTableEntry) : string :=
  let bestAction := action_at acts 0 in
  let bestValue := entry_get qValues bestAction in
  fst (fold_left
         (fun best action =>
            if ngt (entry_get qValues action) (snd best)
            then (action, entry_get qValues action)
            else best)
         acts (bestAction, bestValue)).

Definition chooseAction (a : agent) (rnd : rng) (x y : Z)
  : outcome (string * agent * rng) :=
  let stateKey := getStateKey x y in
  let a := initializeQValues a stateKey in
  let (r, rnd) := draw rnd in
  if nlt (Fin r) (explorationRate a) then
    let (r', rnd) := draw rnd in
    Ret (action_at (actions a) (floor_mul r' (Z.of_nat (List.length (actions a)))),
         a, rnd)
  else
    match map_get (qTable a) stateKey with
    | None => Exn TypeError
    | Some qValues => Ret (best_action (actions a) qValues, a, rnd)
    end.

Definition getNextPosition (x y : Z) (action : string) : Position :=
  if String.eqb action "up" then mkPos x (y - 1)
  else if String.eqb action "right" then mkPos (x + 1) y
  else if String.eqb action "down" then mkPos x (y + 1)
  else if String.eqb action "left" then mkPos (x - 1) y
  else mkPos x y.

Definition isValidMove (a : agent) (x y : Z) (maze : jsarray (jsarray Z))
  : outcome bool :=
  if (x >=? 0) && (x <? mazeSize a) && (y >=? 0) && (y <? mazeSize a) then
    c <- get2 maze y x ;;
    Ret (match c with Some z => z =? 0 | None => false end)
  else Ret false.

Definition calculateReward (a : agent) (x y newX newY : Z)
    (maze : jsarray (jsarray Z)) (goalX goalY : Z) : outcome Z :=
  valid <- isValidMove a newX newY maze ;;
  if negb valid then Ret (-10)
  else if (newX =? goalX) && (newY =? goalY) then Ret 100
  else Ret (-1).

Definition updateQValue (a : agent) (state action : string) (reward : num)
    (nextState : string) : outcome agent :=
  let a := initializeQValues a state in
  let a := initializeQValues a nextState in
  match map_get (qTable a) state with
  | None => Exn TypeError
  | Some qState =>
      let currentQ := entry_get qState action in
      match map_get (qTable a) nextState with
      | None => Exn TypeError
      | Some nextQValues =>
          let maxNextQ := Math_max (map snd nextQValues) in
          let newQ :=
            nadd currentQ
                 (nmul (learningRate a)
                       (nsub (nadd reward (nmul (discountFactor a) maxNextQ))
                             currentQ)) in
          Ret (with_table a (map_set (qTable a) state (map_set qState action newQ)))
      end
  end.

(** The local variables of [runEpisode]. *)
Record episode_state : Type := mkEpisode {
  ep_agent : agent;
  ep_rng : rng;
  ep_x : Z;
  ep_y : Z;
  ep_steps : Z;
  ep_totalReward : Z;
  ep_path : list Position
}.

(** The body of the [while] loop up to [path.push]. *)
Definition episode_step (maze : jsarray (jsarray Z)) (goalPos : Position)
    (s : episode_state) : outcome episode_state :=
  let x := ep_x s in
  let y := ep_y s in
  let currentState := getStateKey x y in
  '(action, a, rnd) <- chooseAction (ep_agent s) (ep_rng s) x y ;;
  let nextPos := getNextPosition x y action in
  reward <- calculateReward a x y (pos_x nextPos) (pos_y nextPos) maze
                            (pos_x goalPos) (pos_y goalPos) ;;
  let totalReward := ep_totalReward s + reward in
  valid <- isValidMove a (pos_x nextPos) (pos_y nextPos) maze ;;
  let actualNextX := if valid then pos_x nextPos else x in
  let actualNextY := if valid then pos_y nextPos else y in
  let nextState := getStateKey actualNextX actualNextY in
  a' <- updateQValue a currentState action (of_Z reward) nextState ;;
  Ret (mkEpisode a' rnd actualNextX actualNextY (ep_steps s + 1) totalReward
                 (ep_path s ++ [mkPos actualNextX actualNextY])).

Definition result_of (ok : bool) (s : episode_state) : EpisodeResult :=
  mkResult ok (ep_steps s) (ep_totalReward s) (mkPos (ep_x s) (ep_y s)) (ep_path s).

(** [while (steps < maxSteps)]: [n] is the number of iterations left. *)
Fixpoint episode_loop (n : nat) (maze : jsarray (jsarray Z)) (goalPos : Position)
    (s : episode_state) : outcome (EpisodeResult * agent * rng) :=
  match n with
  | O => Ret (result_of false s, ep_agent s, ep_rng s)
  | S n' =>
      s' <- episode_step maze goalPos s ;;
      if (ep_x s' =? pos_x goalPos) && (ep_y s' =? pos_y goalPos)
      then Ret (result_of true s', ep_agent s', ep_rng s')
      else episode_loop n' maze goalPos s'
  end.

Definition runEpisode (a : agent) (rnd : rng) (maze : jsarray (jsarray Z))
    (startPos goalPos : Position) (maxSteps : Z)
  : outcome (EpisodeResult * agent * rng) :=
  let x := pos_x startPos in
  let y := pos_y startPos in
  episode_loop (Z.to_nat maxSteps) maze goalPos
               (mkEpisode a rnd x y 0 0 [mkPos x y]).

Definition getQValues (a : agent) (stateKey : string) : option QTableEntry :=
  map_get (qTable a) stateKey.

Definition getStatesExplored (a : agent) : Z := Z.of_nat (List.length (qTable a)).

Definition getTotalQValues (a : agent) : Z :=
  fold_left (fun total kv => total + Z.of_nat (List.length (snd kv))) (qTable a) 0.

Definition getMaxQValue (a : agent) : num :=
  fold_left
    (fun maxQ kv =>
       let localMax := Math_max (map snd (snd kv)) in
       if ngt localMax maxQ then localMax else maxQ)
    (qTable a) (of_Z 0).

Definition updateParameters (a : agent)
    (learningRate' discountFactor' explorationRate' : option num) : agent :=
  mkAgent (qTable a)
          (match learningRate' with Some v => v | None => learningRate a end)
          (match discountFactor' with Some v => v | None => discountFactor a end)
          (match explorationRate' with Some v => v | None => explorationRate a end)
          (mazeSize a) (actions a).

Definition exportQTable (a : agent) : list (string * QTableEntry) :=
  fold_left (fun exported kv => map_set exported (fst kv) (snd kv)) (qTable a) [].

Definition reset (a : agent) : agent := with_table a [].

End QLearningAgent.

(* ================================================================== *)
(** * Vocabulary of the specification *)
(* ================================================================== *)

Module Spec.

(** Every draw of the random source lies in [[0, 1)], as [Math.random] promises. *)
Definition random_ok (r : rng) : Prop :=
  forall n, (0 <= r n)%Q /\ (r n < 1)%Q.

(** What a call may do: return a value satisfying [P], or throw, which is only
    allowed under [E]; it never exceeds its iteration budget. *)
Definition run_post {A} (o : outcome A) (P : A -> Prop) (E : Prop) : Prop :=
  match o with
  | Ret v => P v
  | Exn _ => E
  | Timeout => False
  end.

(** An array of [n] elements, none of them a hole. *)
Definition full {A} (n : Z) (a : jsarray A) : Prop :=
  Z.of_nat (List.length a) = n /\
  forall i, 0 <= i < n -> exists v, aget a i = Some v.

(** An [n] x [n] matrix without holes. *)
Definition full2 {A} (n : Z) (m : jsarray (jsarray A)) : Prop :=
  Z.of_nat (List.length m) = n /\
  forall y, 0 <= y < n -> exists row, aget m y = Some row /\ full n row.

End Spec.

Import Spec.

(* ================================================================== *)
(** * The agent: specification vocabulary *)
(* ================================================================== *)

Module AgentSpec.

Import QLearningAgent.

(** An entry with exactly the four actions, in declaration order. *)
Definition complete (e : QTableEntry) : Prop := map fst e = four_actions.

Definition table_complete (t : list (string * QTableEntry)) : Prop :=
  Forall (fun kv => complete (snd kv)) t.

(** The stored value of a state-action pair, if there is one. *)
Definition q_value (a : agent) (state action : string) : option num :=
  match getQValues a state with
  | Some e => map_get e action
  | None => None
  end.

(** [Q(s, a)] read as a number. *)
Definition q_num (a : agent) (state action : string) : num :=
  match getQValues a state with
  | Some e => entry_get e action
  | None => NaN
  end.

(** [max over a' of Q(s, a')] *)
Definition q_max (a : agent) (state : string) : num :=
  match getQValues a state with
  | Some e => Math_max (map snd e)
  | None => NInf
  end.

(** Every row the agent may index exists in the maze. *)
Definition rows_ok (a : agent) (maze : jsarray (jsarray Z)) : Prop :=
  forall y, 0 <= y < mazeSize a -> aget maze y <> None.

(** In bounds and OPEN. *)
Definition open_cell (a : agent) (maze : jsarray (jsarray Z)) (p : Position) : Prop :=
  0 <= pos_x p < mazeSize a /\ 0 <= pos_y p < mazeSize a /\
  get2 maze (pos_y p) (pos_x p) = Ret (Some 0).

(** The agents that a program can build: the constructor followed by any
    sequence of operations.  [updateQValue] is private; [runEpisode] calls
    it with the action [chooseAction] returned, one of the agent's four. *)
Inductive reachable : agent -> Prop :=
| reach_new n lr df er a :
    new n lr df er = Ret a -> reachable a
| reach_choose a rnd x y act a' rnd' :
    reachable a -> chooseAction a rnd x y = Ret (act, a', rnd') -> reachable a'
| reach_update a state act reward nextState a' :
    reachable a -> In act (actions a) ->
    updateQValue a state act reward nextState = Ret a' -> reachable a'
| reach_episode a rnd maze startPos goalPos maxSteps res a' rnd' :
    reachable a -> random_ok rnd ->
    runEpisode a rnd maze startPos goalPos maxSteps = Ret (res, a', rnd') ->
    reachable a'
| reach_params a lr df er :
    reachable a -> reachable (updateParameters a lr df er)
| reach_reset a :
    reachable a -> reachable (reset a).

(** ** One iteration and a whole episode, as the specification words them *)

Definition at_goal (goalPos : Position) (s : episode_state) : Prop :=
  ep_x s = pos_x goalPos /\ ep_y s = pos_y goalPos.

(** Choose an action for the current position; compute the candidate;
    compute the reward against the candidate; update the Q-value; advance
    only if the move is valid; append the resulting position. *)
Inductive iteration (maze : jsarray (jsarray Z)) (goalPos : Position)
  : episode_state -> episode_state -> Prop :=
| iteration_intro s action a1 rnd1 reward valid a2 :
    let x := ep_x s in
    let y := ep_y s in
    chooseAction (ep_agent s) (ep_rng s) x y = Ret (action, a1, rnd1) ->
    let candidate := getNextPosition x y action in
    calculateReward a1 x y (pos_x candidate) (pos_y candidate) maze
                    (pos_x goalPos) (pos_y goalPos) = Ret reward ->
    isValidMove a1 (pos_x candidate) (pos_y candidate) maze = Ret valid ->
    let next := if valid then candidate else mkPos x y in
    updateQValue a1 (getStateKey x y) action (of_Z reward)
                 (getStateKey (pos_x next) (pos_y next)) = Ret a2 ->
    iteration maze goalPos s
      (mkEpisode a2 rnd1 (pos_x next) (pos_y next) (ep_steps s + 1)
                 (ep_totalReward s + reward)
                 (ep_path s ++ [mkPos (pos_x next) (pos_y next)])).

(** [episode n s ok s']: from [s], with [n] iterations allowed, the episode
    stops in [s'], at the first iteration that ends on the goal ([ok]) or
    after all [n] iterations without one ([ok = false]). *)
Inductive episode (maze : jsarray (jsarray Z)) (goalPos : Position)
  : nat -> episode_state -> bool -> episode_state -> Prop :=
| episode_exhausted s :
    episode maze goalPos O s false s
| episode_goal n s s' :
    iteration maze goalPos s s' -> at_goal goalPos s' ->
    episode maze goalPos (S n) s true s'
| episode_more n s s' ok s'' :
    iteration maze goalPos s s' -> ~ at_goal goalPos s' ->
    episode maze goalPos n s' ok s'' ->
    episode maze goalPos (S n) s ok s''.

(** The table invariant. *)
Definition inv (a : agent) : Prop :=
  actions a = four_actions /\ table_complete (qTable a).

(** Numbers that are neither infinite nor NaN. *)
Definition is_fin (v : num) : Prop := exists q, v = Fin q.

Definition table_finite (t : list (string * QTableEntry)) : Prop :=
  Forall (fun kv => Forall (fun av => is_fin (snd av)) (snd kv)) t.

(** The table invariant of an agent whose rates are finite. *)
Definition inv_fin (a : agent) : Prop :=
  inv a /\ is_fin (learningRate a) /\ is_fin (discountFactor a) /\
  table_finite (qTable a).

(** The agents built and trained with finite rates and finite rewards. *)
Inductive trained : agent -> Prop :=
| trained_new n lr df er a :
    new n (Fin lr) (Fin df) er = Ret a -> trained a
| trained_choose a rnd x y act a' rnd' :
    trained a -> chooseAction a rnd x y = Ret (act, a', rnd') -> trained a'
| trained_update a state act reward nextState a' :
    trained a -> In act (actions a) ->
    updateQValue a state act (Fin reward) nextState = Ret a' -> trained a'
| trained_episode a rnd maze startPos goalPos maxSteps res a' rnd' :
    trained a -> random_ok rnd ->
    runEpisode a rnd maze startPos goalPos maxSteps = Ret (res, a', rnd') ->
    trained a'
| trained_params a lr df er :
    trained a ->
    trained (updateParameters a (option_map Fin lr) (option_map Fin df) er)
| trained_reset a :
    trained a -> trained (reset a).

(** The local variables of [runEpisode] before its loop. *)
Definition initial (a : agent) (rnd : rng) (startPos : Position) : episode_state :=
  mkEpisode a rnd (pos_x startPos) (pos_y startPos) 0 0 [startPos].

End AgentSpec.

(* ================================================================== *)
(** * The maze generator: specification vocabulary *)
(* ================================================================== *)

Module MazeSpec.

Import MazeGenerator.

Definition in_grid (this : config) (x y : Z) : Prop :=
  0 <= x < size this /\ 0 <= y < size this.

(** The cell [(x, y)] of the grid is OPEN. *)
Definition open_at (m : grid) (x y : Z) : Prop := get2 m y x = Ret (Some 0).

(** Every OPEN cell of [m] is OPEN in [m']. *)
Definition opens (m m' : grid) : Prop :=
  forall x y, open_at m x y -> open_at m' x y.

(** [(x', y')] is one step up, right, down or left of [(x, y)]. *)
Definition adjacent (x y x' y' : Z) : Prop :=
  exists d, In d directions /\ x' = x + fst d /\ y' = y + snd d.

(** The cells joined to the start by a path of OPEN cells inside the grid. *)
Inductive reach (this : config) (m : grid) : Z -> Z -> Prop :=
| reach_start :
    reach this m (pos_x (startPosition this)) (pos_y (startPosition this))
| reach_step x y x' y' :
    reach this m x y -> adjacent x y x' y' -> in_grid this x' y' ->
    open_at m x' y' -> reach this m x' y'.

(** The configuration the constructor builds for [size] and [wallDensity]. *)
Definition config_of (size : Z) (wallDensity : Q) : config :=
  mkConfig size wallDensity (mkPos 0 0) (mkPos (size - 1) (size - 1)).

(** Iterations that suffice for the two [while] loops on a grid of [size]. *)
Definition enough (size : Z) : nat := Z.to_nat (2 * (size * size) + 2).

(** A grid of the right shape together with a sound random source. *)
Definition shaped (this : config) (s : grid * rng) : Prop :=
  full2 (size this) (fst s) /\ random_ok (snd s).

(** The start and goal the constructor fixes, on a grid with a cell. *)
Definition standard (this : config) : Prop :=
  startPosition this = mkPos 0 0 /\
  goalPosition this = mkPos (size this - 1) (size this - 1) /\
  1 <= size this.

(** The indices [0 .. n-1] and the coordinates [(y, x)] of an [n] x [n] grid. *)
Definition zs (n : Z) : list Z := map Z.of_nat (seq 0 (Z.to_nat n)).

Definition cells (n : Z) : list (Z * Z) := list_prod (zs n) (zs n).

(** The cell [(y, x)] is not marked in [v]. *)
Definition pending (v : jsarray (jsarray bool)) (p : Z * Z) : bool :=
  match get2 v (fst p) (snd p) with
  | Ret (Some true) => false
  | _ => true
  end.

(** The number of grid cells not marked in [v]. *)
Definition unvisited (n : Z) (v : jsarray (jsarray bool)) : nat :=
  List.length (filter (pending v) (cells n)).

(** The invariant of the backtracker's loop. *)
Definition carve_inv (this : config) (s : carve_state) : Prop :=
  full2 (size this) (cs_maze s) /\
  full2 (size this) (cs_visited s) /\
  in_grid this (currentX s) (currentY s) /\
  Forall (fun p => in_grid this (pos_x p) (pos_y p)) (cs_stack s) /\
  random_ok (cs_rng s).

(** Twice the cells still to visit, plus the cells to backtrack through. *)
Definition carve_measure (this : config) (s : carve_state) : nat :=
  2 * unvisited (size this) (cs_visited s) + List.length (cs_stack s).

(** A candidate two cells away: inside the grid, not visited, with the wall
    cell half-way. *)
Definition good_neighbor (this : config) (visited : jsarray (jsarray bool))
    (cx cy : Z) (nb : neighbor) : Prop :=
  in_grid this (nb_x nb) (nb_y nb) /\
  pending visited (nb_y nb, nb_x nb) = true /\
  2 * wallX nb = cx + nb_x nb /\ 2 * wallY nb = cy + nb_y nb.

(** The cell [(x, y)] is marked in [v]. *)
Definition visited_at (v : jsarray (jsarray bool)) (x y : Z) : Prop :=
  get2 v y x = Ret (Some true).

Definition is_goal (this : config) (x y : Z) : Prop :=
  x = pos_x (goalPosition this) /\ y = pos_y (goalPosition this).

(** The search invariant: queued cells are visited cells of the grid, the
    start is visited, every visited cell is joined to the start, and a
    visited cell that has left the queue is not the goal and has all its
    OPEN neighbours visited. *)
Definition bfs_inv (this : config) (m : grid) (visited : jsarray (jsarray bool))
    (queue : list Position) : Prop :=
  full2 (size this) visited /\
  (forall p, In p queue ->
             in_grid this (pos_x p) (pos_y p) /\
             visited_at visited (pos_x p) (pos_y p)) /\
  (in_grid this (pos_x (startPosition this)) (pos_y (startPosition this)) /\
   visited_at visited (pos_x (startPosition this)) (pos_y (startPosition this))) /\
  (forall x y, visited_at visited x y -> reach this m x y) /\
  (forall x y, in_grid this x y -> visited_at visited x y ->
               ~ In (mkPos x y) queue ->
               ~ is_goal this x y /\
               forall x' y', adjacent x y x' y' -> in_grid this x' y' ->
                             open_at m x' y' -> visited_at visited x' y').

End MazeSpec.

(* ================================================================== *)
(** * Concrete inputs *)
(* ================================================================== *)

Module Examples.

Import QLearningAgent.

(** A random source that always draws 1/2. *)
Definition half : rng := fun _ => (1 # 2)%Q.

(** A 3 x 3 maze without walls, and the default agent with no exploration. *)
Definition open3 : jsarray (jsarray Z) := repeat (Some (repeat (Some 0) 3)) 3.

Definition greedy (mazeSize : Z) : agent :=
  mkAgent [] (Fin (1 # 10)) (Fin (9 # 10)) (of_Z 0) mazeSize four_actions.

(** A 2 x 2 maze whose start cell (0,0) has a wall to the right and below. *)
Definition boxed : jsarray (jsarray Z) :=
  [Some [Some 0; Some 1]; Some [Some 1; Some 0]].

(** The agent after one update of (0,0), up, with reward -10 and a self-loop. *)
Definition bumped : agent :=
  Eval vm_compute in
    match updateQValue (greedy 2) "0,0" "up" (of_Z (-10)) "0,0" with
    | Ret a => a
    | _ => greedy 2
    end.

(** The result of an episode that reaches the goal (1,1) in two steps. *)
Definition won : EpisodeResult :=
  mkResult true 2 99 (mkPos 1 1) [mkPos 0 0; mkPos 1 0; mkPos 1 1].

End Examples.

(* ================================================================== *)
(** * Further vocabulary: the agent *)
(* ================================================================== *)

Module AgentSpecMore.

Import QLearningAgent AgentSpec.

(** The state of position [p] has an entry in the table. *)
Definition has_state (a : agent) (p : Position) : Prop :=
  getQValues a (getStateKey (pos_x p) (pos_y p)) <> None.

(** The table of [a'] keeps every state of [a] and is at least as large. *)
Definition grows (a a' : agent) : Prop :=
  (forall k, getQValues a k <> None -> getQValues a' k <> None) /\
  getStatesExplored a <= getStatesExplored a'.

(** [q] is [p] or one cell up, right, down or left of it. *)
Definition one_step (p q : Position) : Prop :=
  Z.abs (pos_x q - pos_x p) + Z.abs (pos_y q - pos_y p) <= 1.

(** Every position of [l] is at most one step from the one before, [p] first. *)
Fixpoint walk (p : Position) (l : list Position) : Prop :=
  match l with
  | [] => True
  | q :: l' => one_step p q /\ walk q l'
  end.




(** No state has two entries in the table. *)
Definition keys_distinct (a : agent) : Prop := NoDup (map fst (qTable a)).

(** [v] is the stored value of some state-action pair. *)
Definition stored (a : agent) (v : num) : Prop :=
  exists state action, q_value a state action = Some v.

(** Every state of the table is the key of a cell inside the agent's bounds. *)
Definition keys_in_grid (a : agent) : Prop :=
  forall k, In k (map fst (qTable a)) ->
            exists x y, 0 <= x < mazeSize a /\ 0 <= y < mazeSize a /\
                        k = getStateKey x y.

(** Following a list of actions from [p], every one of them a valid move:
    the position reached, if all moves are valid. *)
Fixpoint drive (a : agent) (maze : jsarray (jsarray Z)) (p : Position)
    (acts : list string) : option Position :=
  match acts with
  | [] => Some p
  | act :: rest =>
      let q := getNextPosition (pos_x p) (pos_y p) act in
      match isValidMove a (pos_x q) (pos_y q) maze with
      | Ret true => drive a maze q rest
      | _ => None
      end
  end.

End AgentSpecMore.

(* ================================================================== *)
(** * Further vocabulary: the maze generator *)
(* ================================================================== *)

Module MazeSpecMore.

Import MazeGenerator MazeSpec.

(** From [m] to [m'] cells changed only by being OPENED, and only in [R]. *)
Definition opened (R : Z -> Z -> Prop) (m m' : grid) : Prop :=
  forall x y, get2 m' y x = get2 m y x \/ (R x y /\ open_at m' x y).

(** Every cell holds one of the two cell codes. *)
Definition binary (m : grid) : Prop :=
  forall x y v, get2 m y x = Ret (Some v) -> v = 0 \/ v = 1.

(** Not on the border of the grid. *)
Definition interior (this : config) (x y : Z) : Prop :=
  1 <= x <= size this - 2 /\ 1 <= y <= size this - 2.

(** An interior cell more than two away from the start and from the goal. *)
Definition relaxable (this : config) (x y : Z) : Prop :=
  interior this x y /\
  near (startPosition this) x y = false /\ near (goalPosition this) x y = false.

(** The top row and the rightmost column. *)
Definition on_repair_path (this : config) (x y : Z) : Prop :=
  in_grid this x y /\ (y = 0 \/ x = size this - 1).

(** Deciding [full] and [full2] on a given array. *)
Definition is_full {A} (n : Z) (a : jsarray A) : bool :=
  (Z.of_nat (List.length a) =? n) &&
  forallb (fun c => match c with Some _ => true | None => false end) a.

Definition is_full2 {A} (n : Z) (m : jsarray (jsarray A)) : bool :=
  (Z.of_nat (List.length m) =? n) &&
  forallb (fun r => match r with Some row => is_full n row | None => false end) m.

(** ** The backtracker as a depth-first search *)

(** A cell of the grid with two even coordinates. *)
Definition room (this : config) (x y : Z) : Prop :=
  in_grid this x y /\ Z.even x = true /\ Z.even y = true.

(** Every cell of the grid two steps from [(x, y)] is marked in [v]. *)
Definition closed_at (this : config) (v : jsarray (jsarray bool)) (x y : Z) : Prop :=
  forall d, In d directions ->
            in_grid this (x + fst d * 2) (y + snd d * 2) ->
            visited_at v (x + fst d * 2) (y + snd d * 2).

(** A candidate of the inner loop: two steps from [(cx, cy)] in one of the
    four directions, inside the grid, not visited, with the wall cell
    between the two. *)
Definition dfs_neighbor (this : config) (visited : jsarray (jsarray bool))
    (cx cy : Z) (nb : neighbor) : Prop :=
  exists d, In d directions /\
            nb = mkNeighbor (cx + fst d * 2) (cy + snd d * 2) (cx + fst d) (cy + snd d) /\
            in_grid this (nb_x nb) (nb_y nb) /\
            pending visited (nb_y nb, nb_x nb) = true.

(** The invariant of the backtracker seen as a search: the current cell
    and the cells of the stack are visited; visited cells are joined to the
    start; a visited cell that is
    neither current nor on the stack has no unvisited cell two steps away;
    the bottom of the stack is the start; and the first cell visited after
    the start is one of its two neighbours. *)
Definition dfs_inv (this : config) (s : carve_state) : Prop :=
  carve_inv this s /\
  visited_at (cs_visited s) (currentX s) (currentY s) /\
  (forall p, In p (cs_stack s) -> visited_at (cs_visited s) (pos_x p) (pos_y p)) /\
  (forall x y, visited_at (cs_visited s) x y -> reach this (cs_maze s) x y) /\
  (forall x y, visited_at (cs_visited s) x y ->
               mkPos x y <> mkPos (currentX s) (currentY s) ->
               ~ In (mkPos x y) (cs_stack s) ->
               closed_at this (cs_visited s) x y) /\
  last (cs_stack s) (mkPos (currentX s) (currentY s)) = mkPos 0 0 /\
  ((forall x y, visited_at (cs_visited s) x y -> mkPos x y = mkPos 0 0) \/
   visited_at (cs_visited s) 2 0 \/ visited_at (cs_visited s) 0 2).

(** What holds when the backtracker's loop ends. *)
Definition dfs_done (this : config) (s : carve_state) : Prop :=
  full2 (size this) (cs_maze s) /\
  random_ok (cs_rng s) /\
  visited_at (cs_visited s) 0 0 /\
  (forall x y, visited_at (cs_visited s) x y -> reach this (cs_maze s) x y) /\
  (forall x y, visited_at (cs_visited s) x y -> mkPos x y <> mkPos 0 0 ->
               closed_at this (cs_visited s) x y) /\
  (closed_at this (cs_visited s) 0 0 \/
   visited_at (cs_visited s) 2 0 \/ visited_at (cs_visited s) 0 2).

End MazeSpecMore.

(* ================================================================== *)
(** * The training page: statistics *)
(* ================================================================== *)

(** The state updates of [pages/maze-solver.tsx].  Each function passed to
    [setTrainingStats] is a pure function of the previous statistics and of
    the variables its closure captures; these are the parameters here.
    Timers, dialogs and rendering are not modelled. *)
Module TrainingPage.

Import QLearningAgent.

(** [a / b] on numbers.  The sign of a zero is not kept: a zero divisor
    counts as [+0]. *)
Definition ndiv (a b : num) : num :=
  match a, b with
  | NaN, _ | _, NaN => NaN
  | Fin p, Fin q =>
      if Qeq_bool q 0 then
        match (p ?= 0)%Q with Gt => PInf | Lt => NInf | Eq => NaN end
      else Fin (p / q)
  | Fin _, _ => Fin 0
  | PInf, Fin q => if Qltb q 0 then NInf else PInf
  | NInf, Fin q => if Qltb q 0 then PInf else NInf
  | _, _ => NaN
  end.

(** [interface TrainingStats] *)
Record TrainingStats : Type := mkStats {
  currentEpisode : Z;
  totalEpisodes : Z;
  totalSteps : Z;
  successfulRuns : Z;
  successRate : num;
  avgSteps : num;
  bestTime : Z;
  statesExplored : Z;
  totalQValues : Z;
  maxQValue : num;
  isTraining : bool;
  isPaused : bool;
  robotPosition : Position;
  currentStatus : string;
  visitCount : list (string * Z);
  robotPath : list Position
}.

(** The initial value of the [trainingStats] state. *)
Definition initialStats : TrainingStats :=
  mkStats 0 1000 0 0 (of_Z 0) (of_Z 0) 0 0 0 (of_Z 0) false false (mkPos 0 0)
          "Ready to start training" [] [].

(** The update of [resetTraining] (that of [generateNewMaze] differs in the
    status text only). *)
Definition resetStats (status : string) (prev : TrainingStats) : TrainingStats :=
  mkStats 0 (totalEpisodes prev) 0 0 (of_Z 0) (of_Z 0) 0 0 0 (of_Z 0) false false
          (mkPos 0 0) status [] [].

(** [episodeHistoryRef.current.push(steps); if (length > 100) shift()] *)
Definition pushHistory (episodeHistory : list Z) (steps : Z) : list Z :=
  let h := episodeHistory ++ [steps] in
  if 100 <? Z.of_nat (List.length h) then tl h else h.

(** The update inside [animatePath] for one index of the path. *)
Definition animateStep (episode : Z) (episodeResult : EpisodeResult)
    (pathIndex : Z) (prev : TrainingStats) : outcome TrainingStats :=
  match (if pathIndex <? 0 then None
         else nth_error (path episodeResult) (Z.to_nat pathIndex)) with
  | None => Exn TypeError
  | Some position =>
      let posKey := (string_of_Z (pos_x position) ++ "," ++
                     string_of_Z (pos_y position))%string in
      let old := match map_get (visitCount prev) posKey with
                 | Some n => n
                 | None => 0
                 end in
      let newVisitCount := map_set (visitCount prev) posKey (old + 1) in
      let newRobotPath :=
        if (pos_x position =? 0) && (pos_y position =? 0)
           && (0 <? Z.of_nat (List.length (robotPath prev)))
        then [position]
        else robotPath prev ++ [position] in
      Ret (mkStats (currentEpisode prev) (totalEpisodes prev) (totalSteps prev)
                   (successfulRuns prev) (successRate prev) (avgSteps prev)
                   (bestTime prev) (statesExplored prev) (totalQValues prev)
                   (maxQValue prev) (isTraining prev) (isPaused prev)
                   position
                   ("Episode " ++ string_of_Z episode ++ ": Step " ++
                    string_of_Z (pathIndex + 1) ++ "/" ++
                    string_of_Z (Z.of_nat (List.length (path episodeResult))))%string
                   newVisitCount newRobotPath)
  end.

(** The update inside [updateEpisodeStats]; [episode] is the closure's
    [currentEpisode]. *)
Definition updateEpisodeStats (episode : Z) (episodeResult : EpisodeResult)
    (agent : agent) (prev : TrainingStats) : TrainingStats :=
  let totalSteps' := totalSteps prev + steps episodeResult in
  let successfulRuns' :=
    successfulRuns prev + (if success episodeResult then 1 else 0) in
  let successRate' := nmul (ndiv (of_Z successfulRuns') (of_Z episode)) (of_Z 100) in
  let avgSteps' := ndiv (of_Z totalSteps') (of_Z episode) in
  let bestTime' :=
    if success episodeResult
       && ((bestTime prev =? 0) || (steps episodeResult <? bestTime prev))
    then steps episodeResult else bestTime prev in
  mkStats episode (totalEpisodes prev) totalSteps' successfulRuns'
          successRate' avgSteps' bestTime'
          (getStatesExplored agent) (getTotalQValues agent) (getMaxQValue agent)
          (isTraining prev) (isPaused prev)
          (finalPosition episodeResult) (currentStatus prev)
          (visitCount prev) (robotPath prev).

(** [animatePath(pathIndex)] when training is not paused meanwhile: one
    update per position of the path from [pathIndex] on, each scheduled by
    the one before, and [updateEpisodeStats] after the last.  [fuel] bounds
    the number of updates. *)
Fixpoint animatePath (fuel : nat) (episode : Z) (episodeResult : EpisodeResult)
    (agent : agent) (pathIndex : Z) (prev : TrainingStats) : outcome TrainingStats :=
  match fuel with
  | O => Timeout
  | S fuel' =>
      if pathIndex <? Z.of_nat (List.length (path episodeResult)) then
        st <- animateStep episode episodeResult pathIndex prev ;;
        if pathIndex + 1 <? Z.of_nat (List.length (path episodeResult))
        then animatePath fuel' episode episodeResult agent (pathIndex + 1) st
        else Ret (updateEpisodeStats episode episodeResult agent st)
      else Ret prev
  end.

End TrainingPage.

(** ** What the statistics are meant to say *)

Module TrainingSpec.

Import QLearningAgent TrainingPage.

(** The steps of all episodes, and the number of successful ones. *)
Definition sum_steps (rs : list EpisodeResult) : Z :=
  fold_right (fun r acc => steps r + acc) 0 rs.

Definition successes (rs : list EpisodeResult) : Z :=
  Z.of_nat (List.length (filter success rs)).

(** [b] is the least number of steps of a successful episode, or 0 when no
    episode was successful. *)
Definition best_of (rs : list EpisodeResult) (b : Z) : Prop :=
  (b = 0 /\ forall r, In r rs -> success r = false) \/
  ((exists r, In r rs /\ success r = true /\ steps r = b) /\
   forall r, In r rs -> success r = true -> b <= steps r).

(** The running totals agree with the episodes [rs] run so far. *)
Definition tallies (rs : list EpisodeResult) (st : TrainingStats) : Prop :=
  totalSteps st = sum_steps rs /\
  successfulRuns st = successes rs /\
  best_of rs (bestTime st).

(** An episode result as [runEpisode] returns it: a success took a step. *)
Definition plausible (r : EpisodeResult) : Prop :=
  0 <= steps r /\ (success r = true -> 1 <= steps r).

(** The last [n] elements of a list. *)
Definition last_n {A} (n : nat) (l : list A) : list A :=
  skipn (List.length l - n) l.

(** The visit count shown for the cell [(x, y)]. *)
Definition visits (st : TrainingStats) (x y : Z) : Z :=
  match map_get (visitCount st) (getStateKey x y) with
  | Some n => n
  | None => 0
  end.

(** How often the cell [(x, y)] occurs in a path. *)
Definition occurrences (l : list Position) (x y : Z) : Z :=
  Z.of_nat (count_occ Position_eq_dec l (mkPos x y)).

End TrainingSpec.

(* ================================================================== *)
(** * Facts about the prelude *)
(* ================================================================== *)

Module JsFacts.

Lemma random_ok_tail (r : rng) : random_ok r -> random_ok (snd (draw r)).
Proof. intros H n. apply (H (S n)). Qed.

Lemma random_ok_head (r : rng) :
  random_ok r -> (0 <= fst (draw r))%Q /\ (fst (draw r) < 1)%Q.
Proof. intros H. apply (H O). Qed.

Lemma floor_mul_range (r : Q) (n : Z) :
  (0 <= r)%Q -> (r < 1)%Q -> 0 < n -> 0 <= floor_mul r n < n.
Proof.
  intros H0 H1 Hn. unfold floor_mul.
  assert (Hpos : (inject_Z 0 < inject_Z n)%Q) by (rewrite <- Zlt_Qlt; exact Hn).
  change (inject_Z 0) with 0%Q in Hpos.
  split.
  - change 0 with (Qfloor 0). apply Qfloor_resp_le.
    apply Qmult_le_0_compat; [exact H0 | apply Qlt_le_weak; exact Hpos].
  - rewrite Zlt_Qlt. eapply Qle_lt_trans; [apply Qfloor_le|].
    setoid_replace (inject_Z n) with (1 * inject_Z n)%Q at 2 by ring.
    apply Qmult_lt_compat_r; assumption.
Qed.

Lemma map_get_set_eq {V} (m : list (string * V)) k v :
  map_get (map_set m k v) k = Some v.
Proof.
  induction m as [|[k' v'] t IH]; simpl.
  - now rewrite String.eqb_refl.
  - destruct (String.eqb k' k) eqn:E; simpl; rewrite E; auto.
Qed.

Lemma map_get_set_neq {V} (m : list (string * V)) k k' v :
  k' <> k -> map_get (map_set m k v) k' = map_get m k'.
Proof.
  intros Hne. induction m as [|[k0 v0] t IH]; simpl.
  - destruct (String.eqb k k') eqn:E; auto.
    apply String.eqb_eq in E. congruence.
  - destruct (String.eqb k0 k) eqn:E; simpl.
    + apply String.eqb_eq in E. subst k0.
      destruct (String.eqb k k') eqn:E'; auto.
      apply String.eqb_eq in E'. congruence.
    + destruct (String.eqb k0 k'); auto.
Qed.

(** Writing an existing key keeps the keys; a new key goes last. *)
Lemma map_set_keys {V} (m : list (string * V)) k v :
  map fst (map_set m k v) =
  if map_has m k then map fst m else map fst m ++ [k].
Proof.
  unfold map_has. induction m as [|[k' v'] t IH]; simpl; auto.
  destruct (String.eqb k' k) eqn:E; simpl; auto.
  rewrite IH. destruct (map_get t k); auto.
Qed.

Lemma map_set_length_has {V} (m : list (string * V)) k v :
  map_has m k = true -> List.length (map_set m k v) = List.length m.
Proof.
  intros H. rewrite <- !(length_map fst), map_set_keys, H. reflexivity.
Qed.

Lemma map_get_In {V} (m : list (string * V)) k v :
  map_get m k = Some v -> In (k, v) m.
Proof.
  induction m as [|[k' v'] t IH]; simpl; [discriminate|].
  destruct (String.eqb k' k) eqn:E.
  - apply String.eqb_eq in E. intros [= ->]. subst. now left.
  - intros H. right. auto.
Qed.

(** Every value stored by [map_set] is the new one or an old one. *)
Lemma map_set_In {V} (m : list (string * V)) k v kv :
  In kv (map_set m k v) -> kv = (k, v) \/ In kv m.
Proof.
  induction m as [|[k' v'] t IH]; simpl.
  - intros [<-|[]]. now left.
  - destruct (String.eqb k' k) eqn:E; simpl.
    + apply String.eqb_eq in E. subst k'. intros [<-|H]; auto.
    + intros [<-|H]; auto. destruct (IH H); auto.
Qed.

End JsFacts.

(* ================================================================== *)
(** * The agent: proofs *)
(* ================================================================== *)

Module AgentFacts.

Import QLearningAgent AgentSpec JsFacts.

(** ** Lazy initialisation *)

Lemma zero_entry_four :
  zero_entry four_actions =
  [("up"%string, of_Z 0); ("right"%string, of_Z 0);
   ("down"%string, of_Z 0); ("left"%string, of_Z 0)].
Proof. reflexivity. Qed.

Lemma init_fields a k :
  learningRate (initializeQValues a k) = learningRate a /\
  discountFactor (initializeQValues a k) = discountFactor a /\
  explorationRate (initializeQValues a k) = explorationRate a /\
  mazeSize (initializeQValues a k) = mazeSize a /\
  actions (initializeQValues a k) = actions a.
Proof. unfold initializeQValues. destruct (negb _); simpl; auto. Qed.

Lemma init_get a k k' :
  getQValues (initializeQValues a k) k' =
  match getQValues a k' with
  | Some e => Some e
  | None => if String.eqb k k' then Some (zero_entry (actions a)) else None
  end.
Proof.
  unfold getQValues, initializeQValues, map_has.
  destruct (map_get (qTable a) k) eqn:Hk; simpl.
  - destruct (map_get (qTable a) k') eqn:Hk'; auto.
    destruct (String.eqb k k') eqn:E; auto.
    apply String.eqb_eq in E. congruence.
  - destruct (String.eqb k k') eqn:E.
    + apply String.eqb_eq in E. subst k'. rewrite map_get_set_eq, Hk. reflexivity.
    + apply String.eqb_neq in E. rewrite map_get_set_neq by congruence.
      destruct (map_get (qTable a) k'); reflexivity.
Qed.

Lemma init_get_self a k :
  exists e, getQValues (initializeQValues a k) k = Some e.
Proof.
  rewrite init_get, String.eqb_refl. destruct (getQValues a k); eauto.
Qed.

Lemma init_keeps a k s e :
  getQValues a s = Some e -> getQValues (initializeQValues a k) s = Some e.
Proof. intros H. rewrite init_get, H. reflexivity. Qed.

(** ** [updateQValue] *)

Lemma updateQValue_eq a state action reward nextState :
  let a0 := initializeQValues (initializeQValues a state) nextState in
  exists qS,
    getQValues a0 state = Some qS /\
    updateQValue a state action reward nextState =
    Ret (with_table a0
           (map_set (qTable a0) state
              (map_set qS action
                 (nadd (q_num a0 state action)
                    (nmul (learningRate a)
                       (nsub (nadd reward (nmul (discountFactor a) (q_max a0 nextState)))
                             (q_num a0 state action))))))).
Proof.
  intros a0.
  destruct (init_get_self (initializeQValues a state) nextState) as [qN HN].
  destruct (init_get_self a state) as [qS0 HS0].
  pose proof (init_keeps _ nextState _ _ HS0) as HS. fold a0 in HS, HN.
  exists qS0. split; [exact HS|].
  unfold updateQValue. fold a0. unfold getQValues in HS, HN.
  rewrite HS, HN. unfold q_num, q_max, getQValues. rewrite HS, HN.
  destruct (init_fields (initializeQValues a state) nextState) as (E1 & E2 & _).
  destruct (init_fields a state) as (F1 & F2 & _).
  fold a0 in E1, E2. rewrite E1, E2, F1, F2. reflexivity.
Qed.

Lemma q_value_with_table a t s act :
  q_value (with_table a t) s act =
  match map_get t s with Some e => map_get e act | None => None end.
Proof. reflexivity. Qed.

(** C4. Every Q-value update is the one-step tabular Q-learning rule,
    [Q(s,a) <- Q(s,a) + alpha * (r + gamma * max_a' Q(s',a') - Q(s,a))],
    read and written after both [s] and [s'] have been lazily initialised
    (a missing state gets the four actions at 0, an existing one is kept);
    no other stored value changes and the rates are untouched.  The other
    operations never change a stored value: [initializeQValues] and
    [chooseAction] keep every existing entry, [updateParameters] leaves the
    table alone, and [reset] leaves no entry at all. *)
Theorem updateQValue_rule (a : agent) (state action : string) (reward : num)
    (nextState : string) :
  let a0 := initializeQValues (initializeQValues a state) nextState in
  (forall k, getQValues a0 k =
             match getQValues a k with
             | Some e => Some e
             | None => if String.eqb state k || String.eqb nextState k
                       then Some (zero_entry (actions a)) else None
             end) /\
  zero_entry four_actions =
    [("up"%string, of_Z 0); ("right"%string, of_Z 0);
     ("down"%string, of_Z 0); ("left"%string, of_Z 0)] /\
  (exists a',
      updateQValue a state action reward nextState = Ret a' /\
      q_value a' state action =
        Some (nadd (q_num a0 state action)
                (nmul (learningRate a)
                   (nsub (nadd reward (nmul (discountFactor a) (q_max a0 nextState)))
                         (q_num a0 state action)))) /\
      (forall s b, s <> state \/ b <> action -> q_value a' s b = q_value a0 s b) /\
      learningRate a' = learningRate a /\ discountFactor a' = discountFactor a /\
      explorationRate a' = explorationRate a /\ mazeSize a' = mazeSize a /\
      actions a' = actions a) /\
  (forall k s e, getQValues a s = Some e ->
                 getQValues (initializeQValues a k) s = Some e) /\
  (forall rnd x y act a' rnd' s e,
      chooseAction a rnd x y = Ret (act, a', rnd') ->
      getQValues a s = Some e -> getQValues a' s = Some e) /\
  (forall lr df er, qTable (updateParameters a lr df er) = qTable a) /\
  (forall s, getQValues (reset a) s = None).
Proof.
  intros a0. repeat split.
  - intros k. unfold a0. rewrite !init_get.
    destruct (init_fields a state) as (_ & _ & _ & _ & ->).
    destruct (getQValues a k); auto.
    destruct (String.eqb state k), (String.eqb nextState k); reflexivity.
  - destruct (updateQValue_eq a state action reward nextState) as (qS & HS & Hup).
    fold a0 in HS, Hup. eexists. split; [exact Hup|].
    destruct (init_fields (initializeQValues a state) nextState) as (E1 & E2 & E3 & E4 & E5).
    destruct (init_fields a state) as (F1 & F2 & F3 & F4 & F5).
    fold a0 in E1, E2, E3, E4, E5.
    repeat split; simpl; try congruence.
    + rewrite q_value_with_table, map_get_set_eq, map_get_set_eq. reflexivity.
    + intros s b Hne. rewrite q_value_with_table. unfold q_value.
      destruct (String.eqb state s) eqn:E.
      * apply String.eqb_eq in E. subst s. rewrite map_get_set_eq, HS.
        destruct Hne as [Hne|Hne]; [congruence|].
        apply map_get_set_neq. exact Hne.
      * apply String.eqb_neq in E. rewrite map_get_set_neq by congruence.
        reflexivity.
  - intros k s e. apply init_keeps.
  - intros rnd x y act a' rnd' s e Hc Hs. unfold chooseAction in Hc.
    destruct (draw rnd) as [r rnd1].
    destruct (nlt _ _).
    + destruct (draw rnd1). injection Hc as _ <- _. apply init_keeps, Hs.
    + destruct (map_get _ _); [|discriminate].
      injection Hc as _ <- _. apply init_keeps, Hs.
Qed.

(** ** The table invariant *)

Lemma complete_has e act : complete e -> In act four_actions -> map_has e act = true.
Proof.
  unfold complete. intros He Hin.
  destruct e as [|[k0 v0] [|[k1 v1] [|[k2 v2] [|[k3 v3] [|]]]]]; try discriminate.
  injection He as -> -> -> ->. unfold map_has. simpl.
  simpl in Hin. destruct Hin as [<-|[<-|[<-|[<-|[]]]]]; reflexivity.
Qed.

Lemma complete_set e act v :
  complete e -> In act four_actions -> complete (map_set e act v).
Proof.
  intros He Hin. unfold complete. rewrite map_set_keys, (complete_has e act He Hin).
  exact He.
Qed.

Lemma table_complete_set t k e :
  table_complete t -> complete e -> table_complete (map_set t k e).
Proof.
  unfold table_complete. rewrite !Forall_forall. intros Ht He kv Hin.
  destruct (map_set_In _ _ _ _ Hin) as [->|Hold]; auto.
Qed.

Lemma table_complete_get t k e :
  table_complete t -> map_get t k = Some e -> complete e.
Proof.
  unfold table_complete. rewrite Forall_forall. intros Ht Hg.
  apply (Ht (k, e)). apply map_get_In, Hg.
Qed.

Lemma inv_init a k : inv a -> inv (initializeQValues a k).
Proof.
  intros [Ha Ht]. unfold inv, initializeQValues.
  destruct (negb _); simpl; auto. split; auto.
  apply table_complete_set; auto. rewrite Ha. reflexivity.
Qed.

Lemma inv_update a state act reward nextState a' :
  inv a -> In act (actions a) ->
  updateQValue a state act reward nextState = Ret a' -> inv a'.
Proof.
  intros Hinv Hact Hup.
  destruct (updateQValue_eq a state act reward nextState) as (qS & HS & E).
  rewrite E in Hup. injection Hup as <-.
  pose proof (inv_init _ nextState (inv_init _ state Hinv)) as [Ha Ht].
  split; simpl; auto.
  apply table_complete_set; auto. apply complete_set.
  - eapply table_complete_get; eauto.
  - destruct Hinv as [<- _]. exact Hact.
Qed.

Lemma best_action_in acts e : acts <> [] -> In (best_action acts e) acts.
Proof.
  intros Hne. unfold best_action.
  assert (H0 : In (action_at acts 0) acts).
  { destruct acts; [congruence|]. now left. }
  generalize (entry_get e (action_at acts 0)). revert H0.
  generalize (action_at acts 0).
  assert (G : forall l b v, (forall c, In c l -> In c acts) -> In b acts ->
            In (fst (fold_left
                       (fun best action =>
                          if ngt (entry_get e action) (snd best)
                          then (action, entry_get e action) else best)
                       l (b, v))) acts).
  { induction l as [|c l IH]; simpl; intros b v Hl Hb; auto.
    destruct (ngt _ _); apply IH; auto. }
  intros b Hb v. apply G; auto.
Qed.

Lemma action_at_in (r : Q) :
  (0 <= r)%Q -> (r < 1)%Q ->
  In (action_at four_actions (floor_mul r (Z.of_nat (List.length four_actions))))
     four_actions.
Proof.
  intros H0 H1. simpl List.length.
  pose proof (floor_mul_range r 4 H0 H1 ltac:(lia)) as Hk.
  change (Z.of_nat 4) with 4.
  assert (Hcases : floor_mul r 4 = 0 \/ floor_mul r 4 = 1 \/
                   floor_mul r 4 = 2 \/ floor_mul r 4 = 3) by lia.
  destruct Hcases as [ -> | [ -> | [ -> | -> ] ] ]; simpl; auto.
Qed.

(** [chooseAction] always returns: the state it reads has just been initialised. *)
Lemma chooseAction_returns a rnd x y :
  exists act,
    chooseAction a rnd x y =
    Ret (act, initializeQValues a (getStateKey x y),
         if nlt (Fin (fst (draw rnd))) (explorationRate a)
         then snd (draw (snd (draw rnd))) else snd (draw rnd)) /\
    (actions a = four_actions -> random_ok rnd -> In act (actions a)).
Proof.
  unfold chooseAction, draw.
  destruct (init_fields a (getStateKey x y)) as (_ & _ & E3 & _ & E5).
  rewrite E3, E5. simpl fst. simpl snd.
  destruct (nlt (Fin (rnd O)) (explorationRate a)).
  - eexists. split; [reflexivity|].
    intros Ha Hr. rewrite Ha. destruct (Hr 1%nat) as [H0 H1].
    apply action_at_in; assumption.
  - destruct (init_get_self a (getStateKey x y)) as [e He].
    unfold getQValues in He. rewrite He. eexists. split; [reflexivity|].
    intros Ha _. apply best_action_in. rewrite Ha. discriminate.
Qed.

Lemma inv_choose a rnd x y act a' rnd' :
  inv a -> chooseAction a rnd x y = Ret (act, a', rnd') -> inv a'.
Proof.
  intros Hinv Hc. destruct (chooseAction_returns a rnd x y) as (act0 & E & _).
  rewrite E in Hc. injection Hc as _ <- _. apply inv_init, Hinv.
Qed.

(** ** Moves *)

Lemma isValidMove_cases a x y maze :
  (isValidMove a x y maze = Ret true /\ open_cell a maze (mkPos x y)) \/
  (isValidMove a x y maze = Ret false /\ ~ open_cell a maze (mkPos x y)) \/
  (exists e, isValidMove a x y maze = Exn e /\ ~ rows_ok a maze).
Proof.
  unfold isValidMove, open_cell, get2. simpl.
  destruct ((x >=? 0) && (x <? mazeSize a) && (y >=? 0) && (y <? mazeSize a)) eqn:Hb.
  - assert (Hr : 0 <= x < mazeSize a /\ 0 <= y < mazeSize a) by lia.
    destruct (aget maze y) as [row|] eqn:Hrow; simpl.
    + destruct (aget row x) as [z|] eqn:Hc.
      * destruct (z =? 0) eqn:Hz.
        -- left. split; auto. apply Z.eqb_eq in Hz. subst z. intuition.
        -- right; left. split; auto. intros (_ & _ & [= ->]). discriminate.
      * right; left. split; auto. intros (_ & _ & [=]).
    + right; right. exists TypeError. split; auto.
      intros H. apply (H y); [lia | exact Hrow].
  - right; left. split; auto. intros (H1 & H2 & _). lia.
Qed.

Lemma isValidMove_agent a a' x y maze :
  mazeSize a' = mazeSize a -> isValidMove a' x y maze = isValidMove a x y maze.
Proof. unfold isValidMove. intros ->. reflexivity. Qed.

Lemma rows_ok_agent a a' maze :
  mazeSize a' = mazeSize a -> rows_ok a' maze <-> rows_ok a maze.
Proof. unfold rows_ok. intros ->. reflexivity. Qed.

Lemma updateQValue_mazeSize a state act reward nextState a' :
  updateQValue a state act reward nextState = Ret a' -> mazeSize a' = mazeSize a.
Proof.
  intros Hup. destruct (updateQValue_eq a state act reward nextState) as (qS & _ & E).
  rewrite E in Hup. injection Hup as <-. simpl.
  destruct (init_fields (initializeQValues a state) nextState) as (_ & _ & _ & -> & _).
  apply init_fields.
Qed.

Lemma updateQValue_returns a state act reward nextState :
  exists a', updateQValue a state act reward nextState = Ret a'.
Proof.
  destruct (updateQValue_eq a state act reward nextState) as (qS & _ & E). eauto.
Qed.

(** ** One iteration *)

Lemma episode_step_spec maze goalPos s :
  run_post (episode_step maze goalPos s)
           (fun s' => iteration maze goalPos s s' /\
                      mazeSize (ep_agent s') = mazeSize (ep_agent s))
           (~ rows_ok (ep_agent s) maze).
Proof.
  unfold episode_step.
  destruct (chooseAction_returns (ep_agent s) (ep_rng s) (ep_x s) (ep_y s))
    as (act & Hc & _).
  rewrite Hc. cbn [bind].
  set (a1 := initializeQValues (ep_agent s) (getStateKey (ep_x s) (ep_y s))) in *.
  assert (Hm : mazeSize a1 = mazeSize (ep_agent s)) by apply init_fields.
  set (cand := getNextPosition (ep_x s) (ep_y s) act).
  unfold calculateReward.
  destruct (isValidMove_cases a1 (pos_x cand) (pos_y cand) maze)
    as [[Hv _]|[[Hv _]|(e & Hv & Hrows)]].
  - rewrite Hv. cbn [bind negb].
    destruct ((pos_x cand =? pos_x goalPos) && (pos_y cand =? pos_y goalPos)) eqn:Hg;
      cbn [bind];
      match goal with
      | |- context [updateQValue ?a ?k ?c ?r ?k'] =>
          destruct (updateQValue_returns a k c r k') as [a2 Hup]
      end;
      rewrite Hup; cbn [bind run_post]; (split;
        [ eapply (iteration_intro maze goalPos s act a1 _ _ true a2); eauto;
          unfold calculateReward; fold cand; rewrite Hv; cbn [bind negb]; rewrite Hg; reflexivity
        | simpl; rewrite (updateQValue_mazeSize _ _ _ _ _ _ Hup); exact Hm ]).
  - rewrite Hv. cbn [bind negb].
    match goal with
    | |- context [updateQValue ?a ?k ?c ?r ?k'] =>
        destruct (updateQValue_returns a k c r k') as [a2 Hup]
    end.
    rewrite Hup. cbn [bind run_post]. split.
    + eapply (iteration_intro maze goalPos s act a1 _ _ false a2); eauto.
      unfold calculateReward. fold cand. rewrite Hv. reflexivity.
    + simpl. rewrite (updateQValue_mazeSize _ _ _ _ _ _ Hup). exact Hm.
  - rewrite Hv. cbn [bind run_post]. intros H. apply Hrows.
    apply (rows_ok_agent _ _ _ Hm). exact H.
Qed.

Lemma open_cell_agent a a' maze p :
  mazeSize a' = mazeSize a -> open_cell a' maze p <-> open_cell a maze p.
Proof. unfold open_cell. intros ->. reflexivity. Qed.

Lemma pos_eta (p : Position) : mkPos (pos_x p) (pos_y p) = p.
Proof. destruct p. reflexivity. Qed.

Lemma at_goal_pos goalPos s :
  at_goal goalPos s <-> mkPos (ep_x s) (ep_y s) = goalPos.
Proof.
  unfold at_goal. destruct goalPos as [gx gy]. simpl. split.
  - intros [-> ->]. reflexivity.
  - intros [= -> ->]. auto.
Qed.

Lemma at_goal_dec goalPos s :
  (ep_x s =? pos_x goalPos) && (ep_y s =? pos_y goalPos) = true <-> at_goal goalPos s.
Proof. unfold at_goal. rewrite andb_true_iff, !Z.eqb_eq. reflexivity. Qed.

(** What one iteration does to the position, the trajectory and the reward. *)
Lemma iteration_inv maze goalPos s s' :
  iteration maze goalPos s s' ->
  exists next reward,
    ep_path s' = ep_path s ++ [next] /\
    mkPos (ep_x s') (ep_y s') = next /\
    ep_steps s' = ep_steps s + 1 /\
    ep_totalReward s' = ep_totalReward s + reward /\
    mazeSize (ep_agent s') = mazeSize (ep_agent s) /\
    ((next = mkPos (ep_x s) (ep_y s) /\ reward = -10) \/
     (open_cell (ep_agent s) maze next /\
      ((reward = 100 /\ next = goalPos) \/ (reward = -1 /\ next <> goalPos)))).
Proof.
  intros H. destruct H as [s action a1 rnd1 reward valid a2 x y Hc cand Hr Hv next Hup].
  exists (mkPos (pos_x next) (pos_y next)), reward. simpl.
  destruct (chooseAction_returns (ep_agent s) (ep_rng s) x y) as (act0 & E & _).
  fold x y in E. rewrite E in Hc. injection Hc as _ <- _.
  assert (Hm : mazeSize (initializeQValues (ep_agent s) (getStateKey x y))
               = mazeSize (ep_agent s)) by apply init_fields.
  repeat split; auto.
  - rewrite (updateQValue_mazeSize _ _ _ _ _ _ Hup). exact Hm.
  - unfold calculateReward in Hr. rewrite Hv in Hr. cbn [bind] in Hr.
    destruct (isValidMove_cases (initializeQValues (ep_agent s) (getStateKey x y))
                (pos_x cand) (pos_y cand) maze) as [[Hv' Ho]|[[Hv' _]|(e & Hv' & _)]];
      rewrite Hv' in Hv; try discriminate; injection Hv as <-; cbn [negb] in Hr.
    + right. subst next. simpl. split.
      * apply (open_cell_agent _ _ _ _ Hm). exact Ho.
      * destruct ((pos_x cand =? pos_x goalPos) && (pos_y cand =? pos_y goalPos)) eqn:Hg;
          injection Hr as <-.
        -- left. split; auto. apply andb_true_iff in Hg. destruct Hg as [Hx Hy].
           apply Z.eqb_eq in Hx, Hy. destruct goalPos; simpl in *. congruence.
        -- right. split; auto. intros Heq. rewrite <- Heq in Hg. simpl in Hg.
           rewrite !Z.eqb_refl in Hg. discriminate.
    + left. injection Hr as <-. subst next. simpl. auto.
Qed.

Lemma iteration_inv_agent maze goalPos s s' :
  iteration maze goalPos s s' ->
  inv (ep_agent s) -> random_ok (ep_rng s) ->
  inv (ep_agent s') /\ random_ok (ep_rng s').
Proof.
  intros H Hinv Hrnd.
  destruct H as [s action a1 rnd1 reward valid a2 x y Hc cand Hr Hv next Hup].
  simpl.
  destruct (chooseAction_returns (ep_agent s) (ep_rng s) x y) as (act0 & E & Hact).
  fold x y in E. rewrite E in Hc. injection Hc as <- <- <-.
  split.
  - eapply inv_update; [| |exact Hup].
    + apply inv_init, Hinv.
    + destruct (init_fields (ep_agent s) (getStateKey x y)) as (_ & _ & _ & _ & ->).
      apply Hact; [apply Hinv | exact Hrnd].
  - destruct (nlt _ _).
    + apply (random_ok_tail (snd (draw (ep_rng s)))), (random_ok_tail (ep_rng s)), Hrnd.
    + apply (random_ok_tail (ep_rng s)), Hrnd.
Qed.

(** ** The loop *)

Lemma episode_loop_spec maze goalPos n : forall s,
  run_post (episode_loop n maze goalPos s)
    (fun out =>
       let '(res, a', rnd') := out in
       exists s',
         episode maze goalPos n s (success res) s' /\
         res = result_of (success res) s' /\
         a' = ep_agent s' /\ rnd' = ep_rng s')
    (~ rows_ok (ep_agent s) maze).
Proof.
  induction n as [|n IH]; intros s; simpl.
  - exists s. repeat split. constructor.
  - pose proof (episode_step_spec maze goalPos s) as Hstep.
    destruct (episode_step maze goalPos s) as [s1| |]; simpl in *; auto.
    destruct Hstep as [Hit Hm].
    destruct ((ep_x s1 =? pos_x goalPos) && (ep_y s1 =? pos_y goalPos)) eqn:Hg.
    + simpl. exists s1. repeat split.
      apply episode_goal; auto. apply at_goal_dec, Hg.
    + specialize (IH s1).
      destruct (episode_loop n maze goalPos s1) as [[[res a'] rnd']| |]; simpl in *; auto.
      * destruct IH as (s' & Hep & Hres & Ha & Hr). exists s'. repeat split; auto.
        eapply episode_more; eauto.
        intros Hat. apply at_goal_dec in Hat. congruence.
      * intros H. apply IH. apply (rows_ok_agent _ _ _ Hm). exact H.
Qed.

Lemma last_cons {A} (l : list A) (a d : A) : last (a :: l) d = last l a.
Proof.
  revert a d. induction l as [|b l IH]; intros a d; [reflexivity|].
  change (last (a :: b :: l) d) with (last (b :: l) d).
  rewrite (IH b d), (IH b a). reflexivity.
Qed.

Lemma episode_path maze goalPos n s ok s' :
  episode maze goalPos n s ok s' ->
  exists tail,
    ep_path s' = ep_path s ++ tail /\
    ep_steps s' = ep_steps s + Z.of_nat (List.length tail) /\
    mkPos (ep_x s') (ep_y s') = last tail (mkPos (ep_x s) (ep_y s)) /\
    (ok = true -> exists pre, tail = pre ++ [goalPos] /\
                              Forall (fun p => p <> goalPos) pre) /\
    (ok = false -> List.length tail = n /\ Forall (fun p => p <> goalPos) tail).
Proof.
  induction 1 as [s | n s s' Hit Hg | n s s' ok s'' Hit Hg Hep IH].
  - exists []. simpl. rewrite app_nil_r. repeat split; auto; try lia; discriminate.
  - destruct (iteration_inv _ _ _ _ Hit) as (next & reward & Hp & Hn & Hs & _).
    exists [next]. simpl. repeat split; auto; try discriminate.
    intros _. exists []. split; auto.
    simpl. apply at_goal_pos in Hg. congruence.
  - destruct (iteration_inv _ _ _ _ Hit) as (next & reward & Hp & Hn & Hs & _).
    destruct IH as (tail & Hp' & Hs' & Hl & Ht & Hf).
    assert (Hnext : next <> goalPos).
    { intros ->. apply Hg. apply at_goal_pos. exact Hn. }
    exists (next :: tail). repeat split.
    + rewrite Hp', Hp, <- app_assoc. reflexivity.
    + rewrite Hs', Hs. simpl List.length. lia.
    + rewrite Hl, Hn, last_cons. reflexivity.
    + intros Hok. destruct (Ht Hok) as (pre & -> & Hpre).
      exists (next :: pre). split; auto.
    + simpl. f_equal. apply Hf, H.
    + constructor; auto. apply Hf, H.
Qed.

Lemma episode_open maze goalPos n s ok s' (a : agent) :
  episode maze goalPos n s ok s' ->
  mazeSize (ep_agent s) = mazeSize a ->
  open_cell a maze (mkPos (ep_x s) (ep_y s)) ->
  Forall (open_cell a maze) (ep_path s) ->
  open_cell a maze (mkPos (ep_x s') (ep_y s')) /\
  Forall (open_cell a maze) (ep_path s').
Proof.
  induction 1 as [s | n s s' Hit Hg | n s s' ok s'' Hit Hg Hep IH];
    intros Hm Hcur Hpath; auto;
    destruct (iteration_inv _ _ _ _ Hit) as (next & reward & Hp & Hn & _ & _ & Hm' & Hcase);
    assert (Hnext : open_cell a maze next)
      by (destruct Hcase as [[-> _]|[Ho _]];
          [exact Hcur | apply (open_cell_agent _ _ _ _ Hm); exact Ho]).
  - rewrite Hn, Hp. split; auto. apply Forall_app. auto.
  - apply IH.
    + congruence.
    + rewrite Hn. exact Hnext.
    + rewrite Hp. apply Forall_app. auto.
Qed.

Lemma episode_inv maze goalPos n s ok s' :
  episode maze goalPos n s ok s' ->
  inv (ep_agent s) -> random_ok (ep_rng s) -> inv (ep_agent s').
Proof.
  induction 1 as [s | n s s' Hit Hg | n s s' ok s'' Hit Hg Hep IH];
    intros Hinv Hrnd; auto.
  - eapply iteration_inv_agent; eauto.
  - destruct (iteration_inv_agent _ _ _ _ Hit Hinv Hrnd). auto.
Qed.

(** ** Episodes *)

Lemma runEpisode_initial a rnd maze startPos goalPos maxSteps :
  runEpisode a rnd maze startPos goalPos maxSteps =
  episode_loop (Z.to_nat maxSteps) maze goalPos (initial a rnd startPos).
Proof. unfold runEpisode, initial. rewrite pos_eta. reflexivity. Qed.

(** C2. [runEpisode] iterates: choose an action at the current position,
    compute the candidate, the reward against the candidate, update the
    Q-value with that outcome, advance only on a valid move and append the
    resulting position in either case ([iteration]); it stops with
    [success = true] at the first iteration that ends on the goal and with
    [success = false] once [maxSteps] iterations are done without one
    ([episode]).  The returned path starts with the start position, has one
    more element per step, and ends on the final position.  The call throws
    only when the maze lacks a row inside the agent's bounds. *)
Theorem runEpisode_trace (a : agent) (rnd : rng) (maze : jsarray (jsarray Z))
    (startPos goalPos : Position) (maxSteps : Z) :
  run_post (runEpisode a rnd maze startPos goalPos maxSteps)
    (fun out =>
       let '(res, a', rnd') := out in
       exists s' tail,
         episode maze goalPos (Z.to_nat maxSteps) (initial a rnd startPos)
                 (success res) s' /\
         res = result_of (success res) s' /\ a' = ep_agent s' /\ rnd' = ep_rng s' /\
         path res = startPos :: tail /\
         steps res = Z.of_nat (List.length tail) /\
         finalPosition res = last tail startPos /\
         (success res = true ->
          exists pre, tail = pre ++ [goalPos] /\ Forall (fun p => p <> goalPos) pre) /\
         (success res = false ->
          steps res = Z.max 0 maxSteps /\ Forall (fun p => p <> goalPos) tail))
    (~ rows_ok a maze).
Proof.
  rewrite runEpisode_initial.
  pose proof (episode_loop_spec maze goalPos (Z.to_nat maxSteps) (initial a rnd startPos))
    as H.
  destruct (episode_loop _ _ _ _) as [[[res a'] rnd']| |]; simpl in *; auto.
  destruct H as (s' & Hep & Hres & Ha & Hr).
  destruct (episode_path _ _ _ _ _ _ Hep) as (tail & Hp & Hs & Hl & Ht & Hf).
  simpl in Hp, Hs, Hl. rewrite pos_eta in Hl.
  exists s', tail. repeat split; auto.
  - rewrite Hres. exact Hp.
  - rewrite Hres. simpl. rewrite Hs. reflexivity.
  - rewrite Hres. simpl. exact Hl.
  - rewrite Hres. simpl. rewrite Hs. destruct (Hf H) as [Hlen _]. lia.
  - apply Hf, H.
Qed.

(** C10. From a start position that is in bounds and OPEN, every position
    of the returned path, and the returned final position, is in bounds and
    OPEN, for every step budget. *)
Theorem runEpisode_stays_open (a : agent) (rnd : rng) (maze : jsarray (jsarray Z))
    (startPos goalPos : Position) (maxSteps : Z) :
  open_cell a maze startPos ->
  run_post (runEpisode a rnd maze startPos goalPos maxSteps)
    (fun out =>
       Forall (open_cell a maze) (path (fst (fst out))) /\
       open_cell a maze (finalPosition (fst (fst out))))
    (~ rows_ok a maze).
Proof.
  intros Hstart. rewrite runEpisode_initial.
  pose proof (episode_loop_spec maze goalPos (Z.to_nat maxSteps) (initial a rnd startPos))
    as H.
  destruct (episode_loop _ _ _ _) as [[[res a'] rnd']| |]; simpl in *; auto.
  destruct H as (s' & Hep & Hres & _).
  assert (Hcur : open_cell a maze (mkPos (ep_x (initial a rnd startPos))
                                         (ep_y (initial a rnd startPos))))
    by (unfold initial; cbn [ep_x ep_y]; rewrite pos_eta; exact Hstart).
  assert (Hp : Forall (open_cell a maze) (ep_path (initial a rnd startPos)))
    by (unfold initial; cbn [ep_path]; constructor; [exact Hstart | constructor]).
  destruct (episode_open _ _ _ _ _ _ a Hep eq_refl Hcur Hp) as [Hfin Hpath].
  rewrite Hres. simpl. auto.
Qed.

Lemma episode_step_invalid maze goalPos s action a1 rnd1 :
  chooseAction (ep_agent s) (ep_rng s) (ep_x s) (ep_y s) = Ret (action, a1, rnd1) ->
  isValidMove a1 (pos_x (getNextPosition (ep_x s) (ep_y s) action))
              (pos_y (getNextPosition (ep_x s) (ep_y s) action)) maze = Ret false ->
  exists a2,
    updateQValue a1 (getStateKey (ep_x s) (ep_y s)) action (of_Z (-10))
                 (getStateKey (ep_x s) (ep_y s)) = Ret a2 /\
    episode_step maze goalPos s =
    Ret (mkEpisode a2 rnd1 (ep_x s) (ep_y s) (ep_steps s + 1)
                   (ep_totalReward s + -10)
                   (ep_path s ++ [mkPos (ep_x s) (ep_y s)])).
Proof.
  intros Hc Hv.
  destruct (updateQValue_returns a1 (getStateKey (ep_x s) (ep_y s)) action (of_Z (-10))
              (getStateKey (ep_x s) (ep_y s))) as [a2 Hup].
  exists a2. split; [exact Hup|].
  unfold episode_step, calculateReward. rewrite Hc. cbn [bind].
  rewrite Hv. cbn [bind negb]. rewrite Hup. reflexivity.
Qed.

Lemma not_open_invalid a maze x y :
  rows_ok a maze -> ~ open_cell a maze (mkPos x y) ->
  isValidMove a x y maze = Ret false.
Proof.
  intros Hrows Hno.
  destruct (isValidMove_cases a x y maze) as [[_ Ho]|[[Hv _]|(e & _ & Hr)]];
    [contradiction | exact Hv | contradiction].
Qed.

Lemma open_valid a maze x y :
  open_cell a maze (mkPos x y) -> isValidMove a x y maze = Ret true.
Proof.
  intros (Hx & Hy & Hget). simpl in *. unfold isValidMove.
  replace ((x >=? 0) && (x <? mazeSize a) && (y >=? 0) && (y <? mazeSize a))
    with true by lia.
  rewrite Hget. reflexivity.
Qed.

(** C3. The reward of an attempted move is -10 when the candidate is not an
    OPEN cell inside the bounds, else +100 when the candidate is the goal,
    else -1.  On an invalid candidate the iteration leaves the position
    where it was, appends it again, and updates the Q-value from the state
    to itself.  An episode of one step whose first move is invalid returns
    a total reward of -10 and ends on the start position. *)
Theorem reward_accounting (a : agent) (maze : jsarray (jsarray Z))
    (goalPos : Position) :
  (forall x y newX newY,
      (rows_ok a maze -> ~ open_cell a maze (mkPos newX newY) ->
       calculateReward a x y newX newY maze (pos_x goalPos) (pos_y goalPos)
       = Ret (-10)) /\
      (open_cell a maze (mkPos newX newY) -> mkPos newX newY = goalPos ->
       calculateReward a x y newX newY maze (pos_x goalPos) (pos_y goalPos)
       = Ret 100) /\
      (open_cell a maze (mkPos newX newY) -> mkPos newX newY <> goalPos ->
       calculateReward a x y newX newY maze (pos_x goalPos) (pos_y goalPos)
       = Ret (-1))) /\
  (forall rnd x y steps0 total0 path0 action a1 rnd1 s',
      let s := mkEpisode a rnd x y steps0 total0 path0 in
      let candidate := getNextPosition x y action in
      chooseAction a rnd x y = Ret (action, a1, rnd1) ->
      ~ open_cell a maze candidate ->
      episode_step maze goalPos s = Ret s' ->
      ep_x s' = x /\ ep_y s' = y /\
      ep_totalReward s' = total0 + -10 /\
      ep_path s' = path0 ++ [mkPos x y] /\
      updateQValue a1 (getStateKey x y) action (of_Z (-10)) (getStateKey x y)
      = Ret (ep_agent s')) /\
  (forall rnd startPos action a1 rnd1,
      let candidate := getNextPosition (pos_x startPos) (pos_y startPos) action in
      rows_ok a maze ->
      chooseAction a rnd (pos_x startPos) (pos_y startPos) = Ret (action, a1, rnd1) ->
      ~ open_cell a maze candidate ->
      exists res a',
        runEpisode a rnd maze startPos goalPos 1 = Ret (res, a', rnd1) /\
        totalReward res = -10 /\
        finalPosition res = startPos /\
        path res = [startPos; startPos] /\
        steps res = 1 /\
        updateQValue a1 (getStateKey (pos_x startPos) (pos_y startPos)) action
                     (of_Z (-10)) (getStateKey (pos_x startPos) (pos_y startPos))
        = Ret a').
Proof.
  split; [|split].
  - intros x y newX newY. unfold calculateReward.
    split; [|split].
    + intros Hrows Hno. rewrite (not_open_invalid _ _ _ _ Hrows Hno). reflexivity.
    + intros Ho Hg. rewrite (open_valid _ _ _ _ Ho). cbn [bind negb].
      rewrite <- Hg. simpl. rewrite !Z.eqb_refl. reflexivity.
    + intros Ho Hg. rewrite (open_valid _ _ _ _ Ho). cbn [bind negb].
      destruct ((newX =? pos_x goalPos) && (newY =? pos_y goalPos)) eqn:E; auto.
      exfalso. apply Hg. apply andb_true_iff in E. destruct E as [E1 E2].
      apply Z.eqb_eq in E1, E2. destruct goalPos. simpl in *. congruence.
  - intros rnd x y steps0 total0 path0 action a1 rnd1 s' s candidate Hc Hno Hstep.
    assert (Hm : mazeSize a1 = mazeSize a).
    { destruct (chooseAction_returns a rnd x y) as (act0 & E & _).
      rewrite E in Hc. injection Hc as _ <- _. apply init_fields. }
    assert (Hv : isValidMove a1 (pos_x candidate) (pos_y candidate) maze = Ret false).
    { destruct (isValidMove_cases a1 (pos_x candidate) (pos_y candidate) maze)
        as [[_ Ho]|[[Hv _]|(e & He & _)]]; auto.
      - exfalso. apply Hno. apply (open_cell_agent _ _ _ _ Hm) in Ho.
        rewrite pos_eta in Ho. exact Ho.
      - exfalso. unfold episode_step, calculateReward in Hstep. subst s.
        cbn [ep_agent ep_rng ep_x ep_y] in Hstep. rewrite Hc in Hstep.
        cbn [bind] in Hstep. fold candidate in Hstep. rewrite He in Hstep.
        discriminate. }
    destruct (episode_step_invalid maze goalPos s action a1 rnd1 Hc Hv) as (a2 & Hup & E).
    rewrite E in Hstep. injection Hstep as <-. simpl. auto.
  - intros rnd startPos action a1 rnd1 candidate Hrows Hc Hno.
    assert (Hm : mazeSize a1 = mazeSize a).
    { destruct (chooseAction_returns a rnd (pos_x startPos) (pos_y startPos))
        as (act0 & E & _).
      rewrite E in Hc. injection Hc as _ <- _. apply init_fields. }
    assert (Hv : isValidMove a1 (pos_x candidate) (pos_y candidate) maze = Ret false).
    { apply not_open_invalid.
      - apply (rows_ok_agent _ _ _ Hm). exact Hrows.
      - rewrite pos_eta. intros Ho. apply Hno.
        apply (open_cell_agent _ _ _ _ Hm). exact Ho. }
    destruct (episode_step_invalid maze goalPos (initial a rnd startPos) action a1 rnd1
                Hc Hv) as (a2 & Hup & E).
    rewrite runEpisode_initial. change (Z.to_nat 1) with 1%nat.
    cbn [episode_loop]. rewrite E. cbn [bind ep_x ep_y initial].
    exists (result_of ((pos_x startPos =? pos_x goalPos) && (pos_y startPos =? pos_y goalPos))
              (mkEpisode a2 rnd1 (pos_x startPos) (pos_y startPos) (0 + 1) (0 + -10)
                         ([startPos] ++ [mkPos (pos_x startPos) (pos_y startPos)]))),
           a2.
    repeat split.
    + destruct ((pos_x startPos =? pos_x goalPos) && (pos_y startPos =? pos_y goalPos));
        reflexivity.
    + simpl. apply pos_eta.
    + simpl. rewrite pos_eta. reflexivity.
    + exact Hup.
Qed.

(** ** Reachable agents *)

Lemma reachable_inv a : reachable a -> inv a.
Proof.
  induction 1 as [n lr df er a Hnew
                 | a rnd x y act a' rnd' _ IH Hc
                 | a state act reward nextState a' _ IH Hact Hup
                 | a rnd maze startPos goalPos maxSteps res a' rnd' _ IH Hrnd Hrun
                 | a lr df er _ IH
                 | a _ IH].
  - injection Hnew as <-. split; [reflexivity | constructor].
  - eapply inv_choose; eauto.
  - eapply inv_update; eauto.
  - rewrite runEpisode_initial in Hrun.
    pose proof (episode_loop_spec maze goalPos (Z.to_nat maxSteps)
                  (initial a rnd startPos)) as Hspec.
    rewrite Hrun in Hspec. simpl in Hspec.
    destruct Hspec as (s' & Hep & _ & -> & _).
    eapply episode_inv; eauto.
  - destruct IH as [Ha Ht]. split; auto.
  - destruct IH as [Ha Ht]. split; [exact Ha | constructor].
Qed.

Lemma total_complete t : forall acc,
  table_complete t ->
  fold_left (fun total (kv : string * QTableEntry) =>
               total + Z.of_nat (List.length (snd kv))) t acc
  = acc + 4 * Z.of_nat (List.length t).
Proof.
  induction t as [|kv t IH]; intros acc Ht; simpl fold_left.
  - simpl. lia.
  - inversion Ht as [|? ? Hkv Ht']; subst. rewrite (IH _ Ht').
    unfold complete in Hkv. rewrite <- (length_map fst), Hkv.
    simpl List.length. lia.
Qed.

(** C7. For every agent built by the constructor followed by any sequence
    of [chooseAction], [updateQValue] (with one of the agent's actions),
    [runEpisode], [updateParameters] and [reset]: every entry of the table
    has exactly the keys up, right, down, left; an entry is created with
    these four at 0; and [getTotalQValues] is four times
    [getStatesExplored]. *)
Theorem table_invariant (a : agent) :
  reachable a ->
  (forall k e, getQValues a k = Some e -> map fst e = four_actions) /\
  (forall k, getQValues a k = None ->
             getQValues (initializeQValues a k) k =
             Some [("up"%string, of_Z 0); ("right"%string, of_Z 0);
                   ("down"%string, of_Z 0); ("left"%string, of_Z 0)]) /\
  getTotalQValues a = 4 * getStatesExplored a.
Proof.
  intros Hr. destruct (reachable_inv a Hr) as [Ha Ht]. repeat split.
  - intros k e Hk. eapply table_complete_get; eauto.
  - intros k Hk. rewrite init_get, Hk, String.eqb_refl, Ha. reflexivity.
  - unfold getTotalQValues, getStatesExplored. rewrite total_complete by exact Ht.
    lia.
Qed.

(** ** Finite rates keep the table finite *)

Lemma table_finite_set t k e :
  table_finite t -> Forall (fun av => is_fin (snd av)) e -> table_finite (map_set t k e).
Proof.
  unfold table_finite. rewrite !Forall_forall. intros Ht He kv Hin.
  destruct (map_set_In _ _ _ _ Hin) as [->|Hold]; auto.
  simpl. rewrite Forall_forall. exact He.
Qed.

Lemma table_finite_get t k e :
  table_finite t -> map_get t k = Some e -> Forall (fun av => is_fin (snd av)) e.
Proof.
  unfold table_finite. rewrite Forall_forall. intros Ht Hg.
  apply (Ht (k, e)). apply map_get_In, Hg.
Qed.

Lemma entry_finite_set (e : QTableEntry) act v :
  Forall (fun av => is_fin (snd av)) e -> is_fin v ->
  Forall (fun av => is_fin (snd av)) (map_set e act v).
Proof.
  rewrite !Forall_forall. intros He Hv av Hin.
  destruct (map_set_In _ _ _ _ Hin) as [->|Hold]; auto.
Qed.

Lemma entry_get_finite (e : QTableEntry) act :
  complete e -> Forall (fun av => is_fin (snd av)) e -> In act four_actions ->
  is_fin (entry_get e act).
Proof.
  intros Hc He Hact. pose proof (complete_has e act Hc Hact) as Hh.
  unfold map_has in Hh. unfold entry_get.
  destruct (map_get e act) as [v|] eqn:Hg; [|discriminate].
  rewrite Forall_forall in He. apply (He (act, v)). apply map_get_In, Hg.
Qed.

Lemma nmax2_finite a b : is_fin a \/ a = NInf -> is_fin b -> is_fin (nmax2 a b).
Proof.
  intros [[p ->]| ->] [q ->]; simpl.
  - destruct (Qltb p q); eexists; reflexivity.
  - eexists. reflexivity.
Qed.

Lemma Math_max_finite (l : list num) :
  l <> [] -> Forall is_fin l -> is_fin (Math_max l).
Proof.
  unfold Math_max. intros Hne Hl.
  assert (G : forall l acc, Forall is_fin l -> is_fin acc ->
                            is_fin (fold_left nmax2 l acc)).
  { clear. induction l as [|v l IH]; intros acc Hl Hacc; simpl; auto.
    inversion Hl; subst. apply IH; auto. apply nmax2_finite; auto. }
  destruct l as [|v l]; [congruence|]. inversion Hl; subst. cbn [fold_left].
  apply G; auto. apply nmax2_finite; auto.
Qed.

Lemma inv_fin_init a k : inv_fin a -> inv_fin (initializeQValues a k).
Proof.
  intros (Hinv & Hlr & Hdf & Ht).
  destruct (init_fields a k) as (E1 & E2 & _).
  split; [apply inv_init, Hinv|]. rewrite E1, E2. split; [exact Hlr|].
  split; [exact Hdf|].
  unfold initializeQValues. destruct (negb _); simpl; auto.
  apply table_finite_set; auto. destruct Hinv as [-> _].
  repeat constructor; simpl; eexists; reflexivity.
Qed.

Lemma inv_fin_update a state act reward nextState a' :
  inv_fin a -> In act (actions a) -> is_fin reward ->
  updateQValue a state act reward nextState = Ret a' -> inv_fin a'.
Proof.
  intros Hinv Hact [r ->] Hup.
  pose proof (inv_update a state act (Fin r) nextState a' (proj1 Hinv) Hact Hup) as Hi'.
  destruct (updateQValue_eq a state act (Fin r) nextState) as (qS & HS & E).
  rewrite E in Hup. injection Hup as <-.
  pose proof (inv_fin_init _ nextState (inv_fin_init _ state Hinv))
    as ([Ha0 Hc0] & Hlr0 & Hdf0 & Ht0).
  set (a0 := initializeQValues (initializeQValues a state) nextState) in *.
  destruct Hinv as ([Ha _] & [lr Hlr] & [df Hdf] & _).
  split; [exact Hi'|]. simpl. split; [exact Hlr0|]. split; [exact Hdf0|].
  apply table_finite_set; auto.
  assert (HqS : Forall (fun av => is_fin (snd av)) qS)
    by (eapply table_finite_get; eauto).
  apply entry_finite_set; auto.
  assert (Hcur : is_fin (q_num a0 state act)).
  { unfold q_num. rewrite HS. apply entry_get_finite; auto.
    - eapply table_complete_get; eauto.
    - rewrite <- Ha. exact Hact. }
  assert (Hmax : is_fin (q_max a0 nextState)).
  { destruct (init_get_self (initializeQValues a state) nextState) as [qN HN].
    fold a0 in HN. unfold q_max. rewrite HN.
    assert (HcN : complete qN) by (eapply table_complete_get; eauto).
    apply Math_max_finite.
    - intros Hnil. apply (f_equal (@List.length num)) in Hnil.
      rewrite length_map, <- (length_map fst), HcN in Hnil. discriminate.
    - rewrite Forall_map. eapply table_finite_get; eauto. }
  destruct Hcur as [c ->]. destruct Hmax as [mx ->]. rewrite Hlr, Hdf.
  simpl. eexists. reflexivity.
Qed.

Lemma iteration_inv_fin maze goalPos s s' :
  iteration maze goalPos s s' ->
  inv_fin (ep_agent s) -> random_ok (ep_rng s) ->
  inv_fin (ep_agent s') /\ random_ok (ep_rng s').
Proof.
  intros H Hinv Hrnd.
  pose proof (iteration_inv_agent _ _ _ _ H (proj1 Hinv) Hrnd) as [_ Hrnd'].
  split; [|exact Hrnd'].
  destruct H as [s action a1 rnd1 reward valid a2 x y Hc cand Hr Hv next Hup].
  simpl.
  destruct (chooseAction_returns (ep_agent s) (ep_rng s) x y) as (act0 & E & Hact).
  fold x y in E. rewrite E in Hc. injection Hc as <- <- <-.
  eapply inv_fin_update; [| | |exact Hup].
  - apply inv_fin_init, Hinv.
  - destruct (init_fields (ep_agent s) (getStateKey x y)) as (_ & _ & _ & _ & ->).
    apply Hact; [apply Hinv | exact Hrnd].
  - eexists. reflexivity.
Qed.

Lemma episode_inv_fin maze goalPos n s ok s' :
  episode maze goalPos n s ok s' ->
  inv_fin (ep_agent s) -> random_ok (ep_rng s) -> inv_fin (ep_agent s').
Proof.
  induction 1 as [s | n s s' Hit Hg | n s s' ok s'' Hit Hg Hep IH];
    intros Hinv Hrnd; auto.
  - eapply iteration_inv_fin; eauto.
  - destruct (iteration_inv_fin _ _ _ _ Hit Hinv Hrnd). auto.
Qed.

Lemma trained_inv_fin a : trained a -> inv_fin a.
Proof.
  induction 1 as [n lr df er a Hnew
                 | a rnd x y act a' rnd' _ IH Hc
                 | a state act reward nextState a' _ IH Hact Hup
                 | a rnd maze startPos goalPos maxSteps res a' rnd' _ IH Hrnd Hrun
                 | a lr df er _ IH
                 | a _ IH].
  - injection Hnew as <-. split; [split; [reflexivity | constructor]|].
    simpl. split; [eexists; reflexivity|]. split; [eexists; reflexivity | constructor].
  - destruct (chooseAction_returns a rnd x y) as (act0 & E & _).
    rewrite E in Hc. injection Hc as _ <- _. apply inv_fin_init, IH.
  - eapply inv_fin_update; eauto. eexists. reflexivity.
  - rewrite runEpisode_initial in Hrun.
    pose proof (episode_loop_spec maze goalPos (Z.to_nat maxSteps)
                  (initial a rnd startPos)) as Hspec.
    rewrite Hrun in Hspec. simpl in Hspec.
    destruct Hspec as (s' & Hep & _ & -> & _).
    eapply episode_inv_fin; eauto.
  - destruct IH as ([Ha Ht] & Hlr & Hdf & Hf).
    split; [split; assumption|]. simpl.
    split; [destruct lr; simpl; [eexists; reflexivity | exact Hlr]|].
    split; [destruct df; simpl; [eexists; reflexivity | exact Hdf]|]. exact Hf.
  - destruct IH as ([Ha Ht] & Hlr & Hdf & Hf).
    split; [split; [exact Ha | constructor]|]. simpl. repeat split; auto. constructor.
Qed.

(** An agent trained with finite rates stores no NaN: the greedy choice of
    [chooseAction] is then over four comparable values. *)
Lemma trained_no_nan a key b :
  trained a -> In b four_actions ->
  q_num (initializeQValues a key) key b <> NaN.
Proof.
  intros Ht Hb.
  pose proof (inv_fin_init a key (trained_inv_fin a Ht)) as ([_ Hc] & _ & _ & Hf).
  destruct (init_get_self a key) as [e He]. unfold q_num. rewrite He.
  unfold getQValues in He.
  destruct (entry_get_finite e b) as [q Hq]; auto.
  - eapply table_complete_get; eauto.
  - eapply table_finite_get; eauto.
  - rewrite Hq. discriminate.
Qed.

(** ** The order on numbers *)

Lemma Qltb_true a b : Qltb a b = true <-> (a < b)%Q.
Proof.
  unfold Qltb. rewrite Qlt_alt. destruct (a ?= b)%Q; split; congruence.
Qed.

Lemma Qltb_false a b : Qltb a b = false <-> (b <= a)%Q.
Proof.
  split.
  - intros H. apply Qnot_lt_le. intros Hlt. apply Qltb_true in Hlt. congruence.
  - intros H. destruct (Qltb a b) eqn:E; auto.
    apply Qltb_true in E. exfalso. eapply Qlt_not_le; eauto.
Qed.

Lemma ngt_asym a b : ngt a b = true -> ngt b a = false.
Proof.
  destruct a, b; simpl; try congruence.
  rewrite Qltb_true, Qltb_false. apply Qlt_le_weak.
Qed.

Lemma ngt_le_trans a b c :
  b <> NaN -> ngt a b = false -> ngt b c = false -> ngt a c = false.
Proof.
  destruct a, b, c; simpl; try congruence.
  rewrite !Qltb_false. intros _ H1 H2. eapply Qle_trans; eauto.
Qed.

Lemma ngt_trans a b c : ngt a b = true -> ngt b c = true -> ngt a c = true.
Proof.
  destruct a, b, c; simpl; try congruence.
  rewrite !Qltb_true. intros H1 H2. eapply Qlt_trans; eauto.
Qed.

Lemma ngt_gt_le a b c :
  c <> NaN -> ngt a b = true -> ngt c b = false -> ngt a c = true.
Proof.
  destruct a, b, c; simpl; try congruence.
  rewrite !Qltb_true, Qltb_false. intros _ H1 H2. eapply Qle_lt_trans; eauto.
Qed.

(** ** The exploitation loop *)

Section Greedy.

Variable f : string -> num.

Let step (best : string * num) (action : string) : string * num :=
  if ngt (f action) (snd best) then (action, f action) else best.

Lemma fold_best_spec (l : list string) : forall b,
  f b <> NaN -> (forall c, In c l -> f c <> NaN) ->
  let r := fold_left step l (b, f b) in
  snd r = f (fst r) /\
  ngt (f b) (snd r) = false /\
  (forall c, In c l -> ngt (f c) (snd r) = false) /\
  (r = (b, f b) \/
   exists l1 l2, l = l1 ++ fst r :: l2 /\
                 ngt (snd r) (f b) = true /\
                 forall c, In c l1 -> ngt (snd r) (f c) = true).
Proof.
  induction l as [|c l IH]; intros b Hb Hl; cbv zeta; simpl fold_left.
  - simpl. repeat split; auto.
    + destruct (f b); simpl; auto. apply Qltb_false, Qle_refl.
    + intros c [].
  - assert (Hc : f c <> NaN) by (apply Hl; now left).
    assert (Hl' : forall c', In c' l -> f c' <> NaN) by (intros; apply Hl; now right).
    assert (Hstep : step (b, f b) c
                    = if ngt (f c) (f b) then (c, f c) else (b, f b)) by reflexivity.
    rewrite Hstep. clear Hstep.
    destruct (ngt (f c) (f b)) eqn:E.
    + destruct (IH c Hc Hl') as (H1 & H2 & H3 & H4).
      set (r := fold_left step l (c, f c)) in *.
      repeat split; auto.
      * eapply ngt_le_trans; [exact Hc | apply ngt_asym, E | exact H2].
      * intros c' [<-|Hin]; auto.
      * right. destruct H4 as [Hr | (l1 & l2 & Hl12 & Hg & Hall)].
        -- exists [], l. rewrite Hr. simpl. repeat split; auto.
        -- exists (c :: l1), l2. rewrite Hl12. repeat split; auto.
           ++ eapply ngt_trans; eauto.
           ++ intros c' [<-|Hin]; auto.
    + destruct (IH b Hb Hl') as (H1 & H2 & H3 & H4).
      set (r := fold_left step l (b, f b)) in *.
      repeat split; auto.
      * intros c' [<-|Hin]; auto.
        eapply ngt_le_trans; [exact Hb | exact E | exact H2].
      * destruct H4 as [Hr | (l1 & l2 & Hl12 & Hg & Hall)]; [left; exact Hr|].
        right. exists (c :: l1), l2. rewrite Hl12. repeat split; auto.
        intros c' [<-|Hin]; auto.
        eapply ngt_gt_le; eauto.
Qed.

End Greedy.

Lemma exploit_when_zero (a : agent) (rnd : rng) :
  explorationRate a = of_Z 0 -> random_ok rnd ->
  nlt (Fin (fst (draw rnd))) (explorationRate a) = false.
Proof.
  intros -> Hr. unfold nlt, of_Z. simpl. apply Qltb_false. apply (Hr O).
Qed.

(** C8. In the exploitation branch of [chooseAction] (the branch taken
    whenever [explorationRate] is 0), with no NaN stored for the state (as
    for every agent trained with finite rates, see [trained_no_nan]), the
    returned action carries a maximal stored value of the state and is the
    first such action in the order up, right, down, left: no action has a
    greater value and every earlier action has a strictly smaller one.  It
    is [best_action] of the state's entry, a function of the table and the
    position alone. *)
Theorem chooseAction_greedy (a : agent) (rnd : rng) (x y : Z) :
  let key := getStateKey x y in
  let a0 := initializeQValues a key in
  actions a = four_actions ->
  (forall b, In b four_actions -> q_num a0 key b <> NaN) ->
  (explorationRate a = of_Z 0 -> random_ok rnd ->
   nlt (Fin (fst (draw rnd))) (explorationRate a) = false) /\
  (nlt (Fin (fst (draw rnd))) (explorationRate a) = false ->
   exists act i e,
     chooseAction a rnd x y = Ret (act, a0, snd (draw rnd)) /\
     getQValues a0 key = Some e /\
     act = best_action four_actions e /\
     nth_error four_actions i = Some act /\
     (forall b, In b four_actions ->
                ngt (q_num a0 key b) (q_num a0 key act) = false) /\
     (forall j b, (j < i)%nat -> nth_error four_actions j = Some b ->
                  ngt (q_num a0 key act) (q_num a0 key b) = true)).
Proof.
  intros key a0 Ha Hnan. split; [apply exploit_when_zero|].
  intros Hbranch.
  destruct (init_get_self a key) as [e He]. fold a0 in He.
  assert (Hq : forall b, q_num a0 key b = entry_get e b)
    by (intros b; unfold q_num; rewrite He; reflexivity).
  assert (Hf : forall b, In b four_actions -> entry_get e b <> NaN)
    by (intros b Hb; rewrite <- Hq; auto).
  assert (Hc : chooseAction a rnd x y
               = Ret (best_action four_actions e, a0, snd (draw rnd))).
  { unfold chooseAction. fold key. fold a0.
    destruct (init_fields a key) as (_ & _ & E3 & _ & E5). fold a0 in E3, E5.
    unfold draw in *. simpl fst in Hbranch. rewrite E3, Hbranch.
    unfold getQValues in He. rewrite He, E5, Ha. reflexivity. }
  pose proof (fold_best_spec (entry_get e) four_actions "up"%string
                (Hf _ (or_introl eq_refl)) Hf) as Hspec.
  cbv zeta in Hspec.
  change (fst (fold_left
                 (fun (best : string * num) (action : string) =>
                    if ngt (entry_get e action) (snd best)
                    then (action, entry_get e action) else best)
                 four_actions ("up"%string, entry_get e "up")))
    with (best_action four_actions e) in Hspec.
  destruct Hspec as (H1 & H2 & H3 & H4).
  set (act := best_action four_actions e) in *.
  assert (Hval : forall b, ngt (q_num a0 key b) (q_num a0 key act)
                           = ngt (entry_get e b) (snd (fold_left
                 (fun (best : string * num) (action : string) =>
                    if ngt (entry_get e action) (snd best)
                    then (action, entry_get e action) else best)
                 four_actions ("up"%string, entry_get e "up"))))
    by (intros b; rewrite !Hq, H1; reflexivity).
  destruct H4 as [Hr | (l1 & l2 & Hl & Hg & Hall)].
  - exists act, O, e. repeat split; auto.
    + unfold act, best_action. simpl action_at.
      change (action_at four_actions 0) with "up"%string. rewrite Hr. reflexivity.
    + intros b Hb. rewrite Hval. auto.
    + intros j b Hj. lia.
  - exists act, (List.length l1), e. repeat split; auto.
    + rewrite Hl. rewrite nth_error_app2 by lia. rewrite Nat.sub_diag. reflexivity.
    + intros b Hb. rewrite Hval. auto.
    + intros j b Hj Hnth. rewrite Hl in Hnth. rewrite nth_error_app1 in Hnth by exact Hj.
      apply nth_error_In in Hnth. rewrite !Hq. rewrite <- H1. auto.
Qed.

End AgentFacts.

(* ================================================================== *)
(** * The agent on concrete inputs *)
(* ================================================================== *)

Module AgentExamples.

Import QLearningAgent AgentSpec JsFacts AgentFacts Examples.

Lemma half_ok : random_ok half.
Proof. intros n. unfold half. split; [discriminate | reflexivity]. Defined.

Lemma bumped_reachable : reachable bumped.
Proof.
  apply (reach_update (greedy 2) "0,0" "up" (of_Z (-10)) "0,0" bumped).
  - apply (reach_new 2 (Fin (1 # 10)) (Fin (9 # 10)) (of_Z 0)). reflexivity.
  - simpl. auto.
  - vm_compute. reflexivity.
Defined.

(** C9, on the code: four steps of a greedy agent enclosed at (0,0) leave a
    table with the single state 0,0 whose four values are all negative, and
    [getMaxQValue] answers 0, a value that is not stored. *)
Theorem getMaxQValue_all_negative :
  run_post (runEpisode (greedy 2) half boxed (mkPos 0 0) (mkPos 1 1) 4)
    (fun out =>
       let a' := snd (fst out) in
       map fst (qTable a') = ["0,0"%string] /\
       Forall (fun kv => Forall (fun av => ngt (of_Z 0) (snd av) = true) (snd kv))
              (qTable a') /\
       getMaxQValue a' = of_Z 0)
    False.
Proof.
  vm_compute. repeat split. repeat constructor.
Qed.

Lemma table_invariant_witness :
  reachable bumped /\
  ((forall k e, getQValues bumped k = Some e -> map fst e = four_actions) /\
   (forall k, getQValues bumped k = None ->
              getQValues (initializeQValues bumped k) k =
              Some [("up"%string, of_Z 0); ("right"%string, of_Z 0);
                    ("down"%string, of_Z 0); ("left"%string, of_Z 0)]) /\
   getTotalQValues bumped = 4 * getStatesExplored bumped).
Proof.
  split; [exact bumped_reachable | exact (table_invariant bumped bumped_reachable)].
Defined.

Lemma chooseAction_greedy_witness :
  exists act i e,
    chooseAction bumped half 0 0
    = Ret (act, initializeQValues bumped (getStateKey 0 0), snd (draw half)) /\
    getQValues (initializeQValues bumped (getStateKey 0 0)) (getStateKey 0 0) = Some e /\
    act = best_action four_actions e /\
    nth_error four_actions i = Some act /\
    (forall b, In b four_actions ->
               ngt (q_num (initializeQValues bumped (getStateKey 0 0)) (getStateKey 0 0) b)
                   (q_num (initializeQValues bumped (getStateKey 0 0)) (getStateKey 0 0) act)
               = false) /\
    (forall j b, (j < i)%nat -> nth_error four_actions j = Some b ->
                 ngt (q_num (initializeQValues bumped (getStateKey 0 0)) (getStateKey 0 0) act)
                     (q_num (initializeQValues bumped (getStateKey 0 0)) (getStateKey 0 0) b)
                 = true).
Proof.
  apply (chooseAction_greedy bumped half 0 0).
  - reflexivity.
  - intros b [<-|[<-|[<-|[<-|[]]]]]; vm_compute; discriminate.
  - reflexivity.
Defined.

Lemma runEpisode_stays_open_witness :
  open_cell (greedy 3) open3 (mkPos 0 0) /\
  run_post (runEpisode (greedy 3) half open3 (mkPos 0 0) (mkPos 2 2) 50)
    (fun out =>
       Forall (open_cell (greedy 3) open3) (path (fst (fst out))) /\
       open_cell (greedy 3) open3 (finalPosition (fst (fst out))))
    (~ rows_ok (greedy 3) open3).
Proof.
  assert (H : open_cell (greedy 3) open3 (mkPos 0 0)).
  { unfold open_cell. simpl. repeat split; try lia. }
  split; [exact H|].
  apply (runEpisode_stays_open (greedy 3) half open3 (mkPos 0 0) (mkPos 2 2) 50 H).
Defined.

Lemma reward_accounting_witness :
  exists res a',
    runEpisode (greedy 2) half boxed (mkPos 0 0) (mkPos 1 1) 1
    = Ret (res, a', snd (draw half)) /\
    totalReward res = -10 /\
    finalPosition res = mkPos 0 0 /\
    path res = [mkPos 0 0; mkPos 0 0] /\
    steps res = 1 /\
    updateQValue (initializeQValues (greedy 2) (getStateKey 0 0)) (getStateKey 0 0)
                 "up" (of_Z (-10)) (getStateKey 0 0)
    = Ret a'.
Proof.
  apply (proj2 (proj2 (reward_accounting (greedy 2) boxed (mkPos 1 1)))
           half (mkPos 0 0) "up"%string
           (initializeQValues (greedy 2) (getStateKey 0 0)) (snd (draw half))).
  - intros y Hy. simpl in Hy.
    assert (Hc : y = 0 \/ y = 1) by lia.
    destruct Hc as [-> | ->]; discriminate.
  - vm_compute. reflexivity.
  - unfold open_cell. simpl. lia.
Defined.

End AgentExamples.

(* ================================================================== *)
(** * Arrays without holes *)
(* ================================================================== *)

Module ArrayFacts.

Lemma list_update_length {A} (l : list A) n v :
  List.length (list_update l n v) = List.length l.
Proof.
  revert n. induction l as [|h t IH]; intros [|n]; simpl; auto.
Qed.

Lemma list_update_nth {A} (l : list A) n v k :
  (n < List.length l)%nat ->
  nth_error (list_update l n v) k = if Nat.eqb k n then Some v else nth_error l k.
Proof.
  revert n k. induction l as [|h t IH]; intros n k Hn; simpl in Hn; [lia|].
  destruct n as [|n], k as [|k]; simpl; auto.
  apply IH. lia.
Qed.

Lemma aset_length {A} (a : jsarray A) i v :
  0 <= i < Z.of_nat (List.length a) -> List.length (aset a i v) = List.length a.
Proof.
  intros Hi. unfold aset.
  destruct (i <? 0) eqn:E0; [lia|].
  destruct (i <? Z.of_nat (List.length a)) eqn:E1; [|lia].
  apply list_update_length.
Qed.

Lemma aget_aset {A} (a : jsarray A) i v j :
  0 <= i < Z.of_nat (List.length a) ->
  aget (aset a i v) j = if j =? i then Some v else aget a j.
Proof.
  intros Hi. unfold aset, aget.
  destruct (i <? 0) eqn:E0; [lia|].
  destruct (i <? Z.of_nat (List.length a)) eqn:E1; [|lia].
  destruct (j <? 0) eqn:Ej.
  - destruct (j =? i) eqn:E; auto. lia.
  - rewrite list_update_nth by lia.
    destruct (j =? i) eqn:E.
    + replace (Nat.eqb (Z.to_nat j) (Z.to_nat i)) with true; auto.
      symmetry. apply Nat.eqb_eq. lia.
    + replace (Nat.eqb (Z.to_nat j) (Z.to_nat i)) with false; auto.
      symmetry. apply Nat.eqb_neq. lia.
Qed.

Lemma aset_full {A} n (a : jsarray A) i v :
  full n a -> 0 <= i < n -> full n (aset a i v).
Proof.
  intros [Hlen Hget] Hi. split.
  - rewrite aset_length by lia. exact Hlen.
  - intros j Hj. rewrite aget_aset by lia.
    destruct (j =? i); eauto.
Qed.

Lemma get2_full {A} n (m : jsarray (jsarray A)) y x :
  full2 n m -> 0 <= y < n -> 0 <= x < n -> exists v, get2 m y x = Ret (Some v).
Proof.
  intros [_ Hrows] Hy Hx. destruct (Hrows y Hy) as (row & Hrow & _ & Hcells).
  destruct (Hcells x Hx) as [v Hv]. exists v. unfold get2. rewrite Hrow, Hv.
  reflexivity.
Qed.

(** A write inside the matrix succeeds, keeps the shape and changes one cell. *)
Lemma set2_full {A} n (m : jsarray (jsarray A)) y x v :
  full2 n m -> 0 <= y < n -> 0 <= x < n ->
  exists m', set2 m y x v = Ret m' /\ full2 n m' /\
             forall y' x', get2 m' y' x' =
                           if (y' =? y) && (x' =? x) then Ret (Some v)
                           else get2 m y' x'.
Proof.
  intros [Hlen Hrows] Hy Hx.
  destruct (Hrows y Hy) as (row & Hrow & Hfull).
  unfold set2. rewrite Hrow. eexists. split; [reflexivity|]. split.
  - split.
    + rewrite aset_length by lia. exact Hlen.
    + intros y' Hy'. rewrite aget_aset by lia.
      destruct (y' =? y) eqn:E.
      * eexists. split; [reflexivity|]. apply aset_full; assumption.
      * apply Hrows, Hy'.
  - intros y' x'. unfold get2. rewrite aget_aset by lia.
    destruct (y' =? y) eqn:E; simpl.
    + apply Z.eqb_eq in E. subst y'. rewrite Hrow.
      destruct Hfull as [Hl _]. rewrite aget_aset by lia.
      destruct (x' =? x); reflexivity.
    + reflexivity.
Qed.

Lemma nth_error_repeat {A} (v : A) n k :
  (k < n)%nat -> nth_error (repeat v n) k = Some v.
Proof.
  revert k. induction n as [|n IH]; intros k Hk; [lia|].
  destruct k; simpl; auto. apply IH. lia.
Qed.

Lemma matrix_full {A} n (v : A) :
  0 <= n ->
  exists m, matrix n v = Ret m /\ full2 n m /\
            forall y x, 0 <= y < n -> 0 <= x < n -> get2 m y x = Ret (Some v).
Proof.
  intros Hn. unfold matrix. destruct (n <? 0) eqn:E; [lia|].
  eexists. split; [reflexivity|].
  assert (Hrow : full n (repeat (Some v) (Z.to_nat n))).
  { split.
    - rewrite repeat_length. lia.
    - intros i Hi. exists v. unfold aget. destruct (i <? 0) eqn:E'; [lia|].
      rewrite nth_error_repeat by lia. reflexivity. }
  assert (Hget : forall y, 0 <= y < n ->
            aget (repeat (Some (repeat (Some v) (Z.to_nat n))) (Z.to_nat n)) y
            = Some (repeat (Some v) (Z.to_nat n))).
  { intros y Hy. unfold aget. destruct (y <? 0) eqn:E'; [lia|].
    rewrite nth_error_repeat by lia. reflexivity. }
  split.
  - split.
    + rewrite repeat_length. lia.
    + intros y Hy. eexists. split; [apply Hget, Hy | exact Hrow].
  - intros y x Hy Hx. unfold get2. rewrite Hget by exact Hy.
    unfold aget. destruct (x <? 0) eqn:E'; [lia|].
    rewrite nth_error_repeat by lia. reflexivity.
Qed.

(** ** Counting loops with an invariant indexed by the counter *)

Lemma for_loop_inv {St} (I : Z -> St -> Prop) (body : Z -> St -> outcome St) :
  forall n lo s,
    (forall i s, lo <= i < lo + Z.of_nat n -> I i s ->
                 exists s', body i s = Ret s' /\ I (i + 1) s') ->
    I lo s ->
    exists s', for_loop n lo body s = Ret s' /\ I (lo + Z.of_nat n) s'.
Proof.
  induction n as [|n IH]; intros lo s Hbody Hs.
  - exists s. simpl. replace (lo + 0) with lo by lia. auto.
  - destruct (Hbody lo s ltac:(lia) Hs) as (s1 & E1 & H1).
    destruct (IH (lo + 1) s1) as (s' & E' & H'); auto.
    + intros i s0 Hi. apply Hbody. lia.
    + exists s'. split.
      * simpl. rewrite E1. exact E'.
      * replace (lo + Z.of_nat (S n)) with (lo + 1 + Z.of_nat n) by lia. exact H'.
Qed.

Lemma for_range_inv {St} (I : Z -> St -> Prop) (body : Z -> St -> outcome St) lo hi s :
  (forall i s, lo <= i < hi -> I i s -> exists s', body i s = Ret s' /\ I (i + 1) s') ->
  I lo s ->
  exists s', for_range lo hi body s = Ret s' /\ I (Z.max lo hi) s'.
Proof.
  intros Hbody Hs. unfold for_range.
  destruct (for_loop_inv I body (Z.to_nat (hi - lo)) lo s) as (s' & E & H); auto.
  - intros i s0 Hi. apply Hbody. lia.
  - exists s'. split; auto.
    replace (Z.max lo hi) with (lo + Z.of_nat (Z.to_nat (hi - lo))) by lia. exact H.
Qed.

End ArrayFacts.

(* ================================================================== *)
(** * The maze generator: proofs *)
(* ================================================================== *)

Module MazeFacts.

Import MazeGenerator MazeSpec ArrayFacts JsFacts.

Lemma isValidPosition_true this x y :
  isValidPosition this x y = true <-> in_grid this x y.
Proof. unfold isValidPosition, in_grid. lia. Qed.

Lemma opens_refl m : opens m m.
Proof. intros x y H. exact H. Qed.

Lemma opens_trans m1 m2 m3 : opens m1 m2 -> opens m2 m3 -> opens m1 m3.
Proof. intros H1 H2 x y H. apply H2, H1, H. Qed.

(** Opening a cell inside the grid. *)
Lemma set2_open n (m : grid) y x :
  full2 n m -> 0 <= y < n -> 0 <= x < n ->
  exists m', set2 m y x 0 = Ret m' /\ full2 n m' /\ opens m m' /\ open_at m' x y.
Proof.
  intros Hf Hy Hx. destruct (set2_full n m y x 0 Hf Hy Hx) as (m' & E & Hf' & Hget).
  exists m'. repeat split; auto.
  - apply Hf'.
  - apply Hf'.
  - intros x' y' H. unfold open_at in *. rewrite Hget.
    destruct ((y' =? y) && (x' =? x)); auto.
  - unfold open_at. rewrite Hget, !Z.eqb_refl. reflexivity.
Qed.

Lemma count_fold this (m : grid) x y dirs :
  full2 (size this) m -> forall acc,
  exists k,
    fold_left
      (fun acc dir =>
         count <- acc ;;
         let newX := x + fst dir in
         let newY := y + snd dir in
         if isValidPosition this newX newY then
           c <- get2 m newY newX ;;
           Ret (if cell_is 0 c then count + 1 else count)
         else Ret count)
      dirs (Ret acc) = Ret k.
Proof.
  intros Hf. induction dirs as [|d dirs IH]; intros acc; simpl; eauto.
  destruct (isValidPosition this (x + fst d) (y + snd d)) eqn:E.
  - apply isValidPosition_true in E. destruct E as [Hx Hy].
    destruct (get2_full _ m _ _ Hf Hy Hx) as [v Hv]. rewrite Hv. simpl. apply IH.
  - apply IH.
Qed.

Lemma countAdjacentPaths_returns this (m : grid) x y :
  full2 (size this) m -> exists k, countAdjacentPaths this m x y = Ret k.
Proof. intros Hf. apply count_fold, Hf. Qed.

(** ** Wall-density relaxation *)

Lemma relax_cell_ok this y x s :
  1 <= y < size this - 1 -> 1 <= x < size this - 1 ->
  shaped this s -> exists s', relax_cell this y x s = Ret s' /\ shaped this s'.
Proof.
  intros Hy Hx [Hf Hr]. destruct s as [m rnd]. simpl in Hf, Hr. unfold relax_cell.
  destruct (get2_full _ m y x Hf ltac:(lia) ltac:(lia)) as [c Hc]. rewrite Hc. simpl.
  destruct (c =? 0); [eexists; split; [reflexivity | split; assumption]|].
  destruct (near _ _ _ || near _ _ _);
    [eexists; split; [reflexivity | split; assumption]|].
  destruct (countAdjacentPaths_returns this m x y Hf) as [k Hk]. rewrite Hk. simpl.
  assert (Hr' : random_ok (fun n => rnd (S n))) by (apply (random_ok_tail rnd Hr)).
  destruct (Qltb _ _ && (k <? 3)).
  - destruct (set2_full _ m y x 0 Hf ltac:(lia) ltac:(lia)) as (m' & E & Hf' & _).
    rewrite E. simpl. eexists. split; [reflexivity | split; assumption].
  - eexists. split; [reflexivity | split; assumption].
Qed.

Lemma applyWallDensityModification_ok this s :
  shaped this s ->
  exists s', applyWallDensityModification this s = Ret s' /\ shaped this s'.
Proof.
  intros Hs. unfold applyWallDensityModification.
  destruct (for_range_inv (fun _ => shaped this)
              (fun y => for_range 1 (size this - 1) (relax_cell this y))
              1 (size this - 1) s) as (s' & E & H'); eauto.
  intros y s0 Hy Hs0.
  destruct (for_range_inv (fun _ => shaped this) (relax_cell this y)
              1 (size this - 1) s0) as (s1 & E1 & H1); eauto.
  intros x s2 Hx Hs2. apply relax_cell_ok; assumption.
Qed.

(** ** Connectivity boost *)

Lemma numConnections_pos (n : Z) :
  0 < Qfloor (inject_Z n * (1 # 10)) -> 10 <= n.
Proof.
  intros H. pose proof (Qfloor_le (inject_Z n * (1 # 10))) as Hle.
  assert (H1 : (inject_Z 1 <= inject_Z n * (1 # 10))%Q).
  { eapply Qle_trans; [|exact Hle]. rewrite <- Zle_Qle. lia. }
  unfold Qle in H1. simpl in H1. lia.
Qed.

Lemma connect_once_ok this m0 i s :
  0 <= i < Qfloor (inject_Z (size this) * (1 # 10)) ->
  shaped this s /\ opens m0 (fst s) ->
  exists s', connect_once this i s = Ret s' /\ shaped this s' /\ opens m0 (fst s').
Proof.
  intros Hi [[Hf Hr] Ho]. destruct s as [m rnd]. simpl in Hf, Hr, Ho.
  assert (Hsize : 10 <= size this) by (apply numConnections_pos; lia).
  unfold connect_once, draw.
  destruct (Hr 0%nat) as [Ha0 Ha1]. destruct (Hr 1%nat) as [Hb0 Hb1].
  pose proof (floor_mul_range _ (size this - 2) Ha0 Ha1 ltac:(lia)) as Hx.
  pose proof (floor_mul_range _ (size this - 2) Hb0 Hb1 ltac:(lia)) as Hy.
  set (x := floor_mul (rnd 0%nat) (size this - 2) + 1) in *.
  set (y := floor_mul (rnd 1%nat) (size this - 2) + 1) in *.
  assert (Hr2 : random_ok (fun n => rnd (S (S n)))) by (intros n; apply Hr).
  destruct (get2_full _ m y x Hf ltac:(lia) ltac:(lia)) as [c Hc]. rewrite Hc. simpl.
  destruct (c =? 1);
    [|eexists; split; [reflexivity | split; [split|]; simpl; assumption]].
  destruct (countAdjacentPaths_returns this m x y Hf) as [k Hk]. rewrite Hk. simpl.
  destruct (k >=? 2);
    [|eexists; split; [reflexivity | split; [split|]; simpl; assumption]].
  destruct (set2_open _ m y x Hf ltac:(lia) ltac:(lia)) as (m' & E & Hf' & Ho' & _).
  rewrite E. simpl. eexists. split; [reflexivity|].
  split; [split|]; simpl; auto.
  eapply opens_trans; eauto.
Qed.

Lemma ensureConnectivity_ok this s :
  shaped this s ->
  exists s', ensureConnectivity this s = Ret s' /\ shaped this s' /\
             opens (fst s) (fst s').
Proof.
  intros Hs. unfold ensureConnectivity.
  destruct (for_range_inv (fun _ s' => shaped this s' /\ opens (fst s) (fst s'))
              (connect_once this) 0 (Qfloor (inject_Z (size this) * (1 # 10))) s)
    as (s' & E & H'); eauto.
  - intros i s0 Hi Hs0. apply connect_once_ok; assumption.
  - split; [exact Hs | apply opens_refl].
Qed.

(** ** The repair path *)

Lemma createPathToGoal_ok this m :
  standard this -> full2 (size this) m ->
  exists m', createPathToGoal this m = Ret m' /\ full2 (size this) m' /\
             opens m m' /\
             (forall x, 0 <= x < size this -> open_at m' x 0) /\
             (forall y, 0 <= y < size this -> open_at m' (size this - 1) y).
Proof.
  intros (Hs & Hg & Hn) Hf. unfold createPathToGoal. rewrite Hs, Hg. simpl.
  set (n := size this) in *.
  destruct (for_range_inv
              (fun i m' => i <= n - 1 /\ full2 n m' /\ opens m m' /\
                           forall x, 0 <= x < i -> open_at m' x 0)
              (fun x m => set2 m 0 x 0) 0 (n - 1) m) as (m1 & E1 & H1).
  { intros i m0 Hi (_ & Hf0 & Ho0 & Hrow).
    destruct (set2_open n m0 0 i Hf0 ltac:(lia) ltac:(lia)) as (m' & E & Hf' & Ho' & Hc).
    exists m'. repeat split; auto; try lia; try apply Hf'.
    - eapply opens_trans; eauto.
    - intros x Hx. destruct (Z.eq_dec x i) as [->|Hne]; auto.
      apply Ho', Hrow. lia. }
  { repeat split; auto; try lia; try apply Hf. apply opens_refl. }
  rewrite E1. simpl. replace (Z.max 0 (n - 1)) with (n - 1) in * by lia.
  destruct H1 as (_ & Hf1 & Ho1 & Hrow1).
  destruct (for_range_inv
              (fun i m' => i <= n - 1 /\ full2 n m' /\ opens m1 m' /\
                           forall y, 0 <= y < i -> open_at m' (n - 1) y)
              (fun y m => set2 m y (n - 1) 0) 0 (n - 1) m1) as (m2 & E2 & H2).
  { intros i m0 Hi (_ & Hf0 & Ho0 & Hcol).
    destruct (set2_open n m0 i (n - 1) Hf0 ltac:(lia) ltac:(lia))
      as (m' & E & Hf' & Ho' & Hc).
    exists m'. repeat split; auto; try lia; try apply Hf'.
    - eapply opens_trans; eauto.
    - intros y Hy. destruct (Z.eq_dec y i) as [->|Hne]; auto.
      apply Ho', Hcol. lia. }
  { repeat split; auto; try lia; try apply Hf1. apply opens_refl. }
  rewrite E2. simpl. replace (Z.max 0 (n - 1)) with (n - 1) in * by lia.
  destruct H2 as (_ & Hf2 & Ho2 & Hcol2).
  destruct (set2_open n m2 (n - 1) (n - 1) Hf2 ltac:(lia) ltac:(lia))
    as (m3 & E3 & Hf3 & Ho3 & Hc3).
  exists m3. split; [exact E3|]. split; [exact Hf3|].
  assert (Hcol : forall y, 0 <= y < n -> open_at m3 (n - 1) y).
  { intros y Hy. destruct (Z.eq_dec y (n - 1)) as [->|Hne]; auto.
    apply Ho3, Hcol2. lia. }
  repeat split; auto.
  - eapply opens_trans; [exact Ho1|]. eapply opens_trans; eauto.
  - intros x Hx. destruct (Z.eq_dec x (n - 1)) as [->|Hne].
    + apply Hcol. lia.
    + apply Ho3, Ho2, Hrow1. lia.
Qed.

Lemma L_reach this m :
  standard this ->
  (forall x, 0 <= x < size this -> open_at m x 0) ->
  (forall y, 0 <= y < size this -> open_at m (size this - 1) y) ->
  reach this m (size this - 1) (size this - 1).
Proof.
  intros (Hs & Hg & Hn) Hrow Hcol.
  assert (R1 : forall k : nat, Z.of_nat k < size this -> reach this m (Z.of_nat k) 0).
  { induction k as [|k IH]; intros Hk.
    - pose proof (reach_start this m) as H0. rewrite Hs in H0. exact H0.
    - apply (reach_step this m (Z.of_nat k) 0).
      + apply IH. lia.
      + exists (1, 0). simpl. repeat split; auto; lia.
      + unfold in_grid. lia.
      + apply Hrow. lia. }
  assert (R2 : forall k : nat, Z.of_nat k < size this ->
                               reach this m (size this - 1) (Z.of_nat k)).
  { induction k as [|k IH]; intros Hk.
    - replace (size this - 1) with (Z.of_nat (Z.to_nat (size this - 1))) by lia.
      apply R1. lia.
    - apply (reach_step this m (size this - 1) (Z.of_nat k)).
      + apply IH. lia.
      + exists (0, 1). simpl. repeat split; auto; lia.
      + unfold in_grid. lia.
      + apply Hcol. lia. }
  replace (size this - 1) with (Z.of_nat (Z.to_nat (size this - 1))) at 2 by lia.
  apply R2. lia.
Qed.

(** ** Counting the cells not yet visited *)

Lemma In_zs n z : In z (zs n) <-> 0 <= z < n.
Proof.
  unfold zs. rewrite in_map_iff. split.
  - intros (k & <- & Hk). apply in_seq in Hk. lia.
  - intros Hz. exists (Z.to_nat z). split; [lia|]. apply in_seq. lia.
Qed.

Lemma NoDup_zs n : NoDup (zs n).
Proof.
  unfold zs. apply Injective_map_NoDup; [|apply seq_NoDup].
  intros a b H. lia.
Qed.

Lemma NoDup_prod {A B} (l1 : list A) (l2 : list B) :
  NoDup l1 -> NoDup l2 -> NoDup (list_prod l1 l2).
Proof.
  intros H1 H2. induction H1 as [|a l1 Ha H1 IH]; simpl; [constructor|].
  apply NoDup_app; auto.
  - apply Injective_map_NoDup; auto. intros x y [= ->]. reflexivity.
  - intros [a' b] Hin Hin'. apply in_map_iff in Hin. destruct Hin as (b' & [= <- <-] & _).
    apply in_prod_iff in Hin'. destruct Hin' as [Hin' _]. contradiction.
Qed.

Lemma In_cells n y x : In (y, x) (cells n) <-> 0 <= y < n /\ 0 <= x < n.
Proof. unfold cells. rewrite in_prod_iff, !In_zs. reflexivity. Qed.

Lemma NoDup_cells n : NoDup (cells n).
Proof. apply NoDup_prod; apply NoDup_zs. Qed.

Lemma filter_flip {A} (f g : A -> bool) (l : list A) (p : A) :
  NoDup l -> In p l -> f p = true -> g p = false ->
  (forall q, q <> p -> g q = f q) ->
  List.length (filter f l) = S (List.length (filter g l)).
Proof.
  intros Hnd Hin Hf Hg Hother.
  induction Hnd as [|a l Ha Hnd IH]; [destruct Hin|].
  destruct Hin as [->|Hin]; simpl.
  - rewrite Hf, Hg. simpl. f_equal. f_equal. apply filter_ext_in.
    intros q Hq. symmetry. apply Hother. intros ->. contradiction.
  - rewrite (Hother a) by (intros ->; contradiction).
    destruct (f a); simpl; rewrite (IH Hin); reflexivity.
Qed.

(** Marking a pending cell inside the grid lowers the count by one. *)
Lemma mark_visited n (v : jsarray (jsarray bool)) y x :
  full2 n v -> 0 <= y < n -> 0 <= x < n -> pending v (y, x) = true ->
  exists v', set2 v y x true = Ret v' /\ full2 n v' /\
             unvisited n v = S (unvisited n v') /\
             forall y' x', get2 v' y' x' =
                           if (y' =? y) && (x' =? x) then Ret (Some true)
                           else get2 v y' x'.
Proof.
  intros Hf Hy Hx Hp.
  destruct (set2_full n v y x true Hf Hy Hx) as (v' & E & Hf' & Hget).
  exists v'. repeat split; auto; try apply Hf'.
  unfold unvisited. apply (filter_flip _ _ _ (y, x)).
  - apply NoDup_cells.
  - apply In_cells. auto.
  - exact Hp.
  - unfold pending. simpl. rewrite Hget, !Z.eqb_refl. reflexivity.
  - intros [y' x'] Hne. unfold pending. simpl. rewrite Hget.
    destruct ((y' =? y) && (x' =? x)) eqn:E'; auto.
    exfalso. apply Hne. f_equal; lia.
Qed.

Lemma unvisited_le n v : (unvisited n v <= Z.to_nat (n * n))%nat.
Proof.
  unfold unvisited. eapply Nat.le_trans; [apply filter_length_le|].
  unfold cells. rewrite length_prod. unfold zs. rewrite length_map, length_seq.
  lia.
Qed.

(** ** The backtracker terminates *)

Lemma neighbors_fold this visited cx cy dirs :
  full2 (size this) visited -> forall acc,
  Forall (good_neighbor this visited cx cy) acc ->
  exists l,
    fold_left
      (fun acc dir =>
         neighbors <- acc ;;
         let neighborX := cx + fst dir * 2 in
         let neighborY := cy + snd dir * 2 in
         let wx := cx + fst dir in
         let wy := cy + snd dir in
         if isValidPosition this neighborX neighborY then
           v <- get2 visited neighborY neighborX ;;
           Ret (if not_visited v
                then neighbors ++ [mkNeighbor neighborX neighborY wx wy]
                else neighbors)
         else Ret neighbors)
      dirs (Ret acc) = Ret l /\
    Forall (good_neighbor this visited cx cy) l.
Proof.
  intros Hf. induction dirs as [|d dirs IH]; intros acc Hacc; simpl; eauto.
  destruct (isValidPosition this (cx + fst d * 2) (cy + snd d * 2)) eqn:E.
  - apply isValidPosition_true in E. destruct E as [Hx Hy].
    destruct (get2_full _ visited _ _ Hf Hy Hx) as [b Hb]. rewrite Hb. simpl.
    destruct b; simpl; [apply IH, Hacc|].
    apply IH. apply Forall_app. split; [exact Hacc|].
    constructor; [|constructor]. unfold good_neighbor, in_grid, pending.
    cbn [nb_x nb_y wallX wallY fst snd]. rewrite Hb.
    repeat split; solve [lia | reflexivity].
  - apply IH, Hacc.
Qed.

Lemma find_neighbors_ok this visited cx cy :
  full2 (size this) visited ->
  exists l, find_neighbors this visited cx cy = Ret l /\
            Forall (good_neighbor this visited cx cy) l.
Proof. intros Hf. apply neighbors_fold; [exact Hf | constructor]. Qed.

Lemma carve_body_ok this s :
  carve_inv this s ->
  exists s', carve_body this s = Ret s' /\ carve_inv this s' /\
             (cs_stack s' = [] \/ (carve_measure this s' < carve_measure this s)%nat).
Proof.
  intros (Hm & Hv & Hcur & Hst & Hr). unfold carve_body.
  destruct (find_neighbors_ok this (cs_visited s) (currentX s) (currentY s) Hv)
    as (l & El & Hl).
  rewrite El. simpl.
  destruct (0 <? Z.of_nat (List.length l)) eqn:Elen.
  - unfold draw. destruct (Hr O) as [H0 H1].
    pose proof (floor_mul_range _ (Z.of_nat (List.length l)) H0 H1 ltac:(lia)) as Hk.
    set (k := floor_mul (cs_rng s O) (Z.of_nat (List.length l))) in *.
    destruct (k <? 0) eqn:Ek; [lia|].
    destruct (nth_error l (Z.to_nat k)) as [nb|] eqn:Enb.
    2:{ apply nth_error_None in Enb. lia. }
    apply nth_error_In in Enb. rewrite Forall_forall in Hl.
    destruct (Hl nb Enb) as ([Hnx Hny] & Hp & Hwx & Hwy).
    destruct Hcur as [Hcx Hcy].
    destruct (set2_full _ (cs_maze s) (wallY nb) (wallX nb) 0 Hm ltac:(lia) ltac:(lia))
      as (m1 & E1 & Hm1 & _).
    rewrite E1. simpl.
    destruct (set2_full _ m1 (nb_y nb) (nb_x nb) 0 Hm1 Hny Hnx) as (m2 & E2 & Hm2 & _).
    rewrite E2. simpl.
    destruct (mark_visited _ (cs_visited s) (nb_y nb) (nb_x nb) Hv Hny Hnx Hp)
      as (v1 & E3 & Hv1 & Hcount & _).
    rewrite E3. simpl. eexists. split; [reflexivity|]. split.
    + unfold carve_inv. cbn [cs_maze cs_visited cs_stack currentX currentY cs_rng].
      split; [exact Hm2|]. split; [exact Hv1|]. split; [split; assumption|].
      split; [constructor; [split; assumption | exact Hst]|].
      intros n. apply (Hr (S n)).
    + right. unfold carve_measure. simpl. rewrite Hcount. lia.
  - destruct (cs_stack s) as [|top rest] eqn:Es.
    + exists s. split; [reflexivity|]. split; [|left; exact Es].
      unfold carve_inv. rewrite Es. repeat (split; [assumption|]). assumption.
    + eexists. split; [reflexivity|]. inversion Hst as [|? ? Htop Hrest]; subst.
      split.
      * unfold carve_inv. cbn [cs_maze cs_visited cs_stack currentX currentY cs_rng].
        repeat (split; [assumption|]). assumption.
      * right. unfold carve_measure. simpl. rewrite Es. simpl. lia.
Qed.

Lemma carve_loop_ok this : forall fuel s,
  carve_inv this s -> (carve_measure this s < fuel)%nat ->
  exists s', carve_loop fuel this s = Ret s' /\ carve_inv this s'.
Proof.
  induction fuel as [|fuel IH]; intros s Hinv Hfuel; [lia|].
  destruct (carve_body_ok this s Hinv) as (s1 & E1 & Hinv1 & Hcase).
  simpl. rewrite E1. simpl.
  destruct (cs_stack s1) as [|top rest] eqn:Es.
  - exists s1. auto.
  - destruct Hcase as [Hnil|Hlt]; [congruence|].
    apply IH; auto. lia.
Qed.

(** ** Breadth-first search: termination and completeness *)

Lemma pending_not_visited v x y :
  get2 v y x = Ret (Some false) -> pending v (y, x) = true.
Proof. unfold pending. simpl. intros ->. reflexivity. Qed.

Lemma expand_fold this m cx cy dirs :
  full2 (size this) m -> forall visited queue,
  full2 (size this) visited ->
  exists visited' new,
    fold_left
      (fun acc dir =>
         '(visited, queue) <- acc ;;
         let newX := cx + fst dir in
         let newY := cy + snd dir in
         if isValidPosition this newX newY then
           v <- get2 visited newY newX ;;
           if not_visited v then
             c <- get2 m newY newX ;;
             if cell_is 0 c then
               visited' <- set2 visited newY newX true ;;
               Ret (visited', queue ++ [mkPos newX newY])
             else Ret (visited, queue)
           else Ret (visited, queue)
         else Ret (visited, queue))
      dirs (Ret (visited, queue)) = Ret (visited', queue ++ new) /\
    full2 (size this) visited' /\
    (forall x y, visited_at visited x y -> visited_at visited' x y) /\
    (forall x y, visited_at visited' x y ->
                 visited_at visited x y \/ In (mkPos x y) new) /\
    (forall p, In p new ->
               in_grid this (pos_x p) (pos_y p) /\
               visited_at visited' (pos_x p) (pos_y p) /\
               open_at m (pos_x p) (pos_y p) /\
               exists d, In d dirs /\ pos_x p = cx + fst d /\ pos_y p = cy + snd d) /\
    unvisited (size this) visited
    = (unvisited (size this) visited' + List.length new)%nat /\
    (forall d, In d dirs ->
               in_grid this (cx + fst d) (cy + snd d) ->
               open_at m (cx + fst d) (cy + snd d) ->
               visited_at visited' (cx + fst d) (cy + snd d)).
Proof.
  intros Hm. induction dirs as [|d dirs IH]; intros visited queue Hv.
  - exists visited, []. simpl. rewrite app_nil_r.
    split; [reflexivity|]. split; [exact Hv|]. split; [auto|]. split; [auto|].
    split; [intros p []|]. split; [lia|]. intros d [].
  - simpl fold_left. cbn [bind].
    assert (Hskip :
      (in_grid this (cx + fst d) (cy + snd d) ->
       open_at m (cx + fst d) (cy + snd d) ->
       visited_at visited (cx + fst d) (cy + snd d)) ->
      exists visited' new,
        fold_left
          (fun acc dir =>
             '(visited, queue) <- acc ;;
             let newX := cx + fst dir in
             let newY := cy + snd dir in
             if isValidPosition this newX newY then
               v <- get2 visited newY newX ;;
               if not_visited v then
                 c <- get2 m newY newX ;;
                 if cell_is 0 c then
                   visited' <- set2 visited newY newX true ;;
                   Ret (visited', queue ++ [mkPos newX newY])
                 else Ret (visited, queue)
               else Ret (visited, queue)
             else Ret (visited, queue))
          dirs (Ret (visited, queue)) = Ret (visited', queue ++ new) /\
        full2 (size this) visited' /\
        (forall x y, visited_at visited x y -> visited_at visited' x y) /\
        (forall x y, visited_at visited' x y ->
                     visited_at visited x y \/ In (mkPos x y) new) /\
        (forall p, In p new ->
                   in_grid this (pos_x p) (pos_y p) /\
                   visited_at visited' (pos_x p) (pos_y p) /\
                   open_at m (pos_x p) (pos_y p) /\
                   exists d0, In d0 (d :: dirs) /\
                              pos_x p = cx + fst d0 /\ pos_y p = cy + snd d0) /\
        unvisited (size this) visited
        = (unvisited (size this) visited' + List.length new)%nat /\
        (forall d0, In d0 (d :: dirs) ->
                    in_grid this (cx + fst d0) (cy + snd d0) ->
                    open_at m (cx + fst d0) (cy + snd d0) ->
                    visited_at visited' (cx + fst d0) (cy + snd d0))).
    { intros Hd. destruct (IH visited queue Hv) as (v' & new & E & Hf' & Hmono & Hrev & Hnew & Hcnt & Hdirs).
      exists v', new. repeat (split; [assumption|]).
      split; [|split; [assumption|]].
      - intros p Hin. destruct (Hnew p Hin) as (A & B & C & d0 & D & F).
        repeat (split; [assumption|]). exists d0. split; [right; exact D | exact F].
      - intros d0 [<-|Hin] Hg Ho; auto. }
    destruct (isValidPosition this (cx + fst d) (cy + snd d)) eqn:E.
    2:{ apply Hskip. intros Hg. apply isValidPosition_true in Hg. congruence. }
    apply isValidPosition_true in E. destruct E as [Hx Hy].
    destruct (get2_full _ visited _ _ Hv Hy Hx) as [b Hb]. rewrite Hb. cbn [bind].
    destruct b; cbn [not_visited negb].
    { apply Hskip. intros _ _. exact Hb. }
    destruct (get2_full _ m _ _ Hm Hy Hx) as [c Hc]. rewrite Hc. cbn [bind cell_is].
    destruct (c =? 0) eqn:Ec.
    2:{ apply Hskip. intros _ Ho. unfold open_at in Ho. rewrite Hc in Ho.
        injection Ho as ->. discriminate. }
    destruct (mark_visited _ visited _ _ Hv Hy Hx (pending_not_visited _ _ _ Hb))
      as (v1 & E1 & Hv1 & Hcount & Hget).
    rewrite E1. cbn [bind].
    destruct (IH v1 (queue ++ [mkPos (cx + fst d) (cy + snd d)]) Hv1)
      as (v' & new & E' & Hf' & Hmono & Hrev & Hnew & Hcnt & Hdirs).
    assert (Hmono1 : forall x y, visited_at visited x y -> visited_at v1 x y).
    { intros x y H. unfold visited_at in *. rewrite Hget.
      destruct ((y =? cy + snd d) && (x =? cx + fst d)); auto. }
    assert (Hhere : visited_at v1 (cx + fst d) (cy + snd d)).
    { unfold visited_at. rewrite Hget, !Z.eqb_refl. reflexivity. }
    exists v', (mkPos (cx + fst d) (cy + snd d) :: new).
    split.
    { replace (queue ++ mkPos (cx + fst d) (cy + snd d) :: new)
        with ((queue ++ [mkPos (cx + fst d) (cy + snd d)]) ++ new)
        by (rewrite <- app_assoc; reflexivity).
      exact E'. }
    split; [exact Hf'|]. split; [auto|]. split; [|split; [|split]].
    + intros x y H. destruct (Hrev x y H) as [H1|Hin]; [|right; right; exact Hin].
      unfold visited_at in H1. rewrite Hget in H1.
      destruct ((y =? cy + snd d) && (x =? cx + fst d)) eqn:Exy; [|left; exact H1].
      right. left. f_equal; lia.
    + intros p [<-|Hin].
      * simpl. split; [split; assumption|]. split; [apply Hmono, Hhere|].
        split.
        -- unfold open_at. rewrite Hc. apply Z.eqb_eq in Ec. subst c. reflexivity.
        -- exists d. split; [left; reflexivity | split; reflexivity].
      * destruct (Hnew p Hin) as (A & B & C & d0 & D & F).
        repeat (split; [assumption|]). exists d0. split; [right; exact D | exact F].
    + rewrite Hcount, Hcnt. simpl. lia.
    + intros d0 [<-|Hin] Hg Ho; [apply Hmono, Hhere | apply Hdirs; assumption].
Qed.

Lemma expand_ok this m current visited queue :
  full2 (size this) m -> full2 (size this) visited ->
  exists visited' new,
    expand this m current (visited, queue) = Ret (visited', queue ++ new) /\
    full2 (size this) visited' /\
    (forall x y, visited_at visited x y -> visited_at visited' x y) /\
    (forall x y, visited_at visited' x y ->
                 visited_at visited x y \/ In (mkPos x y) new) /\
    (forall p, In p new ->
               in_grid this (pos_x p) (pos_y p) /\
               visited_at visited' (pos_x p) (pos_y p) /\
               open_at m (pos_x p) (pos_y p) /\
               adjacent (pos_x current) (pos_y current) (pos_x p) (pos_y p)) /\
    unvisited (size this) visited
    = (unvisited (size this) visited' + List.length new)%nat /\
    (forall x' y', adjacent (pos_x current) (pos_y current) x' y' ->
                   in_grid this x' y' -> open_at m x' y' -> visited_at visited' x' y').
Proof.
  intros Hm Hv.
  destruct (expand_fold this m (pos_x current) (pos_y current) directions Hm
              visited queue Hv) as (v' & new & E & H1 & H2 & H3 & H4 & H5 & H6).
  exists v', new. split; [exact E|]. split; [exact H1|]. split; [exact H2|].
  split; [exact H3|]. split; [|split; [exact H5|]].
  - intros p Hin. destruct (H4 p Hin) as (A & B & C & d & D & F1 & F2).
    repeat (split; [assumption|]). exists d. auto.
  - intros x' y' (d & Hd & -> & ->). apply H6, Hd.
Qed.

Lemma bfs_drained this m visited x y :
  bfs_inv this m visited [] -> reach this m x y ->
  in_grid this x y /\ visited_at visited x y.
Proof.
  intros (_ & _ & Hstart & _ & Hclosed).
  induction 1 as [|x y x' y' _ IH Hadj Hg Ho].
  - exact Hstart.
  - split; [exact Hg|]. destruct IH as [Hg0 Hv0].
    destruct (Hclosed x y Hg0 Hv0 (fun H => H)) as [_ Hn]. apply Hn; assumption.
Qed.

(** With enough iterations the search returns, and it answers [true]
    exactly when the goal is joined to the start. *)
Lemma bfs_ok this m : full2 (size this) m -> forall fuel visited queue,
  bfs_inv this m visited queue ->
  (unvisited (size this) visited + List.length queue < fuel)%nat ->
  exists b, bfs fuel this m visited queue = Ret b /\
            (b = true <->
             reach this m (pos_x (goalPosition this)) (pos_y (goalPosition this))).
Proof.
  intros Hm. induction fuel as [|fuel IH]; intros visited queue Hinv Hfuel; [lia|].
  destruct queue as [|current rest]; simpl.
  - exists false. split; [reflexivity|]. split; [discriminate|].
    intros Hreach. exfalso.
    destruct (bfs_drained _ _ _ _ _ Hinv Hreach) as [Hg Hv].
    destruct Hinv as (_ & _ & _ & _ & Hclosed).
    destruct (Hclosed _ _ Hg Hv (fun H => H)) as [Hngoal _].
    apply Hngoal. split; reflexivity.
  - destruct Hinv as (Hv & Hq & Hstart & Hsound & Hclosed).
    assert (Hcur : reach this m (pos_x current) (pos_y current)).
    { apply Hsound. apply (Hq current). now left. }
    destruct ((pos_x current =? pos_x (goalPosition this))
              && (pos_y current =? pos_y (goalPosition this))) eqn:Egoal.
    + exists true. split; [reflexivity|]. split; [|reflexivity]. intros _.
      apply andb_true_iff in Egoal. destruct Egoal as [Ex Ey].
      apply Z.eqb_eq in Ex, Ey. rewrite <- Ex, <- Ey. exact Hcur.
    + destruct (expand_ok this m current visited rest Hm Hv)
        as (v' & new & E & Hv' & Hmono & Hrev & Hnew & Hcnt & Hadj).
      rewrite E. cbn [bind]. apply IH.
      * split; [exact Hv'|]. split; [|split; [|split]].
        -- intros p Hin. apply in_app_or in Hin. destruct Hin as [Hin|Hin].
           ++ destruct (Hq p (or_intror Hin)) as [Hg Hvis]. split; auto.
           ++ destruct (Hnew p Hin) as (A & B & _). split; assumption.
        -- destruct Hstart as [Hg Hvis]. split; auto.
        -- intros x y Hvis. destruct (Hrev x y Hvis) as [Hold|Hin]; [auto|].
           destruct (Hnew _ Hin) as (A & _ & C & D). simpl in A, C, D.
           eapply reach_step; eauto.
        -- intros x y Hg Hvis Hnot.
           destruct (Hrev x y Hvis) as [Hold|Hin].
           2:{ exfalso. apply Hnot. apply in_or_app. right. exact Hin. }
           destruct (Position_eq_dec (mkPos x y) current) as [Heq|Hne].
           ++ subst current. simpl in *. split.
              ** intros [-> ->]. rewrite !Z.eqb_refl in Egoal. discriminate.
              ** exact Hadj.
           ++ assert (Hnot' : ~ In (mkPos x y) (current :: rest)).
              { intros [Heq|Hin]; [congruence|].
                apply Hnot. apply in_or_app. left. exact Hin. }
              destruct (Hclosed x y Hg Hold Hnot') as [Hngoal Hn]. split; auto.
      * rewrite length_app. simpl in Hfuel. lia.
Qed.

Lemma hasPath_ok this m fuel :
  standard this -> full2 (size this) m ->
  (Z.to_nat (size this * size this) < fuel)%nat ->
  exists b, hasPath fuel this m = Ret b /\
            (b = true <-> reach this m (size this - 1) (size this - 1)).
Proof.
  intros (Hs & Hg & Hn) Hm Hfuel. unfold hasPath.
  destruct (matrix_full (size this) false ltac:(lia)) as (v0 & E0 & Hv0 & Hget0).
  rewrite E0. cbn [bind]. rewrite Hs. simpl pos_x. simpl pos_y.
  assert (Hp : pending v0 (0, 0) = true).
  { apply pending_not_visited. apply Hget0; lia. }
  destruct (mark_visited _ v0 0 0 Hv0 ltac:(lia) ltac:(lia) Hp)
    as (v1 & E1 & Hv1 & Hcount & Hget1).
  rewrite E1. cbn [bind].
  assert (Hzero : forall x y, visited_at v1 x y -> x = 0 /\ y = 0).
  { intros x y Hv. unfold visited_at in Hv. rewrite Hget1 in Hv.
    destruct ((y =? 0) && (x =? 0)) eqn:E; [lia|].
    exfalso. unfold get2 in Hv. destruct Hv0 as [Hlen Hrows].
    destruct (aget v0 y) as [row|] eqn:Erow; [|discriminate].
    injection Hv as Hv.
    assert (Hy : 0 <= y < size this).
    { unfold aget in Erow. destruct (y <? 0) eqn:Ey; [discriminate|].
      destruct (nth_error v0 (Z.to_nat y)) eqn:En; [|discriminate].
      assert (Z.to_nat y < List.length v0)%nat
        by (apply nth_error_Some; congruence).
      lia. }
    destruct (Hrows y Hy) as (row' & Erow' & Hlen' & _).
    rewrite Erow in Erow'. injection Erow' as <-.
    assert (Hx : 0 <= x < size this).
    { unfold aget in Hv. destruct (x <? 0) eqn:Ex; [discriminate|].
      destruct (nth_error row (Z.to_nat x)) eqn:En; [|discriminate].
      assert (Z.to_nat x < List.length row)%nat
        by (apply nth_error_Some; congruence).
      lia. }
    pose proof (Hget0 y x Hy Hx) as H0. unfold get2 in H0. rewrite Erow in H0.
    congruence. }
  pose proof (reach_start this m) as Hrs. rewrite Hs in Hrs. simpl in Hrs.
  destruct (bfs_ok this m Hm fuel v1 [mkPos 0 0]) as (b & Eb & Hb).
  - split; [exact Hv1|]. rewrite Hs. simpl.
    assert (Hvis : visited_at v1 0 0).
    { unfold visited_at. rewrite Hget1. reflexivity. }
    split; [|split; [|split]].
    + intros p [<-|[]]. simpl. unfold in_grid. split; [lia | exact Hvis].
    + unfold in_grid. split; [lia | exact Hvis].
    + intros x y Hv. destruct (Hzero x y Hv) as [-> ->]. exact Hrs.
    + intros x y _ Hv Hnot. exfalso. destruct (Hzero x y Hv) as [-> ->].
      apply Hnot. now left.
  - pose proof (unvisited_le (size this) v0). simpl. lia.
  - exists b. split; [exact Eb|]. rewrite Hg in Hb. exact Hb.
Qed.

(** ** The whole generation *)

Lemma standard_config size wallDensity :
  1 <= size -> standard (config_of size wallDensity).
Proof. intros H. repeat split; auto. Qed.

Lemma generateMaze_ok this rnd fuel :
  standard this -> random_ok rnd -> (enough (size this) <= fuel)%nat ->
  exists m rnd',
    generateMaze fuel this rnd = Ret (m, rnd') /\
    full2 (size this) m /\ random_ok rnd' /\
    open_at m 0 0 /\ open_at m (size this - 1) (size this - 1) /\
    hasPath fuel this m = Ret true /\
    reach this m (size this - 1) (size this - 1).
Proof.
  intros Hstd Hr Hfuel. pose proof Hstd as (Hs & Hg & Hn).
  unfold enough in Hfuel. unfold generateMaze. rewrite Hs, Hg. simpl pos_x. simpl pos_y.
  destruct (matrix_full (size this) 1 ltac:(lia)) as (m0 & E0 & Hm0 & _).
  destruct (matrix_full (size this) false ltac:(lia)) as (v0 & Ev0 & Hv0 & Hget0).
  rewrite E0, Ev0. cbn [bind].
  destruct (mark_visited _ v0 0 0 Hv0 ltac:(lia) ltac:(lia)
              (pending_not_visited _ _ _ (Hget0 0 0 ltac:(lia) ltac:(lia))))
    as (v1 & Ev1 & Hv1 & _ & _).
  rewrite Ev1. cbn [bind].
  destruct (set2_full _ m0 0 0 0 Hm0 ltac:(lia) ltac:(lia)) as (m0' & E0' & Hm0' & _).
  rewrite E0'. cbn [bind].
  destruct (carve_loop_ok this fuel (mkCarve m0' v1 [] 0 0 rnd)) as (s & Es & Hinv).
  { unfold carve_inv, in_grid. simpl. repeat (split; [assumption || lia|]).
    split; [constructor | exact Hr]. }
  { unfold carve_measure. simpl. pose proof (unvisited_le (size this) v1). lia. }
  rewrite Es. cbn [bind]. destruct Hinv as (Hms & _ & _ & _ & Hrs).
  destruct (applyWallDensityModification_ok this (cs_maze s, cs_rng s))
    as ([m1 rnd1] & E1 & Hm1 & Hr1); [split; assumption|].
  rewrite E1. cbn [bind]. simpl in Hm1, Hr1.
  destruct (set2_open _ m1 0 0 Hm1 ltac:(lia) ltac:(lia)) as (m2 & E2 & Hm2 & _ & Ho2).
  rewrite E2. cbn [bind].
  destruct (set2_open _ m2 (size this - 1) (size this - 1) Hm2 ltac:(lia) ltac:(lia))
    as (m3 & E3 & Hm3 & Ho23 & Ho3).
  rewrite E3. cbn [bind].
  destruct (ensureConnectivity_ok this (m3, rnd1)) as ([m4 rnd2] & E4 & [Hm4 Hr4] & Ho34);
    [split; assumption|].
  rewrite E4. cbn [bind]. simpl in Hm4, Hr4, Ho34.
  assert (Hfuel' : (Z.to_nat (size this * size this) < fuel)%nat) by lia.
  destruct (hasPath_ok this m4 fuel Hstd Hm4 Hfuel') as (b & Eb & Hb).
  rewrite Eb. cbn [bind].
  destruct b; cbn [negb].
  - exists m4, rnd2. split; [reflexivity|]. split; [exact Hm4|]. split; [exact Hr4|].
    split; [apply Ho34, Ho23, Ho2|]. split; [apply Ho34, Ho3|].
    split; [exact Eb | apply Hb; reflexivity].
  - destruct (createPathToGoal_ok this m4 Hstd Hm4) as (m5 & E5 & Hm5 & Ho45 & Hrow & Hcol).
    rewrite E5. cbn [bind].
    assert (Hreach : reach this m5 (size this - 1) (size this - 1))
      by (apply L_reach; assumption).
    destruct (hasPath_ok this m5 fuel Hstd Hm5 Hfuel') as (b' & Eb' & Hb').
    exists m5, rnd2. split; [reflexivity|]. split; [exact Hm5|]. split; [exact Hr4|].
    split; [apply Hrow; lia|]. split; [apply Hcol; lia|].
    split; [|exact Hreach].
    rewrite Eb'. f_equal. apply Hb', Hreach.
Qed.

(** C1. For every size of at least 2, every wall density and every
    outcome of the random source, the constructor returns a maze on which
    the breadth-first search [hasPath] answers true: the goal
    [(size-1, size-1)] is joined to the start [(0, 0)] by OPEN cells of the
    grid, stepping up, right, down or left. *)
Theorem generated_maze_reachable (size : Z) (wallDensity : Q) (rnd : rng)
    (fuel : nat) :
  2 <= size -> random_ok rnd -> (enough size <= fuel)%nat ->
  exists g rnd',
    MazeGenerator.new fuel size wallDensity rnd = Ret (g, rnd') /\
    getSize g = size /\
    getStartPosition g = mkPos 0 0 /\
    getGoalPosition g = mkPos (size - 1) (size - 1) /\
    hasPath fuel (self g) (getMaze g) = Ret true /\
    reach (self g) (getMaze g) (size - 1) (size - 1).
Proof.
  intros Hsize Hr Hfuel.
  destruct (generateMaze_ok (config_of size wallDensity) rnd fuel)
    as (m & rnd' & E & _ & _ & _ & _ & Hp & Hreach); auto.
  { apply standard_config. lia. }
  exists (mkMaze (config_of size wallDensity) m), rnd'.
  unfold MazeGenerator.new. fold (config_of size wallDensity). rewrite E.
  repeat split; assumption.
Qed.

(** C6. For every size of at least 2, every wall density and every
    outcome of the random source, the start cell [(0, 0)] and the goal cell
    [(size-1, size-1)] of the returned grid are OPEN. *)
Theorem generated_maze_ends_open (size : Z) (wallDensity : Q) (rnd : rng)
    (fuel : nat) :
  2 <= size -> random_ok rnd -> (enough size <= fuel)%nat ->
  exists g rnd',
    MazeGenerator.new fuel size wallDensity rnd = Ret (g, rnd') /\
    get2 (getMaze g) 0 0 = Ret (Some 0) /\
    get2 (getMaze g) (size - 1) (size - 1) = Ret (Some 0) /\
    isWall g 0 0 = Ret false /\
    isWall g (size - 1) (size - 1) = Ret false.
Proof.
  intros Hsize Hr Hfuel.
  destruct (generateMaze_ok (config_of size wallDensity) rnd fuel)
    as (m & rnd' & E & _ & _ & Hs & Hg & _); auto.
  { apply standard_config. lia. }
  exists (mkMaze (config_of size wallDensity) m), rnd'.
  unfold MazeGenerator.new. fold (config_of size wallDensity). rewrite E.
  unfold open_at in Hs, Hg. simpl in Hs, Hg.
  assert (Hw : forall x y, 0 <= x < size -> 0 <= y < size ->
                           get2 m y x = Ret (Some 0) ->
                           isWall (mkMaze (config_of size wallDensity) m) x y = Ret false).
  { intros x y Hx Hy Hc. unfold isWall, isValidPosition.
    cbn [self maze MazeGenerator.size config_of].
    replace ((x >=? 0) && (x <? size) && (y >=? 0) && (y <? size)) with true by lia.
    cbn [negb]. rewrite Hc. reflexivity. }
  split; [reflexivity|]. split; [exact Hs|]. split; [exact Hg|].
  split; apply Hw; auto; lia.
Qed.

End MazeFacts.

(* ================================================================== *)
(** * Construction, and the generator on concrete inputs *)
(* ================================================================== *)

Module ConstructionFacts.

Import MazeSpec MazeFacts Examples AgentExamples.

(** C5, as the code has it.  Neither constructor validates an argument.
    The maze constructor returns a grid for every size of at least 1 and
    every wall density, inside [[0, 1]] or not, keeping both as given; size 0
    ends in the TypeError of an array access and a negative size in the
    RangeError of the array allocation.  The agent constructor returns for
    all arguments and stores the three rates as given. *)
Theorem construction_unchecked :
  (forall size wallDensity rnd fuel,
      1 <= size -> random_ok rnd -> (enough size <= fuel)%nat ->
      exists g rnd',
        MazeGenerator.new fuel size wallDensity rnd = Ret (g, rnd') /\
        MazeGenerator.getSize g = size /\
        MazeGenerator.wallDensity (MazeGenerator.self g) = wallDensity) /\
  (forall wallDensity rnd fuel,
      MazeGenerator.new fuel 0 wallDensity rnd = Exn TypeError) /\
  (forall size wallDensity rnd fuel,
      size < 0 -> MazeGenerator.new fuel size wallDensity rnd = Exn RangeError) /\
  (forall mazeSize learningRate discountFactor explorationRate,
      QLearningAgent.new mazeSize learningRate discountFactor explorationRate
      = Ret (QLearningAgent.mkAgent [] learningRate discountFactor explorationRate
                                    mazeSize QLearningAgent.four_actions)).
Proof.
  split; [|split; [|split]].
  - intros size wallDensity rnd fuel Hsize Hr Hfuel.
    destruct (generateMaze_ok (config_of size wallDensity) rnd fuel)
      as (m & rnd' & E & _); auto.
    { apply standard_config. exact Hsize. }
    exists (MazeGenerator.mkMaze (config_of size wallDensity) m), rnd'.
    unfold MazeGenerator.new. fold (config_of size wallDensity). rewrite E.
    repeat split.
  - intros wallDensity rnd fuel. reflexivity.
  - intros size wallDensity rnd fuel Hneg.
    unfold MazeGenerator.new, MazeGenerator.generateMaze, matrix.
    cbn [MazeGenerator.size]. replace (size <? 0) with true by lia. reflexivity.
  - reflexivity.
Qed.

(** C5 fails on the code: a maze of size 1, a maze with wall density 7/2
    and an agent with rates 5, -1 and 2 are all constructed without error. *)
Lemma construction_unchecked_counterexample :
  (exists g rnd',
      MazeGenerator.new (enough 1) 1 (1 # 2) half = Ret (g, rnd') /\
      MazeGenerator.getMaze g = [Some [Some 0]]) /\
  (exists g rnd', MazeGenerator.new (enough 2) 2 (7 # 2) half = Ret (g, rnd')) /\
  (exists a,
      QLearningAgent.new 3 (Fin 5) (Fin (-1)) (Fin 2) = Ret a /\
      QLearningAgent.learningRate a = Fin 5 /\
      QLearningAgent.discountFactor a = Fin (-1) /\
      QLearningAgent.explorationRate a = Fin 2).
Proof.
  split; [|split].
  - eexists. eexists. split; reflexivity.
  - eexists. eexists. reflexivity.
  - eexists. repeat split.
Qed.

Lemma generated_maze_reachable_witness :
  2 <= 5 /\ random_ok half /\ (enough 5 <= enough 5)%nat /\
  exists g rnd',
    MazeGenerator.new (enough 5) 5 (3 # 10) half = Ret (g, rnd') /\
    MazeGenerator.getSize g = 5 /\
    MazeGenerator.getStartPosition g = mkPos 0 0 /\
    MazeGenerator.getGoalPosition g = mkPos (5 - 1) (5 - 1) /\
    MazeGenerator.hasPath (enough 5) (MazeGenerator.self g) (MazeGenerator.getMaze g)
    = Ret true /\
    reach (MazeGenerator.self g) (MazeGenerator.getMaze g) (5 - 1) (5 - 1).
Proof.
  assert (H1 : 2 <= 5) by lia.
  assert (H3 : (enough 5 <= enough 5)%nat) by apply le_n.
  split; [exact H1|]. split; [exact half_ok|]. split; [exact H3|].
  exact (generated_maze_reachable 5 (3 # 10) half (enough 5) H1 half_ok H3).
Defined.

Lemma generated_maze_ends_open_witness :
  2 <= 2 /\ random_ok half /\ (enough 2 <= enough 2)%nat /\
  exists g rnd',
    MazeGenerator.new (enough 2) 2 1 half = Ret (g, rnd') /\
    get2 (MazeGenerator.getMaze g) 0 0 = Ret (Some 0) /\
    get2 (MazeGenerator.getMaze g) (2 - 1) (2 - 1) = Ret (Some 0) /\
    MazeGenerator.isWall g 0 0 = Ret false /\
    MazeGenerator.isWall g (2 - 1) (2 - 1) = Ret false.
Proof.
  assert (H1 : 2 <= 2) by lia.
  assert (H3 : (enough 2 <= enough 2)%nat) by apply le_n.
  split; [exact H1|]. split; [exact half_ok|]. split; [exact H3|].
  exact (generated_maze_ends_open 2 1 half (enough 2) H1 half_ok H3).
Defined.

End ConstructionFacts.

(* ================================================================== *)
(** * The agent: further properties *)
(* ================================================================== *)

Module AgentMore.

Import QLearningAgent AgentSpec AgentSpecMore JsFacts AgentFacts Examples.

(** ** Invariants carried through an episode *)




(** What [runEpisode] returns, when it returns. *)
Lemma runEpisode_episode a rnd maze startPos goalPos maxSteps res a' rnd' :
  runEpisode a rnd maze startPos goalPos maxSteps = Ret (res, a', rnd') ->
  exists s',
    episode maze goalPos (Z.to_nat maxSteps) (initial a rnd startPos) (success res) s' /\
    res = result_of (success res) s' /\ a' = ep_agent s' /\ rnd' = ep_rng s'.
Proof.
  intros Hrun. rewrite runEpisode_initial in Hrun.
  pose proof (episode_loop_spec maze goalPos (Z.to_nat maxSteps)
                (initial a rnd startPos)) as Hspec.
  rewrite Hrun in Hspec. exact Hspec.
Qed.

(** With every row of the maze present the call returns. *)
Lemma runEpisode_returns a rnd maze startPos goalPos maxSteps :
  rows_ok a maze ->
  exists res a' rnd',
    runEpisode a rnd maze startPos goalPos maxSteps = Ret (res, a', rnd').
Proof.
  intros Hrows. rewrite runEpisode_initial.
  pose proof (episode_loop_spec maze goalPos (Z.to_nat maxSteps)
                (initial a rnd startPos)) as Hspec.
  destruct (episode_loop _ _ _ _) as [[[res a'] rnd']| |]; simpl in Hspec.
  - eauto.
  - contradiction.
  - contradiction.
Qed.

(** ** The table only grows *)

Lemma map_has_keys {V} (m : list (string * V)) k :
  map_has m k = true <-> In k (map fst m).
Proof.
  unfold map_has. induction m as [|[k' v'] t IH]; simpl.
  - split; [discriminate | intros []].
  - destruct (String.eqb k' k) eqn:E.
    + apply String.eqb_eq in E. subst. split; auto.
    + apply String.eqb_neq in E. rewrite IH. split; auto.
      intros [H|H]; [contradiction | exact H].
Qed.

Lemma map_set_length {V} (m : list (string * V)) k v :
  List.length (map_set m k v)
  = if map_has m k then List.length m else S (List.length m).
Proof.
  rewrite <- !(length_map fst), map_set_keys.
  destruct (map_has m k); [reflexivity|]. rewrite length_app. simpl. lia.
Qed.

Lemma grows_refl a : grows a a.
Proof. split; [auto | lia]. Qed.

Lemma grows_trans a b c : grows a b -> grows b c -> grows a c.
Proof. intros [H1 L1] [H2 L2]. split; [auto | lia]. Qed.

Lemma grows_init a k : grows a (initializeQValues a k).
Proof.
  split.
  - intros k' Hk'. destruct (getQValues a k') as [e|] eqn:E; [|congruence].
    rewrite (init_keeps a k k' e E). discriminate.
  - unfold getStatesExplored, initializeQValues.
    destruct (negb (map_has (qTable a) k)) eqn:E; simpl; [|lia].
    rewrite map_set_length. apply negb_true_iff in E. rewrite E. lia.
Qed.

Lemma updateQValue_table a state act reward nextState a' :
  updateQValue a state act reward nextState = Ret a' ->
  let a0 := initializeQValues (initializeQValues a state) nextState in
  exists e,
    getQValues a0 state <> None /\
    getStatesExplored a' = getStatesExplored a0 /\
    forall k, getQValues a' k = if String.eqb state k then Some e else getQValues a0 k.
Proof.
  intros Hup a0.
  destruct (updateQValue_eq a state act reward nextState) as (qS & HS & E).
  fold a0 in HS, E. rewrite E in Hup. injection Hup as <-.
  eexists. split; [rewrite HS; discriminate|]. split.
  - unfold getStatesExplored. simpl. rewrite map_set_length_has; [reflexivity|].
    unfold map_has. unfold getQValues in HS. rewrite HS. reflexivity.
  - intros k. unfold getQValues. simpl.
    destruct (String.eqb state k) eqn:Ek.
    + apply String.eqb_eq in Ek. subst k. apply map_get_set_eq.
    + apply String.eqb_neq in Ek. apply map_get_set_neq. congruence.
Qed.

Lemma grows_update a state act reward nextState a' :
  updateQValue a state act reward nextState = Ret a' -> grows a a'.
Proof.
  intros Hup. destruct (updateQValue_table _ _ _ _ _ _ Hup) as (e & _ & Hlen & Hget).
  eapply grows_trans; [apply (grows_init a state)|].
  eapply grows_trans; [apply (grows_init (initializeQValues a state) nextState)|].
  split.
  - intros k Hk. rewrite Hget. destruct (String.eqb state k); [discriminate | exact Hk].
  - lia.
Qed.

(** A property kept by lazy initialisation and by every update is kept by
    an episode, with no condition on the agent or the random source. *)
Lemma episode_keeps (P : agent -> Prop) maze goalPos n s ok s' :
  (forall a k, P a -> P (initializeQValues a k)) ->
  (forall a state act reward nextState a',
      P a -> updateQValue a state act reward nextState = Ret a' -> P a') ->
  episode maze goalPos n s ok s' -> P (ep_agent s) -> P (ep_agent s').
Proof.
  intros Hinit Hupd.
  assert (Hit : forall s s', iteration maze goalPos s s' ->
                             P (ep_agent s) -> P (ep_agent s')).
  { clear s s'. intros s s' H HP.
    destruct H as [s action a1 rnd1 reward valid a2 x y Hc cand Hr Hv next Hup].
    simpl.
    destruct (chooseAction_returns (ep_agent s) (ep_rng s) x y) as (act0 & E & _).
    fold x y in E. rewrite E in Hc. injection Hc as <- <- <-.
    eapply Hupd; [|exact Hup]. apply Hinit, HP. }
  induction 1 as [s | n s s' H Hg | n s s' ok s'' H Hg Hep IH]; intros HP; eauto.
Qed.

(** X1. Over an episode the table only grows: every state stored before
    [runEpisode] is still stored after it, and [getStatesExplored] does not
    decrease.  (The call throws only when the maze lacks a row inside the
    agent's bounds.) *)
Theorem runEpisode_table_grows (a : agent) (rnd : rng) (maze : jsarray (jsarray Z))
    (startPos goalPos : Position) (maxSteps : Z) :
  run_post (runEpisode a rnd maze startPos goalPos maxSteps)
    (fun out =>
       let a' := snd (fst out) in
       (forall k, getQValues a k <> None -> getQValues a' k <> None) /\
       getStatesExplored a <= getStatesExplored a')
    (~ rows_ok a maze).
Proof.
  rewrite runEpisode_initial.
  pose proof (episode_loop_spec maze goalPos (Z.to_nat maxSteps)
                (initial a rnd startPos)) as Hspec.
  destruct (episode_loop _ _ _ _) as [[[res a'] rnd']| |]; simpl in *; auto.
  destruct Hspec as (s' & Hep & _ & -> & _).
  apply (episode_keeps (grows a) _ _ _ _ _ _) in Hep.
  - exact Hep.
  - intros a0 k Hg. eapply grows_trans; [exact Hg | apply grows_init].
  - intros a0 state act reward nextState a1 Hg Hup.
    eapply grows_trans; [exact Hg | eapply grows_update; eauto].
  - apply grows_refl.
Qed.

(** ** The states of the path are stored *)

Lemma has_state_grows a a' p : grows a a' -> has_state a p -> has_state a' p.
Proof. intros [Hk _] H. apply Hk, H. Qed.

Lemma iteration_states maze goalPos s s' :
  iteration maze goalPos s s' ->
  (forall p, In p (ep_path s) ->
             p = mkPos (ep_x s) (ep_y s) \/ has_state (ep_agent s) p) ->
  Forall (has_state (ep_agent s')) (ep_path s').
Proof.
  intros H Hpath.
  destruct H as [s action a1 rnd1 reward valid a2 x y Hc cand Hr Hv next Hup].
  destruct (chooseAction_returns (ep_agent s) (ep_rng s) x y) as (act0 & E & _).
  fold x y in E. rewrite E in Hc. injection Hc as <- <- <-.
  destruct (updateQValue_table _ _ _ _ _ _ Hup) as (e & Hst & _ & Hget).
  pose proof (grows_update _ _ _ _ _ _ Hup) as Hg2.
  pose proof (grows_init (ep_agent s) (getStateKey x y)) as Hg1.
  cbn [ep_agent ep_path]. apply Forall_app. split.
  - rewrite Forall_forall. intros p Hin. destruct (Hpath p Hin) as [-> | Hp].
    + apply (has_state_grows _ _ _ Hg2). unfold has_state. cbn [pos_x pos_y].
      fold x y. destruct (init_get_self (ep_agent s) (getStateKey x y)) as [e0 ->].
      discriminate.
    + apply (has_state_grows _ _ _ Hg2), (has_state_grows _ _ _ Hg1), Hp.
  - constructor; [|constructor]. unfold has_state. cbn [pos_x pos_y].
    rewrite Hget.
    destruct (String.eqb (getStateKey x y)
                (getStateKey (pos_x next) (pos_y next))); [discriminate|].
    match goal with
    | |- getQValues (initializeQValues ?b ?k) ?k <> None =>
        destruct (init_get_self b k) as [e1 ->]
    end.
    discriminate.
Qed.

Lemma episode_states maze goalPos n s ok s' :
  episode maze goalPos n s ok s' ->
  (Forall (has_state (ep_agent s)) (ep_path s) ->
   Forall (has_state (ep_agent s')) (ep_path s')) /\
  (n <> O ->
   (forall p, In p (ep_path s) ->
              p = mkPos (ep_x s) (ep_y s) \/ has_state (ep_agent s) p) ->
   Forall (has_state (ep_agent s')) (ep_path s')).
Proof.
  induction 1 as [s | n s s' H Hg | n s s' ok s'' H Hg Hep IH].
  - split; [auto | congruence].
  - split; intros; eapply iteration_states; eauto.
    intros p Hp. right. rewrite Forall_forall in H0. auto.
  - destruct IH as [IH _].
    split; intros; apply IH; eapply iteration_states; eauto.
    intros p Hp. right. rewrite Forall_forall in H0. auto.
Qed.

(** X2. After an episode of at least one step, every position of the
    returned path has an entry in the table: the states the agent walked
    through can all be looked up with [getQValues]. *)
Theorem runEpisode_path_states (a : agent) (rnd : rng) (maze : jsarray (jsarray Z))
    (startPos goalPos : Position) (maxSteps : Z) :
  1 <= maxSteps ->
  run_post (runEpisode a rnd maze startPos goalPos maxSteps)
    (fun out =>
       Forall (fun p => getQValues (snd (fst out))
                          (getStateKey (pos_x p) (pos_y p)) <> None)
              (path (fst (fst out))))
    (~ rows_ok a maze).
Proof.
  intros Hmax. rewrite runEpisode_initial.
  pose proof (episode_loop_spec maze goalPos (Z.to_nat maxSteps)
                (initial a rnd startPos)) as Hspec.
  destruct (episode_loop _ _ _ _) as [[[res a'] rnd']| |]; simpl in *; auto.
  destruct Hspec as (s' & Hep & -> & -> & _).
  destruct (episode_states _ _ _ _ _ _ Hep) as [_ Hst]. simpl.
  apply Hst; [lia|].
  intros p [<-|[]]. left. simpl. symmetry. apply pos_eta.
Qed.

(** ** Reward totals *)

Lemma episode_rewards maze goalPos n s ok s' :
  episode maze goalPos n s ok s' ->
  let k := ep_steps s' - ep_steps s in
  let r := ep_totalReward s' - ep_totalReward s in
  0 <= k <= Z.of_nat n /\
  (ok = false -> -10 * k <= r <= - k) /\
  (ok = true ->
   1 <= k /\ r <= 101 - k /\
   (~ at_goal goalPos s \/ 2 <= k -> 110 - 10 * k <= r)).
Proof.
  induction 1 as [s | n s s' Hit Hg | n s s' ok s'' Hit Hg Hep IH]; cbv zeta.
  - split; [lia|]. split; [lia | discriminate].
  - destruct (iteration_inv _ _ _ _ Hit)
      as (next & reward & _ & Hn & Hs & Hr & _ & Hcase).
    split; [lia|]. split; [discriminate|]. intros _.
    apply at_goal_pos in Hg.
    destruct Hcase as [[Hnext ->] | [_ [[-> _] | [_ Hne]]]].
    + split; [lia|]. split; [lia|]. intros [Hno | Hk]; [|lia].
      exfalso. apply Hno. apply at_goal_pos. congruence.
    + lia.
    + congruence.
  - destruct (iteration_inv _ _ _ _ Hit)
      as (next & reward & _ & Hn & Hs & Hr & _ & Hcase).
    cbv zeta in IH. destruct IH as (Hk & Hf & Ht).
    assert (Hrew : reward = -10 \/ reward = -1).
    { destruct Hcase as [[_ ->] | [_ [[_ Hnext] | [-> _]]]]; auto.
      exfalso. apply Hg. apply at_goal_pos. congruence. }
    split; [lia|]. split.
    + intros Hok. specialize (Hf Hok). lia.
    + intros Hok. destruct (Ht Hok) as (H1 & H2 & H3).
      specialize (H3 (or_introl Hg)). lia.
Qed.

(** X3. What an episode can earn.  A failed episode of [steps] steps totals
    between [-10 * steps] and [-steps].  A successful one takes at least one
    step and at most [maxSteps], totals at most [101 - steps], and, when the
    start is not the goal, at least [110 - 10 * steps]: its last move earns
    the +100 and every earlier one costs 1 or 10. *)
Theorem runEpisode_reward_bounds (a : agent) (rnd : rng) (maze : jsarray (jsarray Z))
    (startPos goalPos : Position) (maxSteps : Z) :
  run_post (runEpisode a rnd maze startPos goalPos maxSteps)
    (fun out =>
       let res := fst (fst out) in
       (success res = false ->
        -10 * steps res <= totalReward res <= - steps res) /\
       (success res = true ->
        1 <= steps res <= maxSteps /\
        totalReward res <= 101 - steps res /\
        (startPos <> goalPos -> 110 - 10 * steps res <= totalReward res)))
    (~ rows_ok a maze).
Proof.
  rewrite runEpisode_initial.
  pose proof (episode_loop_spec maze goalPos (Z.to_nat maxSteps)
                (initial a rnd startPos)) as Hspec.
  destruct (episode_loop _ _ _ _) as [[[res a'] rnd']| |];
    cbn [run_post fst snd] in *; auto.
  destruct Hspec as (s' & Hep & -> & _).
  destruct (episode_rewards _ _ _ _ _ _ Hep) as (Hk & Hf & Ht).
  cbn [result_of success steps totalReward initial ep_steps ep_totalReward] in *.
  cbv zeta. cbn [result_of success steps totalReward].
  split.
  - intros Hok. specialize (Hf Hok). lia.
  - intros Hok. destruct (Ht Hok) as (H1 & H2 & H3). split; [lia|]. split; [lia|].
    intros Hne.
    assert (Hno : ~ at_goal goalPos (initial a rnd startPos)).
    { intros Hat. apply at_goal_pos in Hat. simpl in Hat. rewrite pos_eta in Hat.
      contradiction. }
    specialize (H3 (or_introl Hno)). lia.
Qed.

(** ** The path is a walk *)

Lemma getNextPosition_step x y action :
  one_step (mkPos x y) (getNextPosition x y action).
Proof.
  unfold one_step, getNextPosition.
  repeat match goal with
         | |- context [if ?b then _ else _] => destruct b
         end; simpl; lia.
Qed.

Lemma walk_app p l q :
  walk p l -> one_step (last l p) q -> walk p (l ++ [q]).
Proof.
  revert p. induction l as [|r l IH]; intros p Hw Hs; cbn [walk app] in *.
  - auto.
  - destruct Hw as [H1 H2]. split; [exact H1|]. apply IH; [exact H2|].
    rewrite last_cons in Hs. exact Hs.
Qed.

Lemma iteration_one_step maze goalPos s s' :
  iteration maze goalPos s s' ->
  ep_path s' = ep_path s ++ [mkPos (ep_x s') (ep_y s')] /\
  one_step (mkPos (ep_x s) (ep_y s)) (mkPos (ep_x s') (ep_y s')).
Proof.
  intros H.
  destruct H as [s action a1 rnd1 reward valid a2 x y Hc cand Hr Hv next Hup].
  cbn [ep_path ep_x ep_y]. split; [reflexivity|].
  rewrite pos_eta. subst next. destruct valid.
  - apply getNextPosition_step.
  - unfold one_step. simpl. lia.
Qed.

Lemma episode_walk maze goalPos n s ok s' p0 l :
  episode maze goalPos n s ok s' ->
  ep_path s = p0 :: l -> walk p0 l -> last l p0 = mkPos (ep_x s) (ep_y s) ->
  exists l', ep_path s' = p0 :: l' /\ walk p0 l' /\
             last l' p0 = mkPos (ep_x s') (ep_y s').
Proof.
  intros Hep. revert l.
  induction Hep as [s | n s s' Hit Hg | n s s' ok s'' Hit Hg Hep IH];
    intros l Hp Hw Hl.
  - eauto.
  - destruct (iteration_one_step _ _ _ _ Hit) as [Hp' Hs].
    exists (l ++ [mkPos (ep_x s') (ep_y s')]). split; [|split].
    + rewrite Hp', Hp. reflexivity.
    + apply walk_app; [exact Hw | rewrite Hl; exact Hs].
    + apply last_last.
  - destruct (iteration_one_step _ _ _ _ Hit) as [Hp' Hs].
    apply (IH (l ++ [mkPos (ep_x s') (ep_y s')])).
    + rewrite Hp', Hp. reflexivity.
    + apply walk_app; [exact Hw | rewrite Hl; exact Hs].
    + apply last_last.
Qed.

(** X4. The returned path is a walk from the start: it begins with the start
    position, and every later entry repeats the entry before it or lies one
    cell up, right, down or left of it. *)
Theorem runEpisode_path_walk (a : agent) (rnd : rng) (maze : jsarray (jsarray Z))
    (startPos goalPos : Position) (maxSteps : Z) :
  run_post (runEpisode a rnd maze startPos goalPos maxSteps)
    (fun out =>
       exists tail, path (fst (fst out)) = startPos :: tail /\ walk startPos tail)
    (~ rows_ok a maze).
Proof.
  rewrite runEpisode_initial.
  pose proof (episode_loop_spec maze goalPos (Z.to_nat maxSteps)
                (initial a rnd startPos)) as Hspec.
  destruct (episode_loop _ _ _ _) as [[[res a'] rnd']| |]; simpl in *; auto.
  destruct Hspec as (s' & Hep & -> & _).
  destruct (episode_walk _ _ _ _ _ _ startPos [] Hep) as (l' & Hp & Hw & _).
  - reflexivity.
  - exact I.
  - simpl. symmetry. apply pos_eta.
  - exists l'. auto.
Qed.

(** ** State keys *)

Lemma string_of_Z_inj x y : string_of_Z x = string_of_Z y -> x = y.
Proof.
  unfold string_of_Z. intros H.
  assert (Hnil : forall z, Z.to_int z <> Decimal.Pos Decimal.Nil /\
                           Z.to_int z <> Decimal.Neg Decimal.Nil).
  { intros [|p|p]; simpl; split; try discriminate; intros [= E];
      exact (DecimalPos.Unsigned.to_uint_nonnil p E). }
  assert (E : Some (Z.to_int x) = Some (Z.to_int y)).
  { rewrite <- (NilZero.isi (Z.to_int x)), <- (NilZero.isi (Z.to_int y));
      try apply Hnil. rewrite H. reflexivity. }
  injection E as E. rewrite <- (DecimalZ.of_to x), <- (DecimalZ.of_to y), E.
  reflexivity.
Qed.

Lemma uint_no_comma d : ~ In ","%char (list_ascii_of_string (NilEmpty.string_of_uint d)).
Proof.
  induction d; simpl; intros H; [exact H | ..];
    destruct H as [H|H]; try discriminate; auto.
Qed.

Lemma string_of_Z_no_comma z : ~ In ","%char (list_ascii_of_string (string_of_Z z)).
Proof.
  unfold string_of_Z.
  assert (Hu : forall d, ~ In ","%char (list_ascii_of_string (NilZero.string_of_uint d))).
  { intros d. unfold NilZero.string_of_uint. destruct d; try apply uint_no_comma.
    simpl. intros [H|[]]. discriminate. }
  destruct (Z.to_int z) as [d|d]; simpl.
  - apply Hu.
  - intros [H|H]; [discriminate | exact (Hu d H)].
Qed.

Lemma split_at_comma (s1 s2 t1 t2 : string) :
  ~ In ","%char (list_ascii_of_string s1) ->
  ~ In ","%char (list_ascii_of_string s2) ->
  (s1 ++ String "," t1 = s2 ++ String "," t2)%string ->
  s1 = s2 /\ t1 = t2.
Proof.
  revert s2. induction s1 as [|c s1 IH]; intros [|c' s2] H1 H2 E; simpl in *.
  - injection E as ->. auto.
  - injection E as <- _. exfalso. apply H2. auto.
  - injection E as -> _. exfalso. apply H1. auto.
  - injection E as <- E. destruct (IH s2) as [-> ->]; auto.
Qed.

(** X5. Two positions share a state key exactly when they are the same
    position: the table never merges the Q-values of two cells. *)
Theorem getStateKey_injective (x y x' y' : Z) :
  getStateKey x y = getStateKey x' y' <-> x = x' /\ y = y'.
Proof.
  split.
  - unfold getStateKey. intros E.
    apply split_at_comma in E; try apply string_of_Z_no_comma.
    destruct E as [E1 E2]. split; apply string_of_Z_inj; assumption.
  - intros [-> ->]. reflexivity.
Qed.

(** ** Bounded Q-values *)








Section Band.

Variables alpha gamma lo hi : Q.
Hypothesis alpha_lo : (0 <= alpha)%Q.
Hypothesis alpha_hi : (alpha <= 1)%Q.
Hypothesis gamma_lo : (0 <= gamma)%Q.
Hypothesis lo_neg : (lo <= 0)%Q.
Hypothesis hi_pos : (0 <= hi)%Q.
Hypothesis lo_closed : (lo <= -10 + gamma * lo)%Q.
Hypothesis hi_closed : (100 + gamma * hi <= hi)%Q.




End Band.


(** ** One entry per state *)


Lemma map_set_fresh {V} (m : list (string * V)) k v :
  map_has m k = false -> map_set m k v = m ++ [(k, v)].
Proof.
  unfold map_has. induction m as [|[k' v'] t IH]; simpl; [reflexivity|].
  destruct (String.eqb k' k); [discriminate|]. intros H. rewrite IH; auto.
Qed.

Lemma map_set_NoDup {V} (m : list (string * V)) k v :
  NoDup (map fst m) -> NoDup (map fst (map_set m k v)).
Proof.
  intros Hnd. rewrite map_set_keys. destruct (map_has m k) eqn:E; [exact Hnd|].
  apply NoDup_app; [exact Hnd | repeat constructor; intros [] |].
  intros k' Hin [<-|[]]. apply map_has_keys in Hin. congruence.
Qed.

Lemma keys_distinct_init a k : keys_distinct a -> keys_distinct (initializeQValues a k).
Proof.
  unfold keys_distinct, initializeQValues. intros H.
  destruct (negb _); simpl; [apply map_set_NoDup|]; exact H.
Qed.

Lemma keys_distinct_update a state act reward nextState a' :
  keys_distinct a -> updateQValue a state act reward nextState = Ret a' ->
  keys_distinct a'.
Proof.
  intros H Hup.
  destruct (updateQValue_eq a state act reward nextState) as (qS & _ & E).
  rewrite E in Hup. injection Hup as <-. unfold keys_distinct. simpl.
  apply map_set_NoDup. apply keys_distinct_init, keys_distinct_init, H.
Qed.

Lemma reachable_keys a : reachable a -> keys_distinct a.
Proof.
  induction 1 as [n lr df er a Hnew
                 | a rnd x y act a' rnd' _ IH Hc
                 | a state act reward nextState a' _ IH Hact Hup
                 | a rnd maze startPos goalPos maxSteps res a' rnd' _ IH Hrnd Hrun
                 | a lr df er _ IH
                 | a _ IH].
  - injection Hnew as <-. constructor.
  - destruct (chooseAction_returns a rnd x y) as (act0 & E & _).
    rewrite E in Hc. injection Hc as _ <- _. apply keys_distinct_init, IH.
  - eapply keys_distinct_update; eauto.
  - destruct (runEpisode_episode _ _ _ _ _ _ _ _ _ Hrun) as (s' & Hep & _ & -> & _).
    apply (episode_keeps keys_distinct _ _ _ _ _ _) in Hep; auto.
    + intros a0 k. apply keys_distinct_init.
    + intros a0 state act reward nextState a1. apply keys_distinct_update.
  - exact IH.
  - constructor.
Qed.


(** ** Exporting the table *)

Lemma export_fold (t : list (string * QTableEntry)) : forall acc,
  NoDup (map fst (acc ++ t)) ->
  fold_left (fun exported kv => map_set exported (fst kv) (snd kv)) t acc = acc ++ t.
Proof.
  induction t as [|[k e] t IH]; intros acc Hnd; cbn [fold_left fst snd].
  - rewrite app_nil_r. reflexivity.
  - assert (Hfresh : map_has acc k = false).
    { destruct (map_has acc k) eqn:E; [|reflexivity]. exfalso.
      apply map_has_keys in E. rewrite map_app in Hnd. simpl in Hnd.
      apply NoDup_remove_2 in Hnd. apply Hnd. apply in_or_app. left. exact E. }
    rewrite (map_set_fresh _ _ _ Hfresh), IH; rewrite <- app_assoc; [reflexivity|].
    exact Hnd.
Qed.

(** X7. [exportQTable] of an agent built by the public operations is a
    faithful copy of its table: it holds as many states as
    [getStatesExplored] counts, and looking a state up in the export gives
    what [getQValues] gives. *)
Theorem exportQTable_faithful (a : agent) :
  reachable a ->
  Z.of_nat (List.length (exportQTable a)) = getStatesExplored a /\
  forall stateKey, map_get (exportQTable a) stateKey = getQValues a stateKey.
Proof.
  intros Hr. pose proof (reachable_keys a Hr) as Hnd.
  assert (E : exportQTable a = qTable a).
  { unfold exportQTable. rewrite export_fold; [reflexivity | exact Hnd]. }
  rewrite E. split; reflexivity.
Qed.

(** X8. [reset] brings an agent built by the public operations back to the
    constructor's result for its current size and rates: the parameters
    set through [updateParameters] survive, nothing else does, and training
    after a reset is training a fresh agent. *)
Theorem reset_is_fresh (a : agent) :
  reachable a ->
  new (mazeSize a) (learningRate a) (discountFactor a) (explorationRate a)
  = Ret (reset a) /\
  getStatesExplored (reset a) = 0 /\ getTotalQValues (reset a) = 0 /\
  getMaxQValue (reset a) = of_Z 0.
Proof.
  intros Hr. destruct (reachable_inv a Hr) as [Ha _].
  unfold new, reset, with_table. rewrite Ha. repeat split.
Qed.

(** ** The reported maximum *)




(** ** What an episode leaves alone *)

Lemma updateQValue_fields a state act reward nextState a' :
  updateQValue a state act reward nextState = Ret a' ->
  learningRate a' = learningRate a /\ discountFactor a' = discountFactor a /\
  explorationRate a' = explorationRate a /\ mazeSize a' = mazeSize a /\
  actions a' = actions a.
Proof.
  intros Hup.
  destruct (updateQValue_eq a state act reward nextState) as (qS & _ & E).
  rewrite E in Hup. injection Hup as <-. cbn [with_table learningRate discountFactor
    explorationRate mazeSize actions].
  destruct (init_fields (initializeQValues a state) nextState)
    as (-> & -> & -> & -> & ->).
  apply init_fields.
Qed.

(** X17. An episode changes the table and nothing else: learning rate,
    discount factor, exploration rate, maze size and the action list of the
    agent are after [runEpisode] what they were before. *)
Theorem runEpisode_keeps_parameters (a : agent) (rnd : rng)
    (maze : jsarray (jsarray Z)) (startPos goalPos : Position) (maxSteps : Z) :
  run_post (runEpisode a rnd maze startPos goalPos maxSteps)
    (fun out =>
       let a' := snd (fst out) in
       learningRate a' = learningRate a /\ discountFactor a' = discountFactor a /\
       explorationRate a' = explorationRate a /\ mazeSize a' = mazeSize a /\
       actions a' = actions a)
    (~ rows_ok a maze).
Proof.
  rewrite runEpisode_initial.
  pose proof (episode_loop_spec maze goalPos (Z.to_nat maxSteps)
                (initial a rnd startPos)) as Hspec.
  destruct (episode_loop _ _ _ _) as [[[res a'] rnd']| |]; simpl in *; auto.
  destruct Hspec as (s' & Hep & _ & -> & _).
  apply (episode_keeps
           (fun b => learningRate b = learningRate a /\
                     discountFactor b = discountFactor a /\
                     explorationRate b = explorationRate a /\
                     mazeSize b = mazeSize a /\ actions b = actions a)
           _ _ _ _ _ _) in Hep.
  - exact Hep.
  - intros a0 k (<- & <- & <- & <- & <-). apply init_fields.
  - intros a0 state act reward nextState a1 (<- & <- & <- & <- & <-) Hup.
    eapply updateQValue_fields; eauto.
  - simpl. repeat split.
Qed.

(** ** The exploration branch *)

(** X24. Exploration is uniform over the four actions and blind to the
    table.  When the first draw is below the exploration rate (as it always
    is for a rate of 1 or more), [chooseAction] returns the action number
    [floor(4 * r')] in the order up, right, down, left, where [r'] is the
    second draw: each action has a quarter of [[0, 1)].  The table only
    gets the entry of the current state, and two draws are consumed. *)
Theorem chooseAction_explores (a : agent) (rnd : rng) (x y : Z) :
  let r := fst (draw rnd) in
  let r' := fst (draw (snd (draw rnd))) in
  actions a = four_actions -> random_ok rnd ->
  (forall e, explorationRate a = Fin e -> (1 <= e)%Q ->
             nlt (Fin r) (explorationRate a) = true) /\
  (nlt (Fin r) (explorationRate a) = true ->
   exists i act,
     0 <= i < 4 /\
     (inject_Z i <= r' * 4)%Q /\ (r' * 4 < inject_Z (i + 1))%Q /\
     nth_error four_actions (Z.to_nat i) = Some act /\
     chooseAction a rnd x y
     = Ret (act, initializeQValues a (getStateKey x y), snd (draw (snd (draw rnd))))).
Proof.
  intros r r' Ha Hrnd. subst r r'. unfold draw. cbn [fst snd]. split.
  - intros e -> He. unfold nlt. cbn [ngt]. apply Qltb_true.
    destruct (Hrnd O) as [_ H1]. lra.
  - intros Hlt.
    destruct (Hrnd 1%nat) as [H0 H1].
    pose proof (floor_mul_range (rnd 1%nat) 4 H0 H1 ltac:(lia)) as Hi.
    exists (floor_mul (rnd 1%nat) 4).
    unfold chooseAction, draw. cbn [fst snd].
    destruct (init_fields a (getStateKey x y)) as (_ & _ & E3 & _ & E5).
    rewrite E3, E5, Ha, Hlt.
    change (Z.of_nat (List.length four_actions)) with 4.
    unfold action_at.
    replace (floor_mul (rnd 1%nat) 4 <? 0) with false
      by (symmetry; apply Z.ltb_ge; lia).
    assert (Hn : (Z.to_nat (floor_mul (rnd 1%nat) 4) < List.length four_actions)%nat)
      by (simpl; lia).
    eexists. split; [exact Hi|]. split; [|split; [|split]].
    + unfold floor_mul. change (inject_Z 4) with 4%Q. apply Qfloor_le.
    + unfold floor_mul. change (inject_Z 4) with 4%Q. apply Qlt_floor.
    + apply nth_error_nth'. exact Hn.
    + reflexivity.
Qed.

End AgentMore.

(* ================================================================== *)
(** * Further facts on concrete inputs: the agent *)
(* ================================================================== *)

Module AgentMoreExamples.

Import QLearningAgent AgentSpec AgentSpecMore JsFacts AgentFacts Examples.
Import AgentExamples AgentMore.


Lemma runEpisode_path_states_witness :
  1 <= 4 /\
  run_post (runEpisode (greedy 2) half boxed (mkPos 0 0) (mkPos 1 1) 4)
    (fun out =>
       Forall (fun p => getQValues (snd (fst out))
                          (getStateKey (pos_x p) (pos_y p)) <> None)
              (path (fst (fst out))))
    (~ rows_ok (greedy 2) boxed).
Proof.
  split; [lia|].
  apply (runEpisode_path_states (greedy 2) half boxed (mkPos 0 0) (mkPos 1 1) 4). lia.
Defined.


Lemma exportQTable_faithful_witness :
  Z.of_nat (List.length (exportQTable bumped)) = getStatesExplored bumped /\
  forall stateKey, map_get (exportQTable bumped) stateKey = getQValues bumped stateKey.
Proof. exact (exportQTable_faithful bumped bumped_reachable). Defined.

Lemma reset_is_fresh_witness :
  new (mazeSize bumped) (learningRate bumped) (discountFactor bumped)
      (explorationRate bumped) = Ret (reset bumped) /\
  getStatesExplored (reset bumped) = 0 /\ getTotalQValues (reset bumped) = 0 /\
  getMaxQValue (reset bumped) = of_Z 0.
Proof. exact (reset_is_fresh bumped bumped_reachable). Defined.


Lemma chooseAction_explores_witness :
  let a := updateParameters (greedy 2) None None (Some (of_Z 1)) in
  let r := fst (draw half) in
  let r' := fst (draw (snd (draw half))) in
  (forall e, explorationRate a = Fin e -> (1 <= e)%Q ->
             nlt (Fin r) (explorationRate a) = true) /\
  (nlt (Fin r) (explorationRate a) = true ->
   exists i act,
     0 <= i < 4 /\
     (inject_Z i <= r' * 4)%Q /\ (r' * 4 < inject_Z (i + 1))%Q /\
     nth_error four_actions (Z.to_nat i) = Some act /\
     chooseAction a half 0 0
     = Ret (act, initializeQValues a (getStateKey 0 0), snd (draw (snd (draw half))))).
Proof.
  apply (chooseAction_explores (updateParameters (greedy 2) None None (Some (of_Z 1)))
           half 0 0).
  - reflexivity.
  - exact half_ok.
Defined.

End AgentMoreExamples.

(* ================================================================== *)
(** * The maze generator: further properties *)
(* ================================================================== *)

Module MazeMore.

Import MazeGenerator MazeSpec MazeSpecMore ArrayFacts JsFacts MazeFacts.

(** ** Cells change only by being opened *)

Lemma get2_range {A} n (m : jsarray (jsarray A)) y x v :
  full2 n m -> get2 m y x = Ret (Some v) -> 0 <= y < n /\ 0 <= x < n.
Proof.
  intros [Hlen Hrows] H. unfold get2 in H.
  destruct (aget m y) as [row|] eqn:Erow; [|discriminate].
  injection H as H.
  assert (Hy : 0 <= y < n).
  { unfold aget in Erow. destruct (y <? 0) eqn:Ey; [discriminate|].
    destruct (nth_error m (Z.to_nat y)) eqn:En; [|discriminate].
    assert (Z.to_nat y < List.length m)%nat by (apply nth_error_Some; congruence).
    lia. }
  split; [exact Hy|].
  destruct (Hrows y Hy) as (row' & Erow' & Hlen' & _).
  rewrite Erow in Erow'. injection Erow' as <-.
  unfold aget in H. destruct (x <? 0) eqn:Ex; [discriminate|].
  destruct (nth_error row (Z.to_nat x)) eqn:En; [|discriminate].
  assert (Z.to_nat x < List.length row)%nat by (apply nth_error_Some; congruence).
  lia.
Qed.

Lemma opened_refl R m : opened R m m.
Proof. intros x y. left. reflexivity. Qed.

Lemma opened_trans R m1 m2 m3 : opened R m1 m2 -> opened R m2 m3 -> opened R m1 m3.
Proof.
  intros H1 H2 x y. destruct (H2 x y) as [E2 | H]; [|right; exact H].
  rewrite E2. destruct (H1 x y) as [E1 | [HR Ho]]; [left; exact E1|].
  right. split; [exact HR|]. unfold open_at. rewrite E2. exact Ho.
Qed.

Lemma opened_weaken (R R' : Z -> Z -> Prop) m m' :
  (forall x y, R x y -> R' x y) -> opened R m m' -> opened R' m m'.
Proof.
  intros HR H x y. destruct (H x y) as [E | [Hr Ho]]; [left; exact E|].
  right. split; [apply HR, Hr | exact Ho].
Qed.

Lemma opened_opens R m m' : opened R m m' -> opens m m'.
Proof.
  intros H x y Ho. destruct (H x y) as [E | [_ Ho']]; [|exact Ho'].
  unfold open_at. rewrite E. exact Ho.
Qed.

Lemma binary_opened R m m' : binary m -> opened R m m' -> binary m'.
Proof.
  intros Hb H x y v Hv. destruct (H x y) as [E | [_ Ho]].
  - rewrite E in Hv. eapply Hb; eauto.
  - unfold open_at in Ho. rewrite Ho in Hv. injection Hv as <-. left. reflexivity.
Qed.

Lemma set2_opened n (R : Z -> Z -> Prop) (m : grid) y x :
  full2 n m -> 0 <= y < n -> 0 <= x < n -> R x y ->
  exists m', set2 m y x 0 = Ret m' /\ full2 n m' /\ opened R m m' /\ open_at m' x y.
Proof.
  intros Hf Hy Hx HR.
  destruct (set2_full n m y x 0 Hf Hy Hx) as (m' & E & Hf' & Hget).
  assert (Ho : open_at m' x y).
  { unfold open_at. rewrite Hget, !Z.eqb_refl. reflexivity. }
  exists m'. split; [exact E|]. split; [exact Hf'|]. split; [|exact Ho].
  intros x' y'. destruct ((y' =? y) && (x' =? x)) eqn:Eb.
  - right. apply andb_true_iff in Eb. destruct Eb as [E1 E2].
    apply Z.eqb_eq in E1, E2. subst. split; assumption.
  - left. rewrite Hget, Eb. reflexivity.
Qed.

(** ** Wall-density relaxation *)

Lemma relax_cell_opened this y x s :
  1 <= y < size this - 1 -> 1 <= x < size this - 1 ->
  shaped this s ->
  exists s', relax_cell this y x s = Ret s' /\ shaped this s' /\
             opened (relaxable this) (fst s) (fst s').
Proof.
  intros Hy Hx [Hf Hr]. destruct s as [m rnd]. simpl in Hf, Hr. unfold relax_cell.
  destruct (get2_full _ m y x Hf ltac:(lia) ltac:(lia)) as [c Hc]. rewrite Hc. simpl.
  destruct (c =? 0);
    [eexists; split; [reflexivity | split; [split; assumption | apply opened_refl]]|].
  destruct (near (startPosition this) x y) eqn:En1; simpl;
    [eexists; split; [reflexivity | split; [split; assumption | apply opened_refl]]|].
  destruct (near (goalPosition this) x y) eqn:En2; simpl;
    [eexists; split; [reflexivity | split; [split; assumption | apply opened_refl]]|].
  destruct (countAdjacentPaths_returns this m x y Hf) as [k Hk]. rewrite Hk. simpl.
  assert (Hr' : random_ok (fun n => rnd (S n))) by (apply (random_ok_tail rnd Hr)).
  destruct (Qltb _ _ && (k <? 3)).
  - destruct (set2_opened _ (relaxable this) m y x Hf ltac:(lia) ltac:(lia))
      as (m' & E & Hf' & Ho & _).
    { unfold relaxable, interior. repeat split; auto; lia. }
    rewrite E. simpl. eexists. split; [reflexivity|].
    split; [split; assumption | exact Ho].
  - eexists. split; [reflexivity|]. split; [split; assumption | apply opened_refl].
Qed.

Lemma applyWallDensityModification_opened this s :
  shaped this s ->
  exists s', applyWallDensityModification this s = Ret s' /\ shaped this s' /\
             opened (relaxable this) (fst s) (fst s').
Proof.
  intros Hs. unfold applyWallDensityModification.
  destruct (for_range_inv
              (fun _ s' => shaped this s' /\ opened (relaxable this) (fst s) (fst s'))
              (fun y => for_range 1 (size this - 1) (relax_cell this y))
              1 (size this - 1) s) as (s' & E & H'); eauto.
  - intros y s0 Hy [Hs0 Ho0].
    destruct (for_range_inv
                (fun _ s' => shaped this s' /\ opened (relaxable this) (fst s) (fst s'))
                (relax_cell this y) 1 (size this - 1) s0) as (s1 & E1 & H1); eauto.
    intros x s2 Hx [Hs2 Ho2].
    destruct (relax_cell_opened this y x s2 Hy Hx Hs2) as (s3 & E3 & Hs3 & Ho3).
    exists s3. split; [exact E3|]. split; [exact Hs3|].
    eapply opened_trans; eauto.
  - split; [exact Hs | apply opened_refl].
Qed.

(** ** Connectivity boost *)

Lemma connect_once_opened this m0 i s :
  0 <= i < Qfloor (inject_Z (size this) * (1 # 10)) ->
  shaped this s /\ opened (interior this) m0 (fst s) ->
  exists s', connect_once this i s = Ret s' /\ shaped this s' /\
             opened (interior this) m0 (fst s').
Proof.
  intros Hi [[Hf Hr] Ho]. destruct s as [m rnd]. simpl in Hf, Hr, Ho.
  assert (Hsize : 10 <= size this) by (apply numConnections_pos; lia).
  unfold connect_once, draw.
  destruct (Hr 0%nat) as [Ha0 Ha1]. destruct (Hr 1%nat) as [Hb0 Hb1].
  pose proof (floor_mul_range _ (size this - 2) Ha0 Ha1 ltac:(lia)) as Hx.
  pose proof (floor_mul_range _ (size this - 2) Hb0 Hb1 ltac:(lia)) as Hy.
  set (x := floor_mul (rnd 0%nat) (size this - 2) + 1) in *.
  set (y := floor_mul (rnd 1%nat) (size this - 2) + 1) in *.
  assert (Hr2 : random_ok (fun n => rnd (S (S n)))) by (intros n; apply Hr).
  destruct (get2_full _ m y x Hf ltac:(lia) ltac:(lia)) as [c Hc]. rewrite Hc. simpl.
  destruct (c =? 1);
    [|eexists; split; [reflexivity | split; [split|]; simpl; assumption]].
  destruct (countAdjacentPaths_returns this m x y Hf) as [k Hk]. rewrite Hk. simpl.
  destruct (k >=? 2);
    [|eexists; split; [reflexivity | split; [split|]; simpl; assumption]].
  destruct (set2_opened _ (interior this) m y x Hf ltac:(lia) ltac:(lia))
    as (m' & E & Hf' & Ho' & _).
  { unfold interior. lia. }
  rewrite E. simpl. eexists. split; [reflexivity|].
  split; [split|]; simpl; auto.
  eapply opened_trans; eauto.
Qed.

Lemma ensureConnectivity_opened this s :
  shaped this s ->
  exists s', ensureConnectivity this s = Ret s' /\ shaped this s' /\
             opened (interior this) (fst s) (fst s').
Proof.
  intros Hs. unfold ensureConnectivity.
  destruct (for_range_inv
              (fun _ s' => shaped this s' /\ opened (interior this) (fst s) (fst s'))
              (connect_once this) 0 (Qfloor (inject_Z (size this) * (1 # 10))) s)
    as (s' & E & H'); eauto.
  - intros i s0 Hi Hs0. apply connect_once_opened; assumption.
  - split; [exact Hs | apply opened_refl].
Qed.

(** ** The backtracker *)

Lemma carve_body_opened this s s' :
  carve_inv this s -> carve_body this s = Ret s' ->
  opened (in_grid this) (cs_maze s) (cs_maze s').
Proof.
  intros (Hm & Hv & Hcur & Hst & Hr) H. unfold carve_body in H.
  destruct (find_neighbors_ok this (cs_visited s) (currentX s) (currentY s) Hv)
    as (l & El & Hl).
  rewrite El in H. cbn [bind] in H.
  destruct (0 <? Z.of_nat (List.length l)) eqn:Elen.
  - unfold draw in H. destruct (Hr O) as [H0 H1].
    pose proof (floor_mul_range _ (Z.of_nat (List.length l)) H0 H1 ltac:(lia)) as Hk.
    set (k := floor_mul (cs_rng s O) (Z.of_nat (List.length l))) in *.
    destruct (k <? 0) eqn:Ek; [lia|].
    destruct (nth_error l (Z.to_nat k)) as [nb|] eqn:Enb; [|discriminate].
    apply nth_error_In in Enb. rewrite Forall_forall in Hl.
    destruct (Hl nb Enb) as ([Hnx Hny] & Hp & Hwx & Hwy).
    destruct Hcur as [Hcx Hcy].
    destruct (set2_opened _ (in_grid this) (cs_maze s) (wallY nb) (wallX nb) Hm
                ltac:(lia) ltac:(lia)) as (m1 & E1 & Hm1 & Ho1 & _).
    { unfold in_grid. lia. }
    rewrite E1 in H. cbn [bind] in H.
    destruct (set2_opened _ (in_grid this) m1 (nb_y nb) (nb_x nb) Hm1 Hny Hnx)
      as (m2 & E2 & Hm2 & Ho2 & _).
    { unfold in_grid. lia. }
    rewrite E2 in H. cbn [bind] in H.
    destruct (set2 (cs_visited s) (nb_y nb) (nb_x nb) true) as [v1| |];
      cbn [bind] in H; try discriminate.
    injection H as <-. cbn [cs_maze]. eapply opened_trans; eauto.
  - destruct (cs_stack s) as [|top rest]; injection H as <-; apply opened_refl.
Qed.

Lemma carve_loop_opened this : forall fuel s s',
  carve_inv this s -> carve_loop fuel this s = Ret s' ->
  opened (in_grid this) (cs_maze s) (cs_maze s').
Proof.
  induction fuel as [|fuel IH]; intros s s' Hinv H; [discriminate|].
  destruct (carve_body_ok this s Hinv) as (s1 & E1 & Hinv1 & _).
  cbn [carve_loop] in H. rewrite E1 in H. cbn [bind] in H.
  pose proof (carve_body_opened this s s1 Hinv E1) as Ho1.
  destruct (cs_stack s1) as [|top rest].
  - injection H as <-. exact Ho1.
  - eapply opened_trans; [exact Ho1 | apply IH; assumption].
Qed.

(** ** The repair path *)

Lemma createPathToGoal_opened this m :
  standard this -> full2 (size this) m ->
  exists m', createPathToGoal this m = Ret m' /\ full2 (size this) m' /\
             opened (on_repair_path this) m m'.
Proof.
  intros (Hs & Hg & Hn) Hf. unfold createPathToGoal. rewrite Hs, Hg. simpl.
  set (n := size this) in *.
  set (R := on_repair_path this).
  assert (HR : forall x y, 0 <= x < n -> 0 <= y < n -> y = 0 \/ x = n - 1 -> R x y).
  { intros x y Hx Hy Hc. unfold R, on_repair_path, in_grid. fold n. auto. }
  destruct (for_range_inv (fun i m' => full2 n m' /\ opened R m m')
              (fun x m => set2 m 0 x 0) 0 (n - 1) m) as (m1 & E1 & Hf1 & Ho1).
  { intros i m0 Hi (Hf0 & Ho0).
    destruct (set2_opened n R m0 0 i Hf0 ltac:(lia) ltac:(lia))
      as (m' & E & Hf' & Ho' & _); [apply HR; lia|].
    exists m'. split; [exact E|]. split; [exact Hf'|]. eapply opened_trans; eauto. }
  { split; [exact Hf | apply opened_refl]. }
  rewrite E1. simpl. replace (Z.max 0 (n - 1)) with (n - 1) in * by lia.
  destruct (for_range_inv (fun i m' => full2 n m' /\ opened R m m')
              (fun y m => set2 m y (n - 1) 0) 0 (n - 1) m1) as (m2 & E2 & Hf2 & Ho2).
  { intros i m0 Hi (Hf0 & Ho0).
    destruct (set2_opened n R m0 i (n - 1) Hf0 ltac:(lia) ltac:(lia))
      as (m' & E & Hf' & Ho' & _); [apply HR; lia|].
    exists m'. split; [exact E|]. split; [exact Hf'|]. eapply opened_trans; eauto. }
  { split; assumption. }
  rewrite E2. simpl.
  destruct (set2_opened n R m2 (n - 1) (n - 1) Hf2 ltac:(lia) ltac:(lia))
    as (m3 & E3 & Hf3 & Ho3 & _); [apply HR; lia|].
  exists m3. split; [exact E3|]. split; [exact Hf3|]. eapply opened_trans; eauto.
Qed.

(** X10. [createPathToGoal] on a grid of the constructor's shape opens the
    whole top row and the whole rightmost column and leaves every other
    cell as it was; afterwards the goal is joined to the start. *)
Theorem createPathToGoal_exact (this : config) (m : grid) :
  standard this -> full2 (size this) m ->
  exists m',
    createPathToGoal this m = Ret m' /\ full2 (size this) m' /\
    (forall x y, on_repair_path this x y -> open_at m' x y) /\
    (forall x y, ~ on_repair_path this x y -> get2 m' y x = get2 m y x) /\
    reach this m' (pos_x (goalPosition this)) (pos_y (goalPosition this)).
Proof.
  intros Hstd Hf.
  destruct (createPathToGoal_opened this m Hstd Hf) as (m' & E & Hf' & Ho).
  destruct (createPathToGoal_ok this m Hstd Hf) as (m'' & E' & _ & _ & Hrow & Hcol).
  rewrite E in E'. injection E' as <-.
  exists m'. split; [exact E|]. split; [exact Hf'|]. split; [|split].
  - intros x y [[Hx Hy] [-> | ->]]; [apply Hrow, Hx | apply Hcol, Hy].
  - intros x y Hno. destruct (Ho x y) as [Eq | [HR _]]; [exact Eq | contradiction].
  - pose proof Hstd as (_ & Hg & _). rewrite Hg. simpl.
    apply L_reach; assumption.
Qed.

(** X11. The wall-density pass never closes a cell and changes no cell on
    the border or within two cells of the start or of the goal: whatever
    it changes is an interior cell away from both ends, and it opens
    it.  On a grid without holes it always returns. *)
Theorem applyWallDensityModification_region (this : config) (m : grid) (rnd : rng) :
  full2 (size this) m -> random_ok rnd ->
  exists m' rnd',
    applyWallDensityModification this (m, rnd) = Ret (m', rnd') /\
    full2 (size this) m' /\ random_ok rnd' /\
    (forall x y, open_at m x y -> open_at m' x y) /\
    (forall x y, get2 m' y x <> get2 m y x ->
                 relaxable this x y /\ open_at m' x y).
Proof.
  intros Hf Hr.
  destruct (applyWallDensityModification_opened this (m, rnd))
    as ([m' rnd'] & E & [Hf' Hr'] & Ho); [split; assumption|].
  simpl in Hf', Hr', Ho.
  exists m', rnd'. split; [exact E|]. split; [exact Hf'|]. split; [exact Hr'|].
  split.
  - apply (opened_opens _ _ _ Ho).
  - intros x y Hne. destruct (Ho x y) as [Eq | H]; [contradiction | exact H].
Qed.

Lemma numConnections_small (n : Z) :
  n < 10 -> Qfloor (inject_Z n * (1 # 10)) <= 0.
Proof.
  intros Hn. destruct (Z_lt_le_dec 0 (Qfloor (inject_Z n * (1 # 10)))) as [H|H].
  - apply numConnections_pos in H. lia.
  - exact H.
Qed.

(** X12. The connectivity pass never closes a cell and changes no cell on
    the border: whatever it changes is an interior cell, and it opens it.
    On a maze of size below 10 it makes no attempt at all: grid and random
    source come back untouched. *)
Theorem ensureConnectivity_region (this : config) (m : grid) (rnd : rng) :
  full2 (size this) m -> random_ok rnd ->
  (exists m' rnd',
      ensureConnectivity this (m, rnd) = Ret (m', rnd') /\
      full2 (size this) m' /\ random_ok rnd' /\
      (forall x y, open_at m x y -> open_at m' x y) /\
      (forall x y, get2 m' y x <> get2 m y x ->
                   interior this x y /\ open_at m' x y)) /\
  (size this < 10 -> ensureConnectivity this (m, rnd) = Ret (m, rnd)).
Proof.
  intros Hf Hr. split.
  - destruct (ensureConnectivity_opened this (m, rnd))
      as ([m' rnd'] & E & [Hf' Hr'] & Ho); [split; assumption|].
    simpl in Hf', Hr', Ho.
    exists m', rnd'. split; [exact E|]. split; [exact Hf'|]. split; [exact Hr'|].
    split.
    + apply (opened_opens _ _ _ Ho).
    + intros x y Hne. destruct (Ho x y) as [Eq | H]; [contradiction | exact H].
  - intros Hsmall. unfold ensureConnectivity, for_range.
    pose proof (numConnections_small (size this) Hsmall) as Hk.
    replace (Z.to_nat (Qfloor (inject_Z (size this) * (1 # 10)) - 0)) with O by lia.
    reflexivity.
Qed.

(** X13. [hasPath] decides reachability.  On any grid of the constructor's
    shape, with an iteration budget above the number of cells, the search
    returns; it answers true exactly when the goal is joined to the start
    by OPEN cells of the grid, stepping up, right, down or left, and false
    exactly when it is not. *)
Theorem hasPath_decides (this : config) (m : grid) (fuel : nat) :
  standard this -> full2 (size this) m ->
  (Z.to_nat (size this * size this) < fuel)%nat ->
  (hasPath fuel this m = Ret true <->
   reach this m (pos_x (goalPosition this)) (pos_y (goalPosition this))) /\
  (hasPath fuel this m = Ret false <->
   ~ reach this m (pos_x (goalPosition this)) (pos_y (goalPosition this))).
Proof.
  intros Hstd Hf Hfuel.
  destruct (hasPath_ok this m fuel Hstd Hf Hfuel) as (b & E & Hb).
  destruct Hstd as (_ & Hg & _). rewrite Hg. simpl. rewrite E.
  destruct b.
  - split; split.
    + intros _. apply Hb. reflexivity.
    + intros _. reflexivity.
    + intros H. discriminate H.
    + intros Hno. exfalso. apply Hno, Hb. reflexivity.
  - split; split.
    + intros H. discriminate H.
    + intros Hr. apply Hb in Hr. discriminate Hr.
    + intros _ Hr. apply Hb in Hr. discriminate Hr.
    + intros _. reflexivity.
Qed.

(** ** The backtracker visits every room *)

Lemma reach_mono this m m' x y : opens m m' -> reach this m x y -> reach this m' x y.
Proof.
  intros Ho. induction 1 as [|x y x' y' _ IH Ha Hg Hopen].
  - apply reach_start.
  - eapply reach_step; eauto.
Qed.

Lemma neighbors_fold_spec this visited cx cy dirs :
  full2 (size this) visited -> incl dirs directions -> forall acc,
  Forall (dfs_neighbor this visited cx cy) acc ->
  exists l,
    fold_left
      (fun acc dir =>
         neighbors <- acc ;;
         let neighborX := cx + fst dir * 2 in
         let neighborY := cy + snd dir * 2 in
         let wx := cx + fst dir in
         let wy := cy + snd dir in
         if isValidPosition this neighborX neighborY then
           v <- get2 visited neighborY neighborX ;;
           Ret (if not_visited v
                then neighbors ++ [mkNeighbor neighborX neighborY wx wy]
                else neighbors)
         else Ret neighbors)
      dirs (Ret acc) = Ret l /\
    Forall (dfs_neighbor this visited cx cy) l /\
    (l = [] ->
     acc = [] /\
     forall d, In d dirs -> in_grid this (cx + fst d * 2) (cy + snd d * 2) ->
               visited_at visited (cx + fst d * 2) (cy + snd d * 2)).
Proof.
  intros Hf. induction dirs as [|d dirs IH]; intros Hincl acc Hacc.
  - exists acc. split; [reflexivity|]. split; [exact Hacc|].
    intros ->. split; [reflexivity | intros d []].
  - assert (Hd : In d directions) by (apply Hincl; left; reflexivity).
    assert (Hincl' : incl dirs directions)
      by (intros e He; apply Hincl; right; exact He).
    cbn [fold_left bind].
    destruct (isValidPosition this (cx + fst d * 2) (cy + snd d * 2)) eqn:E.
    + apply isValidPosition_true in E. pose proof E as [Hx Hy].
      destruct (get2_full _ visited _ _ Hf Hy Hx) as [b Hb]. rewrite Hb. cbn [bind].
      destruct b; cbn [not_visited negb].
      * destruct (IH Hincl' acc Hacc) as (l & El & Hl & Hnil).
        exists l. split; [exact El|]. split; [exact Hl|].
        intros Hl0. destruct (Hnil Hl0) as [Ha Hall]. split; [exact Ha|].
        intros e [<- | He] Hg; [exact Hb | apply Hall; assumption].
      * destruct (IH Hincl' (acc ++ [mkNeighbor (cx + fst d * 2) (cy + snd d * 2)
                                        (cx + fst d) (cy + snd d)]))
          as (l & El & Hl & Hnil).
        { apply Forall_app. split; [exact Hacc|]. constructor; [|constructor].
          exists d. split; [exact Hd|]. split; [reflexivity|].
          cbn [nb_x nb_y]. split; [exact E|].
          unfold pending. cbn [fst snd]. rewrite Hb. reflexivity. }
        exists l. split; [exact El|]. split; [exact Hl|].
        intros Hl0. destruct (Hnil Hl0) as [Ha _].
        destruct acc; discriminate Ha.
    + destruct (IH Hincl' acc Hacc) as (l & El & Hl & Hnil).
      exists l. split; [exact El|]. split; [exact Hl|].
      intros Hl0. destruct (Hnil Hl0) as [Ha Hall]. split; [exact Ha|].
      intros e [<- | He] Hg; [|apply Hall; assumption].
      apply isValidPosition_true in Hg. congruence.
Qed.

Lemma find_neighbors_spec this visited cx cy :
  full2 (size this) visited ->
  exists l, find_neighbors this visited cx cy = Ret l /\
            Forall (dfs_neighbor this visited cx cy) l /\
            (l = [] -> closed_at this visited cx cy).
Proof.
  intros Hf.
  destruct (neighbors_fold_spec this visited cx cy directions Hf (incl_refl _) [])
    as (l & El & Hl & Hnil); [constructor|].
  exists l. split; [exact El|]. split; [exact Hl|].
  intros Hl0. exact (proj2 (Hnil Hl0)).
Qed.

Lemma reach_in_grid this m x y : standard this -> reach this m x y -> in_grid this x y.
Proof.
  intros (Hs & _ & Hn). destruct 1; [|assumption].
  rewrite Hs. unfold in_grid. simpl. lia.
Qed.

Lemma carve_body_dfs this s s' :
  dfs_inv this s -> carve_body this s = Ret s' ->
  dfs_inv this s' /\ (cs_stack s' = [] -> dfs_done this s').
Proof.
  intros (Hinv & Hcurv & Hstv & Hreach & Hclosed & Hlast & Hfirst) H.
  pose proof Hinv as (Hm & Hv & Hcur & Hst & Hr).
  destruct (carve_body_ok this s Hinv) as (s1 & E1 & Hinv1 & _).
  rewrite E1 in H. injection H as <-.
  unfold carve_body in E1.
  destruct (find_neighbors_spec this (cs_visited s) (currentX s) (currentY s) Hv)
    as (l & El & Hl & Hnil).
  rewrite El in E1. cbn [bind] in E1.
  destruct (0 <? Z.of_nat (List.length l)) eqn:Elen.
  - unfold draw in E1. destruct (Hr O) as [H0 H1].
    pose proof (floor_mul_range _ (Z.of_nat (List.length l)) H0 H1 ltac:(lia)) as Hk.
    set (k := floor_mul (cs_rng s O) (Z.of_nat (List.length l))) in *.
    destruct (k <? 0) eqn:Ek; [lia|].
    destruct (nth_error l (Z.to_nat k)) as [nb|] eqn:Enb; [|discriminate].
    apply nth_error_In in Enb. rewrite Forall_forall in Hl.
    destruct (Hl nb Enb) as (d & Hd & -> & [Hnx Hny] & Hp).
    cbn [nb_x nb_y wallX wallY] in *.
    destruct Hcur as [Hcx Hcy].
    set (cx := currentX s) in *. set (cy := currentY s) in *.
    assert (Hw : in_grid this (cx + fst d) (cy + snd d)).
    { unfold in_grid. simpl in Hd.
      destruct Hd as [<-|[<-|[<-|[<-|[]]]]]; simpl in *; lia. }
    destruct (set2_opened _ (in_grid this) (cs_maze s) (cy + snd d) (cx + fst d) Hm
                (proj2 Hw) (proj1 Hw) Hw) as (m1 & Em1 & Hm1 & Ho1 & Hopen1).
    rewrite Em1 in E1. cbn [bind] in E1.
    destruct (set2_opened _ (in_grid this) m1 (cy + snd d * 2) (cx + fst d * 2) Hm1
                Hny Hnx (conj Hnx Hny)) as (m2 & Em2 & Hm2 & Ho2 & Hopen2).
    rewrite Em2 in E1. cbn [bind] in E1.
    destruct (mark_visited _ (cs_visited s) (cy + snd d * 2) (cx + fst d * 2)
                Hv Hny Hnx Hp) as (v1 & Ev1 & Hv1 & _ & Hgetv).
    rewrite Ev1 in E1. cbn [bind] in E1. injection E1 as <-.
    unfold dfs_inv, dfs_done.
    cbn [cs_maze cs_visited cs_stack currentX currentY cs_rng] in *.
    assert (Hmono : forall x y, visited_at (cs_visited s) x y -> visited_at v1 x y).
    { intros x y Hxy. unfold visited_at in *. rewrite Hgetv.
      destruct (_ && _); [reflexivity | exact Hxy]. }
    assert (Hnew : visited_at v1 (cx + fst d * 2) (cy + snd d * 2)).
    { unfold visited_at. rewrite Hgetv, !Z.eqb_refl. reflexivity. }
    assert (Hold : forall x y, visited_at v1 x y ->
                               mkPos x y <> mkPos (cx + fst d * 2) (cy + snd d * 2) ->
                               visited_at (cs_visited s) x y).
    { intros x y Hxy Hne. unfold visited_at in *. rewrite Hgetv in Hxy.
      destruct ((y =? cy + snd d * 2) && (x =? cx + fst d * 2)) eqn:Eb; [|exact Hxy].
      exfalso. apply Hne. f_equal; lia. }
    assert (Hopens : opens (cs_maze s) m2).
    { eapply opens_trans; eapply opened_opens; eauto. }
    assert (Hrnb : reach this m2 (cx + fst d * 2) (cy + snd d * 2)).
    { apply (reach_step this m2 (cx + fst d) (cy + snd d)).
      - apply (reach_step this m2 cx cy).
        + apply (reach_mono _ _ _ _ _ Hopens). apply Hreach, Hcurv.
        + exists d. auto.
        + exact Hw.
        + apply (opened_opens _ _ _ Ho2). exact Hopen1.
      - exists d. split; [exact Hd|]. split; lia.
      - split; assumption.
      - exact Hopen2. }
    split; [|discriminate].
    split; [exact Hinv1|]. split; [exact Hnew|]. split; [|split; [|split; [|split]]].
    + intros p [<- | Hin]; apply Hmono; [exact Hcurv | apply Hstv, Hin].
    + intros x y Hxy.
      destruct (Position_eq_dec (mkPos x y) (mkPos (cx + fst d * 2) (cy + snd d * 2)))
        as [[= -> ->] | Hne]; [exact Hrnb|].
      apply (reach_mono _ _ _ _ _ Hopens). apply Hreach. apply Hold; assumption.
    + intros x y Hxy Hne Hnot e He Hg. apply Hmono.
      apply (Hclosed x y); auto.
      * intros Heq. apply Hnot. left. symmetry. exact Heq.
      * intros Hin. apply Hnot. right. exact Hin.
    + rewrite AgentFacts.last_cons. exact Hlast.
    + destruct Hfirst as [Honly | [H20 | H02]]; [|auto|auto].
      pose proof (Honly _ _ Hcurv) as Hc0. injection Hc0 as Hcx0 Hcy0.
      fold cx in Hcx0. fold cy in Hcy0. rewrite Hcx0, Hcy0 in *.
      right. simpl in Hd.
      destruct Hd as [<-|[<-|[<-|[<-|[]]]]]; simpl in *; try lia; auto.
  - assert (Hl0 : l = []) by (destruct l; [reflexivity | exfalso; apply Z.ltb_ge in Elen; cbn [List.length] in Elen; lia]).
    pose proof (Hnil Hl0) as Hcc.
    destruct (cs_stack s) as [|top rest] eqn:Es.
    + injection E1 as <-. simpl in Hlast. injection Hlast as Hcx0 Hcy0.
      rewrite Hcx0, Hcy0 in Hcurv, Hclosed, Hcc.
      split.
      * unfold dfs_inv. rewrite Es. cbn [last]. rewrite Hcx0, Hcy0.
        split; [exact Hinv|]. split; [exact Hcurv|]. split; [intros p []|].
        split; [exact Hreach|]. split; [exact Hclosed|].
        split; [reflexivity | exact Hfirst].
      * intros _.
        split; [exact Hm|]. split; [exact Hr|]. split; [exact Hcurv|].
        split; [exact Hreach|]. split.
        -- intros x y Hxy Hne. apply Hclosed; auto.
        -- left. exact Hcc.
    + injection E1 as <-. unfold dfs_inv, dfs_done.
      cbn [cs_maze cs_visited cs_stack currentX currentY cs_rng] in *.
      assert (Htop : visited_at (cs_visited s) (pos_x top) (pos_y top))
        by (apply Hstv; left; reflexivity).
      assert (Hcl' : forall x y, visited_at (cs_visited s) x y ->
                                 mkPos x y <> top -> ~ In (mkPos x y) rest ->
                                 closed_at this (cs_visited s) x y).
      { intros x y Hxy Hne Hnot.
        destruct (Position_eq_dec (mkPos x y) (mkPos (currentX s) (currentY s)))
          as [[= -> ->] | Hnc]; [exact Hcc|].
        apply Hclosed; auto. intros [Heq | Hin]; [congruence | contradiction]. }
      split.
      * split; [exact Hinv1|]. split; [exact Htop|]. split; [|split; [|split; [|split]]].
        -- intros p Hin. apply Hstv. right. exact Hin.
        -- exact Hreach.
        -- intros x y Hxy Hne Hnot. apply Hcl'; auto.
           rewrite AgentFacts.pos_eta in Hne. exact Hne.
        -- rewrite AgentFacts.pos_eta. rewrite AgentFacts.last_cons in Hlast.
           exact Hlast.
        -- exact Hfirst.
      * intros ->. simpl in Hlast. subst top. simpl in Htop.
        split; [exact Hm|]. split; [exact Hr|]. split; [exact Htop|].
        split; [exact Hreach|]. split.
        -- intros x y Hxy Hne. apply Hcl'; auto.
        -- destruct Hfirst as [Honly | Hrest]; [|right; exact Hrest].
           left. pose proof (Honly _ _ Hcurv) as Hc0. injection Hc0 as Hx0 Hy0.
           rewrite Hx0, Hy0 in Hcc. exact Hcc.
Qed.

Lemma carve_loop_dfs this : forall fuel s s',
  dfs_inv this s -> carve_loop fuel this s = Ret s' -> dfs_done this s'.
Proof.
  induction fuel as [|fuel IH]; intros s s' Hinv H; [discriminate|].
  cbn [carve_loop] in H.
  destruct (carve_body this s) as [s1| |] eqn:E1; cbn [bind] in H; try discriminate.
  destruct (carve_body_dfs this s s1 Hinv E1) as [Hinv1 Hdone].
  destruct (cs_stack s1) as [|top rest].
  - injection H as <-. apply Hdone. reflexivity.
  - eapply IH; eauto.
Qed.

(** From a visited cell, marching in one direction through cells that all
    have their neighbours visited. *)
Lemma march this v (Q : Z -> Z -> Prop) :
  (forall x y, visited_at v x y -> Q x y -> closed_at this v x y) ->
  forall d, In d directions -> forall (k : nat) x y,
    visited_at v x y ->
    (forall i, 0 <= i < Z.of_nat k ->
               Q (x + i * (fst d * 2)) (y + i * (snd d * 2))) ->
    (forall i, 0 <= i <= Z.of_nat k ->
               in_grid this (x + i * (fst d * 2)) (y + i * (snd d * 2))) ->
    visited_at v (x + Z.of_nat k * (fst d * 2)) (y + Z.of_nat k * (snd d * 2)).
Proof.
  intros Hcl d Hd. induction k as [|k IH]; intros x y Hv HQ Hg.
  - replace (x + Z.of_nat 0 * (fst d * 2)) with x by (simpl; lia).
    replace (y + Z.of_nat 0 * (snd d * 2)) with y by (simpl; lia). exact Hv.
  - assert (Hk : visited_at v (x + Z.of_nat k * (fst d * 2))
                              (y + Z.of_nat k * (snd d * 2))).
    { apply IH; [exact Hv | |]; intros i Hi; [apply HQ | apply Hg]; lia. }
    replace (x + Z.of_nat (S k) * (fst d * 2))
      with (x + Z.of_nat k * (fst d * 2) + fst d * 2)
      by (rewrite Nat2Z.inj_succ; ring).
    replace (y + Z.of_nat (S k) * (snd d * 2))
      with (y + Z.of_nat k * (snd d * 2) + snd d * 2)
      by (rewrite Nat2Z.inj_succ; ring).
    apply (Hcl _ _ Hk); [apply HQ; lia | exact Hd |].
    replace (x + Z.of_nat k * (fst d * 2) + fst d * 2)
      with (x + Z.of_nat (S k) * (fst d * 2))
      by (rewrite Nat2Z.inj_succ; ring).
    replace (y + Z.of_nat k * (snd d * 2) + snd d * 2)
      with (y + Z.of_nat (S k) * (snd d * 2))
      by (rewrite Nat2Z.inj_succ; ring).
    apply Hg. lia.
Qed.

Lemma march_right this v (Q : Z -> Z -> Prop) x y x' :
  (forall x y, visited_at v x y -> Q x y -> closed_at this v x y) ->
  visited_at v x y -> Z.even (x' - x) = true -> x <= x' ->
  (forall u, x <= u < x' -> Q u y) ->
  (forall u, x <= u <= x' -> in_grid this u y) ->
  visited_at v x' y.
Proof.
  intros Hcl Hv He Hle HQ Hg.
  apply Z.even_spec in He. destruct He as [k Hk].
  pose proof (march this v Q Hcl (1, 0) ltac:(simpl; auto) (Z.to_nat k) x y Hv) as H.
  cbn [fst snd] in H.
  replace (x + Z.of_nat (Z.to_nat k) * (1 * 2)) with x' in H by lia.
  replace (y + Z.of_nat (Z.to_nat k) * (0 * 2)) with y in H by lia.
  apply H.
  - intros i Hi. replace (y + i * (0 * 2)) with y by lia. apply HQ. lia.
  - intros i Hi. replace (y + i * (0 * 2)) with y by lia. apply Hg. lia.
Qed.

Lemma march_down this v (Q : Z -> Z -> Prop) x y y' :
  (forall x y, visited_at v x y -> Q x y -> closed_at this v x y) ->
  visited_at v x y -> Z.even (y' - y) = true -> y <= y' ->
  (forall u, y <= u < y' -> Q x u) ->
  (forall u, y <= u <= y' -> in_grid this x u) ->
  visited_at v x y'.
Proof.
  intros Hcl Hv He Hle HQ Hg.
  apply Z.even_spec in He. destruct He as [k Hk].
  pose proof (march this v Q Hcl (0, 1) ltac:(simpl; auto) (Z.to_nat k) x y Hv) as H.
  cbn [fst snd] in H.
  replace (x + Z.of_nat (Z.to_nat k) * (0 * 2)) with x in H by lia.
  replace (y + Z.of_nat (Z.to_nat k) * (1 * 2)) with y' in H by lia.
  apply H.
  - intros i Hi. replace (x + i * (0 * 2)) with x by lia. apply HQ. lia.
  - intros i Hi. replace (x + i * (0 * 2)) with x by lia. apply Hg. lia.
Qed.

Lemma even_sub x y : Z.even x = true -> Z.even y = true -> Z.even (x - y) = true.
Proof. intros Hx Hy. rewrite Z.even_sub, Hx, Hy. reflexivity. Qed.

Lemma rooms_visited this s :
  standard this -> dfs_done this s ->
  forall x y, room this x y -> visited_at (cs_visited s) x y.
Proof.
  intros Hstd (_ & _ & H00 & Hreach & Hcl & Hcase) x y ([Hx Hy] & Ex & Ey).
  set (v := cs_visited s) in *.
  set (Q := fun x y : Z => mkPos x y <> mkPos 0 0).
  assert (HclQ : forall x y, visited_at v x y -> Q x y -> closed_at this v x y)
    by exact Hcl.
  assert (Hgrid : forall u w, 0 <= u <= x -> 0 <= w <= y -> in_grid this u w)
    by (intros u w Hu Hw; unfold in_grid; lia).
  assert (E0 : forall z, Z.even z = true -> Z.even (z - 0) = true)
    by (intros z Hz; rewrite Z.sub_0_r; exact Hz).
  destruct Hcase as [H0 | [H20 | H02]].
  - (* the start has all its neighbours visited *)
    assert (HclT : forall x y, visited_at v x y -> True -> closed_at this v x y).
    { intros a b Hab _.
      destruct (Position_eq_dec (mkPos a b) (mkPos 0 0)) as [[= -> ->] | Hne];
        [exact H0 | apply Hcl; assumption]. }
    apply (march_down this v (fun _ _ => True) x 0 y HclT); auto; try lia.
    + apply (march_right this v (fun _ _ => True) 0 0 x HclT); auto; try lia.
      intros u Hu. apply Hgrid; lia.
    + intros u Hu. apply Hgrid; lia.
  - (* the cell to the right of the start is visited *)
    assert (H2 : in_grid this 2 0) by (apply (reach_in_grid this (cs_maze s)); auto).
    destruct (Z.eq_dec x 0) as [-> | Hx0].
    + destruct (Z.eq_dec y 0) as [-> | Hy0]; [exact H00|].
      assert (Hv2 : visited_at v 2 y).
      { apply (march_down this v Q 2 0 y HclQ); auto; try lia.
        - intros u Hu. unfold Q. intros [=].
        - intros u Hu. unfold in_grid in *. lia. }
      assert (Hc2 : closed_at this v 2 y).
      { apply Hcl; [exact Hv2 | intros [=]]. }
      specialize (Hc2 (-1, 0) ltac:(simpl; auto)). cbn [fst snd] in Hc2.
      replace (2 + -1 * 2) with 0 in Hc2 by lia.
      replace (y + 0 * 2) with y in Hc2 by lia.
      apply Hc2. unfold in_grid. lia.
    + assert (Hx2 : 2 <= x).
      { apply Z.even_spec in Ex. destruct Ex as [k Hk]. lia. }
      apply (march_down this v Q x 0 y HclQ); auto; try lia.
      * apply (march_right this v Q 2 0 x HclQ); auto; try lia.
        -- apply even_sub; [exact Ex | reflexivity].
        -- intros u Hu. unfold Q. intros [= Hu0]. lia.
        -- intros u Hu. apply Hgrid; lia.
      * intros u Hu. unfold Q. intros [= Hu0]. lia.
      * intros u Hu. apply Hgrid; lia.
  - (* the cell below the start is visited *)
    assert (H2 : in_grid this 0 2) by (apply (reach_in_grid this (cs_maze s)); auto).
    destruct (Z.eq_dec y 0) as [-> | Hy0].
    + destruct (Z.eq_dec x 0) as [-> | Hx0]; [exact H00|].
      assert (Hv2 : visited_at v x 2).
      { apply (march_right this v Q 0 2 x HclQ); auto; try lia.
        - intros u Hu. unfold Q. intros [=].
        - intros u Hu. unfold in_grid in *. lia. }
      assert (Hc2 : closed_at this v x 2).
      { apply Hcl; [exact Hv2 | intros [=]]. }
      specialize (Hc2 (0, -1) ltac:(simpl; auto)). cbn [fst snd] in Hc2.
      replace (2 + -1 * 2) with 0 in Hc2 by lia.
      replace (x + 0 * 2) with x in Hc2 by lia.
      apply Hc2. unfold in_grid. lia.
    + assert (Hy2 : 2 <= y).
      { apply Z.even_spec in Ey. destruct Ey as [k Hk]. lia. }
      apply (march_right this v Q 0 y x HclQ); auto; try lia.
      * apply (march_down this v Q 0 2 y HclQ); auto; try lia.
        -- apply even_sub; [exact Ey | reflexivity].
        -- intros u Hu. unfold Q. intros [= Hu0]. lia.
        -- intros u Hu. apply Hgrid; lia.
      * intros u Hu. unfold Q. intros [= Hu0]. lia.
      * intros u Hu. apply Hgrid; lia.
Qed.

(** ** The generated grid *)

Lemma generateMaze_structure this rnd fuel :
  standard this -> random_ok rnd -> (enough (size this) <= fuel)%nat ->
  exists m rnd',
    generateMaze fuel this rnd = Ret (m, rnd') /\
    full2 (size this) m /\ binary m /\
    forall x y, room this x y -> reach this m x y.
Proof.
  intros Hstd Hr Hfuel. pose proof Hstd as (Hs & Hg & Hn).
  unfold enough in Hfuel. unfold generateMaze. rewrite Hs, Hg. simpl pos_x. simpl pos_y.
  destruct (matrix_full (size this) 1 ltac:(lia)) as (m0 & E0 & Hm0 & Hget1).
  destruct (matrix_full (size this) false ltac:(lia)) as (v0 & Ev0 & Hv0 & Hget0).
  rewrite E0, Ev0. cbn [bind].
  assert (Hb0 : binary m0).
  { intros x y v Hv. destruct (get2_range _ _ _ _ _ Hm0 Hv) as [Hy Hx].
    rewrite (Hget1 y x Hy Hx) in Hv. injection Hv as <-. right. reflexivity. }
  destruct (mark_visited _ v0 0 0 Hv0 ltac:(lia) ltac:(lia)
              (pending_not_visited _ _ _ (Hget0 0 0 ltac:(lia) ltac:(lia))))
    as (v1 & Ev1 & Hv1 & _ & Hgetv1).
  rewrite Ev1. cbn [bind].
  destruct (set2_opened _ (fun _ _ => True) m0 0 0 Hm0 ltac:(lia) ltac:(lia) I)
    as (m0' & E0' & Hm0' & Ho0 & _).
  rewrite E0'. cbn [bind].
  pose proof (binary_opened _ _ _ Hb0 Ho0) as Hb0'.
  assert (Hinv0 : carve_inv this (mkCarve m0' v1 [] 0 0 rnd)).
  { unfold carve_inv, in_grid. simpl. repeat (split; [assumption || lia|]).
    split; [constructor | exact Hr]. }
  assert (Hzero : forall x y, visited_at v1 x y -> mkPos x y = mkPos 0 0).
  { intros x y Hxy. unfold visited_at in Hxy. rewrite Hgetv1 in Hxy.
    destruct ((y =? 0) && (x =? 0)) eqn:Eb; [f_equal; lia|].
    destruct (get2_range _ _ _ _ _ Hv0 Hxy) as [Hy Hx].
    rewrite (Hget0 y x Hy Hx) in Hxy. discriminate. }
  assert (Hdfs0 : dfs_inv this (mkCarve m0' v1 [] 0 0 rnd)).
  { split; [exact Hinv0|]. cbn [cs_maze cs_visited cs_stack currentX currentY].
    split; [unfold visited_at; rewrite Hgetv1; reflexivity|].
    split; [intros p []|]. split; [|split; [|split]].
    - intros x y Hxy. injection (Hzero x y Hxy) as -> ->.
      pose proof (reach_start this m0') as Hrs. rewrite Hs in Hrs. exact Hrs.
    - intros x y Hxy Hne. contradiction (Hne (Hzero x y Hxy)).
    - reflexivity.
    - left. exact Hzero. }
  destruct (carve_loop_ok this fuel (mkCarve m0' v1 [] 0 0 rnd) Hinv0) as (s & Es & Hinv).
  { unfold carve_measure. simpl. pose proof (unvisited_le (size this) v1). lia. }
  pose proof (carve_loop_opened this fuel _ _ Hinv0 Es) as Hoc. cbn [cs_maze] in Hoc.
  pose proof (carve_loop_dfs this fuel _ _ Hdfs0 Es) as Hdone.
  assert (Hrooms : forall x y, room this x y -> reach this (cs_maze s) x y).
  { intros x y Hroom. pose proof (rooms_visited this s Hstd Hdone x y Hroom) as Hv.
    destruct Hdone as (_ & _ & _ & Hreach & _). apply Hreach, Hv. }
  clear Hdone.
  pose proof (binary_opened _ _ _ Hb0' Hoc) as Hbs.
  rewrite Es. cbn [bind]. destruct Hinv as (Hms & _ & _ & _ & Hrs).
  destruct (applyWallDensityModification_opened this (cs_maze s, cs_rng s))
    as ([m1 rnd1] & E1 & [Hm1 Hr1] & Ho1); [split; assumption|].
  rewrite E1. cbn [bind]. simpl in Hm1, Hr1, Ho1.
  pose proof (binary_opened _ _ _ Hbs Ho1) as Hb1.
  destruct (set2_opened _ (fun _ _ => True) m1 0 0 Hm1 ltac:(lia) ltac:(lia) I)
    as (m2 & E2 & Hm2 & Ho2 & _).
  rewrite E2. cbn [bind].
  pose proof (binary_opened _ _ _ Hb1 Ho2) as Hb2.
  destruct (set2_opened _ (fun _ _ => True) m2 (size this - 1) (size this - 1) Hm2
              ltac:(lia) ltac:(lia) I) as (m3 & E3 & Hm3 & Ho3 & _).
  rewrite E3. cbn [bind].
  pose proof (binary_opened _ _ _ Hb2 Ho3) as Hb3.
  destruct (ensureConnectivity_opened this (m3, rnd1))
    as ([m4 rnd2] & E4 & [Hm4 Hr4] & Ho4); [split; assumption|].
  rewrite E4. cbn [bind]. simpl in Hm4, Hr4, Ho4.
  pose proof (binary_opened _ _ _ Hb3 Ho4) as Hb4.
  assert (Hfuel' : (Z.to_nat (size this * size this) < fuel)%nat) by lia.
  destruct (hasPath_ok this m4 fuel Hstd Hm4 Hfuel') as (b & Eb & _).
  rewrite Eb. cbn [bind].
  assert (Hrooms4 : forall x y, room this x y -> reach this m4 x y).
  { intros x y Hroom.
    apply (reach_mono _ _ _ _ _ (opened_opens _ _ _ Ho4)).
    apply (reach_mono _ _ _ _ _ (opened_opens _ _ _ Ho3)).
    apply (reach_mono _ _ _ _ _ (opened_opens _ _ _ Ho2)).
    apply (reach_mono _ _ _ _ _ (opened_opens _ _ _ Ho1)).
    apply Hrooms, Hroom. }
  destruct b; cbn [negb].
  - exists m4, rnd2. split; [reflexivity|]. split; [exact Hm4|]. split; assumption.
  - destruct (createPathToGoal_opened this m4 Hstd Hm4) as (m5 & E5 & Hm5 & Ho5).
    rewrite E5. cbn [bind].
    exists m5, rnd2. split; [reflexivity|]. split; [exact Hm5|].
    split; [exact (binary_opened _ _ _ Hb4 Ho5)|].
    intros x y Hroom.
    apply (reach_mono _ _ _ _ _ (opened_opens _ _ _ Ho5)). apply Hrooms4, Hroom.
Qed.

(** X14. The grid of a constructed maze is [size] rows of [size] cells
    without holes, every cell holding 0 or 1.  [isWall] therefore never
    throws: inside the grid it answers false on a 0 and true on a 1, and
    outside the grid it answers true. *)
Theorem generated_maze_grid (size : Z) (wallDensity : Q) (rnd : rng) (fuel : nat) :
  1 <= size -> random_ok rnd -> (enough size <= fuel)%nat ->
  exists g rnd',
    MazeGenerator.new fuel size wallDensity rnd = Ret (g, rnd') /\
    full2 size (getMaze g) /\
    (forall x y, 0 <= x < size -> 0 <= y < size ->
                 (get2 (getMaze g) y x = Ret (Some 0) /\ isWall g x y = Ret false) \/
                 (get2 (getMaze g) y x = Ret (Some 1) /\ isWall g x y = Ret true)) /\
    (forall x y, ~ (0 <= x < size /\ 0 <= y < size) -> isWall g x y = Ret true).
Proof.
  intros Hsize Hr Hfuel.
  destruct (generateMaze_structure (config_of size wallDensity) rnd fuel)
    as (m & rnd' & E & Hf & Hb & _); auto.
  { apply standard_config. exact Hsize. }
  exists (mkMaze (config_of size wallDensity) m), rnd'.
  unfold MazeGenerator.new. fold (config_of size wallDensity). rewrite E.
  cbn [MazeGenerator.size config_of] in Hf.
  split; [reflexivity|]. split; [exact Hf|]. split.
  - intros x y Hx Hy. unfold isWall, isValidPosition, getMaze.
    cbn [self maze MazeGenerator.size config_of].
    replace ((x >=? 0) && (x <? size) && (y >=? 0) && (y <? size)) with true by lia.
    cbn [negb].
    destruct (get2_full _ m y x Hf Hy Hx) as [v Hv]. rewrite Hv. cbn [bind cell_is].
    destruct (Hb x y v Hv) as [-> | ->]; [left | right]; split; reflexivity.
  - intros x y Hout. unfold isWall, isValidPosition.
    cbn [self MazeGenerator.size config_of].
    replace ((x >=? 0) && (x <? size) && (y >=? 0) && (y <? size)) with false by lia.
    reflexivity.
Qed.

(** X18. The backtracker reaches every room: in every constructed maze
    each cell of the grid with two even coordinates is OPEN and joined to
    the start by OPEN cells.  (On a maze of odd size the goal is such a
    cell.) *)
Theorem generated_maze_rooms (size : Z) (wallDensity : Q) (rnd : rng) (fuel : nat) :
  1 <= size -> random_ok rnd -> (enough size <= fuel)%nat ->
  exists g rnd',
    MazeGenerator.new fuel size wallDensity rnd = Ret (g, rnd') /\
    forall x y, 0 <= x < size -> 0 <= y < size ->
                Z.even x = true -> Z.even y = true ->
                open_at (getMaze g) x y /\ reach (self g) (getMaze g) x y.
Proof.
  intros Hsize Hr Hfuel.
  assert (Hstd : standard (config_of size wallDensity))
    by (apply standard_config; exact Hsize).
  destruct (generateMaze_structure (config_of size wallDensity) rnd fuel Hstd Hr Hfuel)
    as (m & rnd' & E & _ & _ & Hrooms).
  destruct (generateMaze_ok (config_of size wallDensity) rnd fuel Hstd Hr Hfuel)
    as (m' & rnd'' & E' & _ & _ & Hopen0 & _).
  rewrite E in E'. injection E' as Em Er. subst m' rnd''.
  exists (mkMaze (config_of size wallDensity) m), rnd'.
  unfold MazeGenerator.new. fold (config_of size wallDensity). rewrite E.
  split; [reflexivity|].
  intros x y Hx Hy Ex Ey. cbn [getMaze self maze].
  assert (Hreach : reach (config_of size wallDensity) m x y).
  { apply Hrooms. unfold room, in_grid. cbn [MazeGenerator.size config_of]. auto. }
  split; [|exact Hreach].
  destruct Hreach as [|x0 y0 x1 y1 _ _ _ Hopen]; [exact Hopen0 | exact Hopen].
Qed.

(** ** Wall densities of two thirds and more *)

Lemma for_loop_ext {St} (body1 body2 : Z -> St -> outcome St) :
  (forall i s, body1 i s = body2 i s) ->
  forall n lo s, for_loop n lo body1 s = for_loop n lo body2 s.
Proof.
  intros Hb. induction n as [|n IH]; intros lo s; simpl; [reflexivity|].
  rewrite Hb. destruct (body2 lo s); simpl; auto.
Qed.

Lemma removalProbability_floor (size : Z) (d : Q) :
  (2 # 3 <= d)%Q -> removalProbability (config_of size d) = (1 # 10)%Q.
Proof.
  intros Hd. unfold removalProbability. cbn [wallDensity config_of].
  destruct (Qle_bool ((1 - d) * (3 # 10)) (1 # 10)) eqn:E; [reflexivity|].
  exfalso. assert (H : Qle_bool ((1 - d) * (3 # 10)) (1 # 10) = true).
  { apply Qle_bool_iff. lra. }
  congruence.
Qed.

Section Density.

Variables (n : Z) (d1 d2 : Q).
Hypothesis same_probability :
  removalProbability (config_of n d1) = removalProbability (config_of n d2).

Lemma carve_loop_density fuel : forall s,
  carve_loop fuel (config_of n d1) s = carve_loop fuel (config_of n d2) s.
Proof.
  induction fuel as [|fuel IH]; intros s; [reflexivity|].
  cbn [carve_loop].
  change (carve_body (config_of n d2) s) with (carve_body (config_of n d1) s).
  destruct (carve_body (config_of n d1) s) as [s'| |]; cbn [bind]; try reflexivity.
  destruct (cs_stack s'); [reflexivity | apply IH].
Qed.

Lemma bfs_density fuel m : forall visited queue,
  bfs fuel (config_of n d1) m visited queue = bfs fuel (config_of n d2) m visited queue.
Proof.
  induction fuel as [|fuel IH]; intros visited queue; [reflexivity|].
  cbn [bfs]. destruct queue as [|current rest]; [reflexivity|].
  change (goalPosition (config_of n d2)) with (goalPosition (config_of n d1)).
  destruct (_ && _); [reflexivity|].
  change (expand (config_of n d2) m current (visited, rest))
    with (expand (config_of n d1) m current (visited, rest)).
  destruct (expand (config_of n d1) m current (visited, rest)) as [[v q]| |];
    cbn [bind]; try reflexivity.
  apply IH.
Qed.

Lemma relax_cell_density y x s :
  relax_cell (config_of n d1) y x s = relax_cell (config_of n d2) y x s.
Proof.
  unfold relax_cell. rewrite same_probability. reflexivity.
Qed.

Lemma generateMaze_density fuel rnd :
  generateMaze fuel (config_of n d1) rnd = generateMaze fuel (config_of n d2) rnd.
Proof.
  unfold generateMaze.
  change (size (config_of n d2)) with (size (config_of n d1)).
  change (startPosition (config_of n d2)) with (startPosition (config_of n d1)).
  change (goalPosition (config_of n d2)) with (goalPosition (config_of n d1)).
  destruct (matrix (size (config_of n d1)) 1) as [m0| |]; cbn [bind]; try reflexivity.
  destruct (matrix (size (config_of n d1)) false) as [v0| |]; cbn [bind]; try reflexivity.
  destruct (set2 v0 _ _ true) as [v1| |]; cbn [bind]; try reflexivity.
  destruct (set2 m0 _ _ 0) as [m0'| |]; cbn [bind]; try reflexivity.
  rewrite <- carve_loop_density.
  destruct (carve_loop fuel (config_of n d1) _) as [s| |]; cbn [bind]; try reflexivity.
  assert (Ea : applyWallDensityModification (config_of n d2) (cs_maze s, cs_rng s)
               = applyWallDensityModification (config_of n d1) (cs_maze s, cs_rng s)).
  { unfold applyWallDensityModification, for_range.
    change (size (config_of n d2)) with (size (config_of n d1)).
    apply for_loop_ext. intros y s0. apply for_loop_ext. intros x s1.
    symmetry. apply relax_cell_density. }
  rewrite Ea.
  destruct (applyWallDensityModification (config_of n d1) _) as [[m1 rnd1]| |];
    cbn [bind]; try reflexivity.
  destruct (set2 m1 _ _ 0) as [m2| |]; cbn [bind]; try reflexivity.
  destruct (set2 m2 _ _ 0) as [m3| |]; cbn [bind]; try reflexivity.
  change (ensureConnectivity (config_of n d2) (m3, rnd1))
    with (ensureConnectivity (config_of n d1) (m3, rnd1)).
  destruct (ensureConnectivity (config_of n d1) (m3, rnd1)) as [[m4 rnd2]| |];
    cbn [bind]; try reflexivity.
  assert (Eh : hasPath fuel (config_of n d2) m4 = hasPath fuel (config_of n d1) m4).
  { unfold hasPath.
    change (size (config_of n d2)) with (size (config_of n d1)).
    change (startPosition (config_of n d2)) with (startPosition (config_of n d1)).
    destruct (matrix _ false) as [w0| |]; cbn [bind]; try reflexivity.
    destruct (set2 w0 _ _ true) as [w1| |]; cbn [bind]; try reflexivity.
    symmetry. apply bfs_density. }
  rewrite Eh.
  destruct (hasPath fuel (config_of n d1) m4) as [ok| |]; reflexivity.
Qed.

End Density.

(** X15. The wall density stops mattering at two thirds: the removal
    probability is [max(0.1, 0.3 * (1 - wallDensity))], which is 0.1 for
    every density of 2/3 or more, so two such densities give, for the same
    size and the same random draws, the same grid (and the same error, if
    any). *)
Theorem wallDensity_saturates (size : Z) (d1 d2 : Q) (rnd : rng) (fuel : nat) :
  (2 # 3 <= d1)%Q -> (2 # 3 <= d2)%Q ->
  removalProbability (config_of size d1) = (1 # 10)%Q /\
  generateMaze fuel (config_of size d1) rnd = generateMaze fuel (config_of size d2) rnd.
Proof.
  intros H1 H2. split; [apply removalProbability_floor, H1|].
  apply generateMaze_density.
  rewrite !removalProbability_floor by assumption. reflexivity.
Qed.

(** ** Checking the shape of a given grid *)

Lemma is_full_sound {A} n (a : jsarray A) : is_full n a = true -> full n a.
Proof.
  unfold is_full. intros H. apply andb_true_iff in H. destruct H as [Hlen Hall].
  apply Z.eqb_eq in Hlen. split; [exact Hlen|].
  intros i Hi. unfold aget. destruct (i <? 0) eqn:E; [lia|].
  destruct (nth_error a (Z.to_nat i)) as [c|] eqn:En.
  - rewrite forallb_forall in Hall. specialize (Hall c (nth_error_In _ _ En)).
    destruct c as [v|]; [eauto | discriminate].
  - apply nth_error_None in En. lia.
Qed.

Lemma is_full2_sound {A} n (m : jsarray (jsarray A)) : is_full2 n m = true -> full2 n m.
Proof.
  unfold is_full2. intros H. apply andb_true_iff in H. destruct H as [Hlen Hall].
  apply Z.eqb_eq in Hlen. split; [exact Hlen|].
  intros y Hy. unfold aget. destruct (y <? 0) eqn:E; [lia|].
  destruct (nth_error m (Z.to_nat y)) as [r|] eqn:En.
  - rewrite forallb_forall in Hall. specialize (Hall r (nth_error_In _ _ En)).
    destruct r as [row|]; [|discriminate].
    exists row. split; [reflexivity | apply is_full_sound, Hall].
  - apply nth_error_None in En. lia.
Qed.

End MazeMore.

(* ================================================================== *)
(** * The agent on a generated maze *)
(* ================================================================== *)

Module TrainingFacts.

Import MazeSpec MazeSpecMore MazeFacts MazeMore.
Import AgentSpec AgentSpecMore AgentFacts AgentMore.
Import JsFacts.

(** X16. The training page runs episodes of an agent built for the maze's
    size on the constructed maze, from its start to its goal.  Such an
    episode never throws, whatever the agent has learnt, whatever the
    random draws and the step budget, and no position of its path is a
    wall as [isWall] of the maze sees it. *)
Theorem episode_on_generated_maze (size : Z) (wallDensity : Q) (rnd : rng)
    (fuel : nat) :
  1 <= size -> random_ok rnd -> (enough size <= fuel)%nat ->
  exists g rnd',
    MazeGenerator.new fuel size wallDensity rnd = Ret (g, rnd') /\
    forall (a : QLearningAgent.agent) (rnd2 : rng) (maxSteps : Z),
      QLearningAgent.mazeSize a = MazeGenerator.getSize g ->
      exists res a' rnd3,
        QLearningAgent.runEpisode a rnd2 (MazeGenerator.getMaze g)
          (MazeGenerator.getStartPosition g) (MazeGenerator.getGoalPosition g)
          maxSteps
        = Ret (res, a', rnd3) /\
        Forall (fun p => MazeGenerator.isWall g (pos_x p) (pos_y p) = Ret false)
               (QLearningAgent.path res).
Proof.
  intros Hsize Hr Hfuel.
  destruct (generateMaze_ok (config_of size wallDensity) rnd fuel)
    as (m & rnd' & E & Hf & _ & Hs & _); auto.
  { apply standard_config. exact Hsize. }
  cbn [MazeGenerator.size config_of] in Hf.
  exists (MazeGenerator.mkMaze (config_of size wallDensity) m), rnd'.
  unfold MazeGenerator.new. fold (config_of size wallDensity). rewrite E.
  split; [reflexivity|].
  intros a rnd2 maxSteps Hm.
  unfold MazeGenerator.getSize, MazeGenerator.getMaze, MazeGenerator.getStartPosition,
    MazeGenerator.getGoalPosition in *.
  cbn [MazeGenerator.self MazeGenerator.maze MazeGenerator.size
       MazeGenerator.startPosition MazeGenerator.goalPosition config_of] in *.
  assert (Hrows : rows_ok a m).
  { intros y Hy. rewrite Hm in Hy. destruct Hf as [_ Hrow].
    destruct (Hrow y Hy) as (row & -> & _). discriminate. }
  destruct (runEpisode_returns a rnd2 m (mkPos 0 0) (mkPos (size - 1) (size - 1))
              maxSteps Hrows) as (res & a' & rnd3 & Hrun).
  exists res, a', rnd3. split; [exact Hrun|].
  destruct (runEpisode_episode _ _ _ _ _ _ _ _ _ Hrun) as (s' & Hep & Hres & _).
  assert (Hstart : open_cell a m (mkPos 0 0)).
  { unfold open_cell. simpl. rewrite Hm. repeat split; try lia. exact Hs. }
  destruct (episode_open _ _ _ _ _ _ a Hep eq_refl) as [_ Hpath].
  { exact Hstart. }
  { constructor; [exact Hstart | constructor]. }
  rewrite Hres. cbn [QLearningAgent.path QLearningAgent.result_of].
  eapply Forall_impl; [|exact Hpath].
  intros p (Hx & Hy & Hc). rewrite Hm in Hx, Hy.
  unfold MazeGenerator.isWall, MazeGenerator.isValidPosition.
  cbn [MazeGenerator.self MazeGenerator.maze MazeGenerator.size config_of].
  replace ((pos_x p >=? 0) && (pos_x p <? size) && (pos_y p >=? 0) && (pos_y p <? size))
    with true by lia.
  cbn [negb]. rewrite Hc. reflexivity.
Qed.

(** ** The size of the table *)

Lemma init_keys_in (a : QLearningAgent.agent) k k' :
  In k' (map fst (QLearningAgent.qTable (QLearningAgent.initializeQValues a k))) ->
  In k' (map fst (QLearningAgent.qTable a)) \/ k' = k.
Proof.
  unfold QLearningAgent.initializeQValues.
  destruct (negb (map_has (QLearningAgent.qTable a) k)); [|auto].
  cbn [QLearningAgent.qTable QLearningAgent.with_table]. rewrite map_set_keys.
  destruct (map_has (QLearningAgent.qTable a) k); [auto|].
  intros H. apply in_app_or in H. destruct H as [H | [<- | []]]; auto.
Qed.

Lemma update_keys_in (a : QLearningAgent.agent) state act reward nextState a' k :
  QLearningAgent.updateQValue a state act reward nextState = Ret a' ->
  In k (map fst (QLearningAgent.qTable a')) ->
  In k (map fst (QLearningAgent.qTable a)) \/ k = state \/ k = nextState.
Proof.
  intros Hup Hin.
  destruct (updateQValue_eq a state act reward nextState) as (qS & HS & E).
  rewrite E in Hup. injection Hup as <-.
  cbn [QLearningAgent.qTable QLearningAgent.with_table] in Hin.
  rewrite map_set_keys in Hin.
  assert (Hhas : map_has (QLearningAgent.qTable
                   (QLearningAgent.initializeQValues
                      (QLearningAgent.initializeQValues a state) nextState)) state = true).
  { unfold map_has. unfold QLearningAgent.getQValues in HS. rewrite HS. reflexivity. }
  rewrite Hhas in Hin.
  apply init_keys_in in Hin. destruct Hin as [Hin | ->]; [|auto].
  apply init_keys_in in Hin. destruct Hin as [Hin | ->]; auto.
Qed.

Lemma iteration_keys maze goalPos s s' :
  iteration maze goalPos s s' ->
  keys_in_grid (QLearningAgent.ep_agent s) ->
  0 <= QLearningAgent.ep_x s < QLearningAgent.mazeSize (QLearningAgent.ep_agent s) ->
  0 <= QLearningAgent.ep_y s < QLearningAgent.mazeSize (QLearningAgent.ep_agent s) ->
  keys_in_grid (QLearningAgent.ep_agent s') /\
  0 <= QLearningAgent.ep_x s' < QLearningAgent.mazeSize (QLearningAgent.ep_agent s') /\
  0 <= QLearningAgent.ep_y s' < QLearningAgent.mazeSize (QLearningAgent.ep_agent s').
Proof.
  intros H Hk Hx Hy.
  destruct H as [s action a1 rnd1 reward valid a2 x y Hc cand Hr Hv next Hup].
  destruct (chooseAction_returns (QLearningAgent.ep_agent s) (QLearningAgent.ep_rng s) x y)
    as (act0 & E & _).
  fold x y in E. rewrite E in Hc. injection Hc as <- <- <-.
  set (a1 := QLearningAgent.initializeQValues (QLearningAgent.ep_agent s)
               (QLearningAgent.getStateKey x y)) in *.
  assert (Hm1 : QLearningAgent.mazeSize a1 = QLearningAgent.mazeSize (QLearningAgent.ep_agent s))
    by apply init_fields.
  pose proof (updateQValue_mazeSize _ _ _ _ _ _ Hup) as Hm2.
  cbn [QLearningAgent.ep_agent QLearningAgent.ep_x QLearningAgent.ep_y].
  rewrite Hm2, Hm1.
  assert (Hnext : 0 <= pos_x next < QLearningAgent.mazeSize (QLearningAgent.ep_agent s) /\
                  0 <= pos_y next < QLearningAgent.mazeSize (QLearningAgent.ep_agent s)).
  { subst next. destruct valid; [|simpl; auto].
    destruct (isValidMove_cases a1 (pos_x cand) (pos_y cand) maze)
      as [[_ Ho]|[[Hv' _]|(e & Hv' & _)]]; try congruence.
    destruct Ho as (Hox & Hoy & _). simpl in Hox, Hoy. rewrite Hm1 in Hox, Hoy. auto. }
  split; [|exact Hnext].
  intros k Hin. unfold keys_in_grid in Hk. rewrite Hm2, Hm1.
  apply (update_keys_in _ _ _ _ _ _ _ Hup) in Hin.
  destruct Hin as [Hin | [-> | ->]].
  - apply init_keys_in in Hin. destruct Hin as [Hin | ->]; [apply Hk, Hin|].
    exists x, y. auto.
  - exists x, y. auto.
  - exists (pos_x next), (pos_y next). destruct Hnext. auto.
Qed.

Lemma episode_keys maze goalPos n s ok s' :
  episode maze goalPos n s ok s' ->
  keys_in_grid (QLearningAgent.ep_agent s) ->
  0 <= QLearningAgent.ep_x s < QLearningAgent.mazeSize (QLearningAgent.ep_agent s) ->
  0 <= QLearningAgent.ep_y s < QLearningAgent.mazeSize (QLearningAgent.ep_agent s) ->
  keys_in_grid (QLearningAgent.ep_agent s').
Proof.
  induction 1 as [s | n s s' Hit Hg | n s s' ok s'' Hit Hg Hep IH]; intros Hk Hx Hy.
  - exact Hk.
  - apply (iteration_keys _ _ _ _ Hit Hk Hx Hy).
  - destruct (iteration_keys _ _ _ _ Hit Hk Hx Hy) as (Hk' & Hx' & Hy'). auto.
Qed.

Lemma keys_count (a : QLearningAgent.agent) :
  keys_distinct a -> keys_in_grid a ->
  QLearningAgent.getStatesExplored a
  <= QLearningAgent.mazeSize a * QLearningAgent.mazeSize a.
Proof.
  intros Hnd Hk. unfold QLearningAgent.getStatesExplored.
  set (n := QLearningAgent.mazeSize a) in *.
  set (keyf := fun p : Z * Z => QLearningAgent.getStateKey (snd p) (fst p)).
  assert (Hincl : incl (map fst (QLearningAgent.qTable a)) (map keyf (cells n))).
  { intros k Hin. destruct (Hk k Hin) as (x & y & Hx & Hy & ->).
    apply in_map_iff. exists (y, x). split; [reflexivity|]. apply In_cells. auto. }
  pose proof (NoDup_incl_length Hnd Hincl) as Hlen.
  rewrite !length_map in Hlen.
  unfold cells in Hlen. rewrite length_prod in Hlen.
  unfold zs in Hlen. rewrite length_map, length_seq in Hlen.
  destruct (Z_lt_le_dec n 0) as [Hneg | Hpos]; [|nia].
  replace (Z.to_nat n) with O in Hlen by lia. simpl in Hlen. nia.
Qed.

(** X22. The table fits the maze.  If the agent's table has one entry per
    state and only states of cells inside its bounds (an empty table does),
    and the episode starts inside the bounds, the same holds after
    [runEpisode], and [getStatesExplored] is at most
    [mazeSize * mazeSize]. *)
Theorem table_fits_maze (a : QLearningAgent.agent) (rnd : rng)
    (maze : jsarray (jsarray Z)) (startPos goalPos : Position) (maxSteps : Z) :
  keys_distinct a -> keys_in_grid a ->
  0 <= pos_x startPos < QLearningAgent.mazeSize a ->
  0 <= pos_y startPos < QLearningAgent.mazeSize a ->
  run_post (QLearningAgent.runEpisode a rnd maze startPos goalPos maxSteps)
    (fun out =>
       let a' := snd (fst out) in
       keys_distinct a' /\ keys_in_grid a' /\
       QLearningAgent.getStatesExplored a'
       <= QLearningAgent.mazeSize a * QLearningAgent.mazeSize a)
    (~ rows_ok a maze).
Proof.
  intros Hnd Hk Hx Hy. rewrite runEpisode_initial.
  pose proof (episode_loop_spec maze goalPos (Z.to_nat maxSteps)
                (initial a rnd startPos)) as Hspec.
  destruct (QLearningAgent.episode_loop _ _ _ _) as [[[res a'] rnd']| |];
    simpl in *; auto.
  destruct Hspec as (s' & Hep & _ & -> & _).
  assert (Hnd' : keys_distinct (QLearningAgent.ep_agent s')).
  { apply (episode_keeps keys_distinct _ _ _ _ _ _) in Hep; auto.
    - intros a0 k. apply keys_distinct_init.
    - intros a0 state act reward nextState a1. apply keys_distinct_update. }
  assert (Hk' : keys_in_grid (QLearningAgent.ep_agent s')).
  { apply (episode_keys _ _ _ _ _ _ Hep); assumption. }
  assert (Hm : QLearningAgent.mazeSize (QLearningAgent.ep_agent s')
               = QLearningAgent.mazeSize a).
  { apply (episode_keeps
             (fun b => QLearningAgent.mazeSize b = QLearningAgent.mazeSize a)
             _ _ _ _ _ _) in Hep; auto.
    - intros a0 k <-. apply init_fields.
    - intros a0 state act reward nextState a1 <- Hup.
      eapply updateQValue_mazeSize; eauto. }
  split; [exact Hnd'|]. split; [exact Hk'|].
  rewrite <- Hm. apply keys_count; assumption.
Qed.

(** ** The agent can solve the maze *)

Lemma drive_app (a : QLearningAgent.agent) maze : forall acts p q act,
  drive a maze p acts = Some q ->
  QLearningAgent.isValidMove a
    (pos_x (QLearningAgent.getNextPosition (pos_x q) (pos_y q) act))
    (pos_y (QLearningAgent.getNextPosition (pos_x q) (pos_y q) act)) maze = Ret true ->
  drive a maze p (acts ++ [act])
  = Some (QLearningAgent.getNextPosition (pos_x q) (pos_y q) act).
Proof.
  induction acts as [|b acts IH]; intros p q act Hd Hv; cbn [drive app] in *.
  - injection Hd as ->. rewrite Hv. reflexivity.
  - destruct (QLearningAgent.isValidMove a _ _ maze) as [[|]| |]; try discriminate.
    apply IH; assumption.
Qed.

Lemma reach_drive this (m : MazeGenerator.grid) (a : QLearningAgent.agent) x y :
  QLearningAgent.mazeSize a = MazeGenerator.size this ->
  reach this m x y ->
  exists acts,
    Forall (fun act => In act QLearningAgent.four_actions) acts /\
    drive a m (MazeGenerator.startPosition this) acts = Some (mkPos x y).
Proof.
  intros Hm. induction 1 as [|x y x' y' _ IH Hadj Hg Hopen].
  - exists []. split; [constructor|]. cbn [drive]. rewrite pos_eta. reflexivity.
  - destruct IH as (acts & Hacts & Hd).
    destruct Hadj as (d & Hd' & -> & ->).
    assert (Hact : exists act, In act QLearningAgent.four_actions /\
                     QLearningAgent.getNextPosition x y act
                     = mkPos (x + fst d) (y + snd d)).
    { simpl in Hd'. destruct Hd' as [<-|[<-|[<-|[<-|[]]]]]; cbn [fst snd].
      - exists "up"%string. split; [simpl; auto|].
        unfold QLearningAgent.getNextPosition. simpl. f_equal; lia.
      - exists "right"%string. split; [simpl; auto|].
        unfold QLearningAgent.getNextPosition. simpl. f_equal; lia.
      - exists "down"%string. split; [simpl; auto|].
        unfold QLearningAgent.getNextPosition. simpl. f_equal; lia.
      - exists "left"%string. split; [simpl; auto|].
        unfold QLearningAgent.getNextPosition. simpl. f_equal; lia. }
    destruct Hact as (act & Hin & Hnext).
    exists (acts ++ [act]). split.
    + apply Forall_app. split; [exact Hacts | constructor; [exact Hin | constructor]].
    + rewrite <- Hnext. apply (drive_app a m acts _ (mkPos x y) act Hd).
      cbn [pos_x pos_y]. rewrite Hnext. cbn [pos_x pos_y].
      apply open_valid. unfold open_cell. cbn [pos_x pos_y]. rewrite Hm.
      destruct Hg as [Hgx Hgy]. repeat split; try lia. exact Hopen.
Qed.

(** X23. Every constructed maze can be solved by the agent's own moves:
    for an agent built for the maze's size there is a list of actions, each
    of up, right, down, left, that leads from the start to the goal with
    every move valid in the sense of [isValidMove]. *)
Theorem generated_maze_solvable (size : Z) (wallDensity : Q) (rnd : rng)
    (fuel : nat) :
  1 <= size -> random_ok rnd -> (enough size <= fuel)%nat ->
  exists g rnd',
    MazeGenerator.new fuel size wallDensity rnd = Ret (g, rnd') /\
    forall a : QLearningAgent.agent,
      QLearningAgent.mazeSize a = MazeGenerator.getSize g ->
      exists acts,
        Forall (fun act => In act QLearningAgent.four_actions) acts /\
        drive a (MazeGenerator.getMaze g) (MazeGenerator.getStartPosition g) acts
        = Some (MazeGenerator.getGoalPosition g).
Proof.
  intros Hsize Hr Hfuel.
  destruct (generateMaze_ok (config_of size wallDensity) rnd fuel)
    as (m & rnd' & E & _ & _ & _ & _ & _ & Hreach); auto.
  { apply standard_config. exact Hsize. }
  exists (MazeGenerator.mkMaze (config_of size wallDensity) m), rnd'.
  unfold MazeGenerator.new. fold (config_of size wallDensity). rewrite E.
  split; [reflexivity|].
  intros a Hm.
  exact (reach_drive (config_of size wallDensity) m a _ _ Hm Hreach).
Qed.

End TrainingFacts.

(* ================================================================== *)
(** * Further facts on concrete inputs: the maze *)
(* ================================================================== *)

Module MazeMoreExamples.

Import MazeGenerator MazeSpec MazeSpecMore MazeFacts MazeMore Examples AgentExamples.
Import TrainingFacts.

Lemma boxed_full : full2 2 boxed.
Proof. apply is_full2_sound. reflexivity. Defined.

Lemma two_standard : standard (config_of 2 (1 # 2)).
Proof. split; [reflexivity | split; [reflexivity | simpl; lia]]. Defined.

Lemma createPathToGoal_exact_witness :
  exists m',
    createPathToGoal (config_of 2 (1 # 2)) boxed = Ret m' /\
    full2 (size (config_of 2 (1 # 2))) m' /\
    (forall x y, on_repair_path (config_of 2 (1 # 2)) x y -> open_at m' x y) /\
    (forall x y, ~ on_repair_path (config_of 2 (1 # 2)) x y ->
                 get2 m' y x = get2 boxed y x) /\
    reach (config_of 2 (1 # 2)) m'
          (pos_x (goalPosition (config_of 2 (1 # 2))))
          (pos_y (goalPosition (config_of 2 (1 # 2)))).
Proof.
  exact (createPathToGoal_exact (config_of 2 (1 # 2)) boxed two_standard boxed_full).
Defined.

Lemma applyWallDensityModification_region_witness :
  exists m' rnd',
    applyWallDensityModification (config_of 2 (1 # 2)) (boxed, half) = Ret (m', rnd') /\
    full2 (size (config_of 2 (1 # 2))) m' /\ random_ok rnd' /\
    (forall x y, open_at boxed x y -> open_at m' x y) /\
    (forall x y, get2 m' y x <> get2 boxed y x ->
                 relaxable (config_of 2 (1 # 2)) x y /\ open_at m' x y).
Proof.
  exact (applyWallDensityModification_region (config_of 2 (1 # 2)) boxed half
           boxed_full half_ok).
Defined.

Lemma ensureConnectivity_region_witness :
  (exists m' rnd',
      ensureConnectivity (config_of 2 (1 # 2)) (boxed, half) = Ret (m', rnd') /\
      full2 (size (config_of 2 (1 # 2))) m' /\ random_ok rnd' /\
      (forall x y, open_at boxed x y -> open_at m' x y) /\
      (forall x y, get2 m' y x <> get2 boxed y x ->
                   interior (config_of 2 (1 # 2)) x y /\ open_at m' x y)) /\
  (size (config_of 2 (1 # 2)) < 10 ->
   ensureConnectivity (config_of 2 (1 # 2)) (boxed, half) = Ret (boxed, half)).
Proof.
  exact (ensureConnectivity_region (config_of 2 (1 # 2)) boxed half boxed_full half_ok).
Defined.

Lemma hasPath_decides_witness :
  (hasPath 5 (config_of 2 (1 # 2)) boxed = Ret true <->
   reach (config_of 2 (1 # 2)) boxed
         (pos_x (goalPosition (config_of 2 (1 # 2))))
         (pos_y (goalPosition (config_of 2 (1 # 2))))) /\
  (hasPath 5 (config_of 2 (1 # 2)) boxed = Ret false <->
   ~ reach (config_of 2 (1 # 2)) boxed
           (pos_x (goalPosition (config_of 2 (1 # 2))))
           (pos_y (goalPosition (config_of 2 (1 # 2))))).
Proof.
  apply (hasPath_decides (config_of 2 (1 # 2)) boxed 5 two_standard boxed_full).
  vm_compute. lia.
Defined.

Lemma generated_maze_grid_witness :
  exists g rnd',
    MazeGenerator.new (enough 3) 3 (3 # 10) half = Ret (g, rnd') /\
    full2 3 (getMaze g) /\
    (forall x y, 0 <= x < 3 -> 0 <= y < 3 ->
                 (get2 (getMaze g) y x = Ret (Some 0) /\ isWall g x y = Ret false) \/
                 (get2 (getMaze g) y x = Ret (Some 1) /\ isWall g x y = Ret true)) /\
    (forall x y, ~ (0 <= x < 3 /\ 0 <= y < 3) -> isWall g x y = Ret true).
Proof.
  apply (generated_maze_grid 3 (3 # 10) half (enough 3)).
  - lia.
  - exact half_ok.
  - apply le_n.
Defined.

Lemma generated_maze_rooms_witness :
  exists g rnd',
    MazeGenerator.new (enough 5) 5 (3 # 10) half = Ret (g, rnd') /\
    forall x y, 0 <= x < 5 -> 0 <= y < 5 ->
                Z.even x = true -> Z.even y = true ->
                open_at (getMaze g) x y /\ reach (self g) (getMaze g) x y.
Proof.
  apply (generated_maze_rooms 5 (3 # 10) half (enough 5)).
  - lia.
  - exact half_ok.
  - apply le_n.
Defined.

Lemma wallDensity_saturates_witness :
  removalProbability (config_of 5 (2 # 3)) = (1 # 10)%Q /\
  generateMaze (enough 5) (config_of 5 (2 # 3)) half
  = generateMaze (enough 5) (config_of 5 1) half.
Proof.
  apply (wallDensity_saturates 5 (2 # 3) 1 half (enough 5)).
  - vm_compute. discriminate.
  - vm_compute. discriminate.
Defined.

Lemma episode_on_generated_maze_witness :
  exists g rnd',
    MazeGenerator.new (enough 3) 3 (3 # 10) half = Ret (g, rnd') /\
    forall (a : QLearningAgent.agent) (rnd2 : rng) (maxSteps : Z),
      QLearningAgent.mazeSize a = MazeGenerator.getSize g ->
      exists res a' rnd3,
        QLearningAgent.runEpisode a rnd2 (MazeGenerator.getMaze g)
          (MazeGenerator.getStartPosition g) (MazeGenerator.getGoalPosition g)
          maxSteps
        = Ret (res, a', rnd3) /\
        Forall (fun p => MazeGenerator.isWall g (pos_x p) (pos_y p) = Ret false)
               (QLearningAgent.path res).
Proof.
  apply (episode_on_generated_maze 3 (3 # 10) half (enough 3)).
  - lia.
  - exact half_ok.
  - apply le_n.
Defined.

Lemma table_fits_maze_witness :
  run_post (QLearningAgent.runEpisode (greedy 2) half boxed (mkPos 0 0) (mkPos 1 1) 4)
    (fun out =>
       let a' := snd (fst out) in
       AgentSpecMore.keys_distinct a' /\ AgentSpecMore.keys_in_grid a' /\
       QLearningAgent.getStatesExplored a'
       <= QLearningAgent.mazeSize (greedy 2) * QLearningAgent.mazeSize (greedy 2))
    (~ AgentSpec.rows_ok (greedy 2) boxed).
Proof.
  apply (table_fits_maze (greedy 2) half boxed (mkPos 0 0) (mkPos 1 1) 4).
  - constructor.
  - intros k [].
  - simpl. lia.
  - simpl. lia.
Defined.

Lemma generated_maze_solvable_witness :
  exists g rnd',
    MazeGenerator.new (enough 3) 3 (3 # 10) half = Ret (g, rnd') /\
    forall a : QLearningAgent.agent,
      QLearningAgent.mazeSize a = MazeGenerator.getSize g ->
      exists acts,
        Forall (fun act => In act QLearningAgent.four_actions) acts /\
        AgentSpecMore.drive a (MazeGenerator.getMaze g)
                            (MazeGenerator.getStartPosition g) acts
        = Some (MazeGenerator.getGoalPosition g).
Proof.
  apply (generated_maze_solvable 3 (3 # 10) half (enough 3)).
  - lia.
  - exact half_ok.
  - apply le_n.
Defined.

End MazeMoreExamples.

(* ================================================================== *)
(** * The training page: proofs *)
(* ================================================================== *)

Module TrainingPageFacts.

Import QLearningAgent TrainingPage TrainingSpec.
Import JsFacts AgentFacts AgentMore.

(** ** Running totals *)

Lemma sum_steps_app rs r : sum_steps (rs ++ [r]) = sum_steps rs + steps r.
Proof.
  unfold sum_steps. induction rs as [|r0 rs IH]; simpl; [lia|]. rewrite IH. lia.
Qed.

Lemma successes_app rs r :
  successes (rs ++ [r]) = successes rs + (if success r then 1 else 0).
Proof.
  unfold successes. rewrite filter_app, length_app. simpl.
  destruct (success r); simpl; lia.
Qed.

Lemma successes_range rs : 0 <= successes rs <= Z.of_nat (List.length rs).
Proof.
  unfold successes. pose proof (filter_length_le success rs). lia.
Qed.

Lemma best_of_app rs r b :
  Forall plausible rs -> plausible r -> best_of rs b ->
  best_of (rs ++ [r])
          (if success r && ((b =? 0) || (steps r <? b)) then steps r else b).
Proof.
  intros Hrs [_ Hr] Hb. rewrite Forall_forall in Hrs.
  destruct (success r) eqn:Es; cbn [andb].
  - specialize (Hr eq_refl).
    assert (Hself : exists r', In r' (rs ++ [r]) /\ success r' = true /\ steps r' = steps r).
    { exists r. split; [apply in_or_app; right; left; reflexivity | auto]. }
    destruct Hb as [[-> Hnone] | [(r0 & Hin0 & Hs0 & Hst0) Hmin]].
    + cbn [Z.eqb orb]. right. split; [exact Hself|].
      intros r' Hin Hs'. apply in_app_or in Hin. destruct Hin as [Hin | [<- | []]].
      * rewrite (Hnone r' Hin) in Hs'. discriminate.
      * lia.
    + assert (Hb1 : 1 <= b).
      { destruct (Hrs r0 Hin0) as [_ H1]. specialize (H1 Hs0). lia. }
      replace (b =? 0) with false by lia. cbn [orb].
      destruct (steps r <? b) eqn:El.
      * right. split; [exact Hself|].
        intros r' Hin Hs'. apply in_app_or in Hin. destruct Hin as [Hin | [<- | []]].
        -- specialize (Hmin r' Hin Hs'). lia.
        -- lia.
      * right. split.
        -- exists r0. split; [apply in_or_app; left; exact Hin0 | auto].
        -- intros r' Hin Hs'. apply in_app_or in Hin.
           destruct Hin as [Hin | [<- | []]]; [apply Hmin; assumption | lia].
  - destruct Hb as [[-> Hnone] | [(r0 & Hin0 & Hs0 & Hst0) Hmin]].
    + left. split; [reflexivity|].
      intros r' Hin. apply in_app_or in Hin.
      destruct Hin as [Hin | [<- | []]]; [apply Hnone, Hin | exact Es].
    + right. split.
      * exists r0. split; [apply in_or_app; left; exact Hin0 | auto].
      * intros r' Hin Hs'. apply in_app_or in Hin.
        destruct Hin as [Hin | [<- | []]]; [apply Hmin; assumption | congruence].
Qed.

Lemma ndiv_pos (p : Z) (k : Z) :
  1 <= k -> ndiv (of_Z p) (of_Z k) = Fin (inject_Z p / inject_Z k).
Proof.
  intros Hk. unfold ndiv, of_Z.
  destruct (Qeq_bool (inject_Z k) 0) eqn:E; [|reflexivity].
  apply Qeq_bool_iff in E. unfold Qeq in E. simpl in E. lia.
Qed.

Lemma ratio_range (p k : Z) :
  1 <= k -> 0 <= p <= k ->
  (0 <= inject_Z p / inject_Z k * inject_Z 100)%Q /\
  (inject_Z p / inject_Z k * inject_Z 100 <= 100)%Q.
Proof.
  intros Hk Hp.
  assert (Hk' : (0 < inject_Z k)%Q) by (change 0%Q with (inject_Z 0); rewrite <- Zlt_Qlt; lia).
  assert (Hp0 : (0 <= inject_Z p)%Q) by (change 0%Q with (inject_Z 0); rewrite <- Zle_Qle; lia).
  assert (Hpk : (inject_Z p <= inject_Z k)%Q) by (rewrite <- Zle_Qle; lia).
  assert (H0 : (0 <= inject_Z p / inject_Z k)%Q).
  { apply Qle_shift_div_l; [exact Hk'|]. rewrite Qmult_0_l. exact Hp0. }
  assert (H1 : (inject_Z p / inject_Z k <= 1)%Q).
  { apply Qle_shift_div_r; [exact Hk'|]. rewrite Qmult_1_l. exact Hpk. }
  change (inject_Z 100) with 100%Q. split; lra.
Qed.

(** X19. The statistics of the training page add up.  If the running totals
    agree with the episodes run so far and the update for the next episode
    is applied with the next episode number, then afterwards: [totalSteps]
    is the sum of all steps; [successfulRuns] is the number of successful
    episodes; [bestTime] is the least number of steps of a successful
    episode, or 0 when there was none; [successRate] is the percentage of
    successful episodes, between 0 and 100; and [avgSteps] is the mean
    number of steps.  (An episode result is plausible when a success took
    at least one step, as the results of [runEpisode] are; the value 0 of
    [bestTime] can then only mean: no success yet.) *)
Theorem updateEpisodeStats_tallies (rs : list EpisodeResult) (r : EpisodeResult)
    (agent : agent) (prev : TrainingStats) :
  Forall plausible rs -> plausible r -> tallies rs prev ->
  let st := updateEpisodeStats (Z.of_nat (List.length rs) + 1) r agent prev in
  tallies (rs ++ [r]) st /\
  currentEpisode st = Z.of_nat (List.length (rs ++ [r])) /\
  (exists q, successRate st = Fin q /\
             (q * inject_Z (currentEpisode st)
              == inject_Z (100 * successes (rs ++ [r])))%Q /\
             (0 <= q)%Q /\ (q <= 100)%Q) /\
  (exists q, avgSteps st = Fin q /\
             (q * inject_Z (currentEpisode st) == inject_Z (sum_steps (rs ++ [r])))%Q).
Proof.
  intros Hrs Hr (Ht & Hs & Hb). cbv zeta.
  set (k := Z.of_nat (List.length rs) + 1).
  assert (Hk : 1 <= k) by (unfold k; lia).
  assert (Hk0 : ~ (inject_Z k == 0)%Q).
  { unfold Qeq. simpl. lia. }
  unfold updateEpisodeStats.
  cbn [totalSteps successfulRuns bestTime currentEpisode successRate avgSteps].
  rewrite Ht, Hs, <- sum_steps_app, <- successes_app.
  split; [|split; [|split]].
  - split; [reflexivity|]. split; [reflexivity|].
    apply best_of_app; assumption.
  - rewrite length_app. simpl. unfold k. lia.
  - rewrite (ndiv_pos _ k Hk). cbn [nmul of_Z].
    eexists. split; [reflexivity|]. split.
    + rewrite inject_Z_mult. change (inject_Z 100) with 100%Q. field. exact Hk0.
    + apply ratio_range; [exact Hk|].
      pose proof (successes_range (rs ++ [r])) as H.
      rewrite length_app in H. simpl in H. unfold k. lia.
  - rewrite (ndiv_pos _ k Hk).
    eexists. split; [reflexivity|]. field. exact Hk0.
Qed.

(** ** The window of the learning chart *)

Lemma skipn_app_le {A} (n : nat) (l1 l2 : list A) :
  (n <= List.length l1)%nat -> skipn n (l1 ++ l2) = skipn n l1 ++ l2.
Proof.
  intros H. rewrite skipn_app. replace (n - List.length l1)%nat with O by lia.
  reflexivity.
Qed.

(** X20. The history shown in the learning chart is a sliding window: if
    it holds the last 100 of the step counts recorded so far (all of them
    when there are fewer), then after the next episode it holds the last
    100 of the longer record, and it never has more than 100 entries. *)
Theorem pushHistory_window (all episodeHistory : list Z) (steps : Z) :
  episodeHistory = last_n 100 all ->
  pushHistory episodeHistory steps = last_n 100 (all ++ [steps]) /\
  (List.length (pushHistory episodeHistory steps) <= 100)%nat.
Proof.
  intros ->. unfold pushHistory, last_n.
  rewrite !length_app, length_skipn. cbn [List.length].
  destruct (le_lt_dec 100 (List.length all)) as [Hge | Hlt].
  - replace (100 <? Z.of_nat (List.length all - (List.length all - 100) + 1)) with true
      by (symmetry; apply Z.ltb_lt; lia).
    assert (E : tl (skipn (List.length all - 100) all ++ [steps])
                = skipn (List.length all + 1 - 100) (all ++ [steps])).
    { replace (List.length all + 1 - 100)%nat with (1 + (List.length all - 100))%nat
        by lia.
      rewrite <- skipn_skipn, (skipn_app_le (List.length all - 100)) by lia.
      destruct (skipn (List.length all - 100) all ++ [steps]); reflexivity. }
    rewrite E. split; [reflexivity|].
    rewrite length_skipn, length_app. simpl. lia.
  - replace (List.length all - 100)%nat with O by lia. cbn [skipn].
    replace (100 <? Z.of_nat (List.length all - 0 + 1)) with false
      by (symmetry; apply Z.ltb_ge; lia).
    replace (List.length all + 1 - 100)%nat with O by lia. cbn [skipn].
    split; [reflexivity|]. rewrite length_app. simpl. lia.
Qed.

(** ** The visit counts of the heat map *)

Lemma getStateKey_inj x y x' y' :
  getStateKey x y = getStateKey x' y' -> x = x' /\ y = y'.
Proof.
  unfold getStateKey. intros E.
  apply split_at_comma in E; try apply string_of_Z_no_comma.
  destruct E as [E1 E2]. split; apply string_of_Z_inj; assumption.
Qed.

Lemma animateStep_spec episode r (i : nat) prev position :
  nth_error (path r) i = Some position ->
  exists st,
    animateStep episode r (Z.of_nat i) prev = Ret st /\
    robotPosition st = position /\
    (forall x y, visits st x y
                 = visits prev x y + occurrences [position] x y) /\
    totalSteps st = totalSteps prev /\ successfulRuns st = successfulRuns prev /\
    bestTime st = bestTime prev /\ totalEpisodes st = totalEpisodes prev.
Proof.
  intros Hn. unfold animateStep.
  replace (Z.of_nat i <? 0) with false by (symmetry; apply Z.ltb_ge; lia).
  rewrite Nat2Z.id, Hn. eexists. split; [reflexivity|].
  cbn [robotPosition totalSteps successfulRuns bestTime totalEpisodes].
  split; [reflexivity|]. split; [|repeat split].
  intros x y. unfold visits, occurrences. cbn [visitCount count_occ].
  fold (getStateKey (pos_x position) (pos_y position)).
  destruct (Position_eq_dec position (mkPos x y)) as [-> | Hne].
  - cbn [pos_x pos_y]. rewrite map_get_set_eq.
    destruct (map_get (visitCount prev) (getStateKey x y)); simpl; lia.
  - rewrite map_get_set_neq.
    + destruct (map_get (visitCount prev) (getStateKey x y)); simpl; lia.
    + intros E. apply getStateKey_inj in E. destruct E as [-> ->].
      apply Hne. symmetry. apply pos_eta.
Qed.


Lemma occurrences_cons p l x y :
  occurrences (p :: l) x y = occurrences [p] x y + occurrences l x y.
Proof.
  unfold occurrences. cbn [count_occ].
  destruct (Position_eq_dec p (mkPos x y)); lia.
Qed.

Lemma animatePath_spec episode r agent : forall (n : nat) (i : nat) fuel prev,
  (i + n = List.length (path r))%nat -> (1 <= n)%nat -> (n <= fuel)%nat ->
  exists st0,
    animatePath fuel episode r agent (Z.of_nat i) prev
    = Ret (updateEpisodeStats episode r agent st0) /\
    (forall x y, visits st0 x y
                 = visits prev x y + occurrences (skipn i (path r)) x y) /\
    totalSteps st0 = totalSteps prev /\ successfulRuns st0 = successfulRuns prev /\
    bestTime st0 = bestTime prev /\ totalEpisodes st0 = totalEpisodes prev.
Proof.
  induction n as [|n IH]; intros i fuel prev Hlen Hn Hfuel; [lia|].
  destruct fuel as [|fuel]; [lia|].
  destruct (nth_error (path r) i) as [position|] eqn:Hi.
  2:{ apply nth_error_None in Hi. lia. }
  destruct (animateStep_spec episode r i prev position Hi)
    as (st & Est & _ & Hvis & Hts & Hsr & Hbt & Hte).
  assert (Hskip : skipn i (path r) = position :: skipn (S i) (path r)).
  { clear - Hi. revert i Hi. induction (path r) as [|p l IHl]; intros [|i] Hi;
      simpl in *; try discriminate.
    - injection Hi as ->. reflexivity.
    - apply IHl, Hi. }
  cbn [animatePath].
  replace (Z.of_nat i <? Z.of_nat (List.length (path r))) with true
    by (symmetry; apply Z.ltb_lt; lia).
  rewrite Est. cbn [bind].
  destruct n as [|n].
  - replace (Z.of_nat i + 1 <? Z.of_nat (List.length (path r))) with false
      by (symmetry; apply Z.ltb_ge; lia).
    exists st. split; [reflexivity|]. split; [|repeat split; assumption].
    assert (Hnil : skipn (S i) (path r) = []) by (apply skipn_all2; lia).
    intros x y. rewrite Hvis, Hskip, Hnil. reflexivity.
  - replace (Z.of_nat i + 1 <? Z.of_nat (List.length (path r))) with true
      by (symmetry; apply Z.ltb_lt; lia).
    replace (Z.of_nat i + 1) with (Z.of_nat (S i)) by lia.
    destruct (IH (S i) fuel st) as (st0 & E0 & Hvis0 & Hts0 & Hsr0 & Hbt0 & Hte0);
      try lia.
    exists st0. split; [exact E0|]. split; [|repeat split; congruence].
    intros x y.
    rewrite Hvis0, Hskip, (occurrences_cons position (skipn (S i) (path r))), Hvis.
    lia.
Qed.

(** X21. The heat map counts positions of paths.  An animation that is not
    interrupted sends one update per entry of the episode's path and then
    the statistics update; afterwards the visit count of every cell has
    grown by the number of times the cell occurs in the path (a bump into a
    wall repeats the cell, and counts), the robot is shown at the final
    position, and the episode is added to the running totals. *)
Theorem animatePath_counts (episode : Z) (r : EpisodeResult) (agent : agent)
    (prev : TrainingStats) (fuel : nat) :
  path r <> [] -> (List.length (path r) <= fuel)%nat ->
  exists st,
    animatePath fuel episode r agent 0 prev = Ret st /\
    (forall x y, visits st x y = visits prev x y + occurrences (path r) x y) /\
    robotPosition st = finalPosition r /\
    currentEpisode st = episode /\
    totalSteps st = totalSteps prev + steps r /\
    successfulRuns st = successfulRuns prev + (if success r then 1 else 0).
Proof.
  intros Hne Hfuel.
  destruct (animatePath_spec episode r agent (List.length (path r)) O fuel prev)
    as (st0 & E & Hvis & Hts & Hsr & _); try lia.
  { destruct (path r); [congruence | simpl; lia]. }
  exists (updateEpisodeStats episode r agent st0). split; [exact E|].
  unfold updateEpisodeStats, visits.
  cbn [visitCount robotPosition currentEpisode totalSteps successfulRuns].
  split; [|rewrite Hts, Hsr; repeat split].
  intros x y. apply Hvis.
Qed.

End TrainingPageFacts.

(* ================================================================== *)
(** * The training page on concrete inputs *)
(* ================================================================== *)

Module TrainingPageExamples.

Import QLearningAgent TrainingPage TrainingSpec TrainingPageFacts Examples.

Lemma won_plausible : plausible won.
Proof. split; [simpl; lia | intros _; simpl; lia]. Defined.

Lemma initial_tallies : tallies [] initialStats.
Proof.
  split; [reflexivity|]. split; [reflexivity|].
  left. split; [reflexivity | intros r []].
Defined.

Lemma updateEpisodeStats_tallies_witness :
  let st := updateEpisodeStats (Z.of_nat (List.length (@nil EpisodeResult)) + 1)
                               won (greedy 2) initialStats in
  tallies ([] ++ [won]) st /\
  currentEpisode st = Z.of_nat (List.length ([] ++ [won])) /\
  (exists q, successRate st = Fin q /\
             (q * inject_Z (currentEpisode st)
              == inject_Z (100 * successes ([] ++ [won])))%Q /\
             (0 <= q)%Q /\ (q <= 100)%Q) /\
  (exists q, avgSteps st = Fin q /\
             (q * inject_Z (currentEpisode st) == inject_Z (sum_steps ([] ++ [won])))%Q).
Proof.
  exact (updateEpisodeStats_tallies [] won (greedy 2) initialStats
           (Forall_nil _) won_plausible initial_tallies).
Defined.

Lemma pushHistory_window_witness :
  pushHistory [7; 3] 5 = last_n 100 ([7; 3] ++ [5]) /\
  (List.length (pushHistory [7; 3]%Z 5%Z) <= 100)%nat.
Proof. apply (pushHistory_window [7; 3] [7; 3] 5). reflexivity. Defined.

Lemma animatePath_counts_witness :
  exists st,
    animatePath 3 1 won (greedy 2) 0 initialStats = Ret st /\
    (forall x y, visits st x y = visits initialStats x y + occurrences (path won) x y) /\
    robotPosition st = finalPosition won /\
    currentEpisode st = 1 /\
    totalSteps st = totalSteps initialStats + steps won /\
    successfulRuns st = successfulRuns initialStats + (if success won then 1 else 0).
Proof.
  apply (animatePath_counts 1 won (greedy 2) initialStats 3).
  - discriminate.
  - simpl. lia.
Defined.

End TrainingPageExamples.
